(** * binarytree: a shallow embedding of [binarytree/__init__.py]

    The Python module builds, converts, inspects and draws binary trees
    made of mutable [Node] objects.  Objects live in a store (addresses are
    allocation order); the module's read-only traversals are written against
    the node accessors ([_value_of], [_left_of], [_right_of], [_is_node]),
    exactly as the source is, so that they can be run on the store and on
    inductive trees alike.

    Integers are [Z]; list positions are [nat]; text is [string]; the null
    value [_null] is Python's [None] (the default configuration of the
    module, which [setup] is not called to change). *)

From Stdlib Require Import ZArith Lia Bool Ascii.
From stdpp Require Import base tactics option list numbers sorting gmap
  strings pretty.

Local Open Scope Z_scope.

(* ------------------------------------------------------------------ *)
(** ** Outcomes of a call *)

(** The exceptions the module can raise.  The four [ValueError]s are told
    apart by their message. *)
Inductive exn :=
| NodeMissing (index : nat)   (* ValueError('Node missing at index {}') *)
| NullNodeValue               (* ValueError('A node cannot have a null value') *)
| InvalidNode                 (* ValueError('Found an invalid node in the tree') *)
| ExpectingListOrNode         (* ValueError('Expecting a list or a node') *)
| BadHeight                   (* ValueError('Height must be a non-negative integer') *)
| AttributeError              (* getattr/setattr on an object without the attribute *)
| TypeError                   (* ordering comparison with None *)
| IndexError.                 (* list index out of range *)

(** A call returns, raises, or does not return (a loop that walks a cyclic
    object graph exhausts every bound). *)
Inductive result (A : Type) :=
| Ok (a : A)
| Raise (e : exn)
| Diverge.
Arguments Ok {A} a.
Arguments Raise {A} e.
Arguments Diverge {A}.

Definition bind {A B} (m : result A) (k : A → result B) : result B :=
  match m with
  | Ok a => k a
  | Raise e => Raise e
  | Diverge => Diverge
  end.

Notation "'let*' x ':=' m 'in' k" := (bind m (fun x => k))
  (at level 10, x pattern, m at level 100, k at level 200, only parsing).

(** [for x in xs: s = body(s, x)], stopping at the first exception. *)
Fixpoint for_each {A S} (body : S → A → result S) (xs : list A) (s : S) : result S :=
  match xs with
  | [] => Ok s
  | x :: xs' => let* s' := body s x in for_each body xs' s'
  end.

(* ------------------------------------------------------------------ *)
(** ** Objects and the store *)

(** What a variable or an attribute can hold: [None], a reference to a
    [Node] instance, or some other object (an int, a string, ...). *)
Inductive obj :=
| ONull
| ORef (a : nat)
| OOther.

(** [class Node]: [value], [left], [right]. *)
Record node := mkNode {
  value : option Z;
  left : obj;
  right : obj;
}.

(** The store of [Node] instances, in allocation order. *)
Abbreviation store := (list node).

Definition obj_eqb (x y : obj) : bool :=
  match x, y with
  | ONull, ONull => true
  | ORef a, ORef b => Nat.eqb a b
  | OOther, OOther => true
  | _, _ => false
  end.

(** [Node.__init__(value)] through [_new_node]. *)
Definition _new_node (v : option Z) (h : store) : obj * store :=
  (ORef (length h), h ++ [mkNode v ONull ONull]).

(** [setattr(parent, 'left', child)]. *)
Definition _add_left (parent child : obj) (h : store) : result store :=
  match parent with
  | ORef a =>
      match h !! a with
      | Some n => Ok (<[a := mkNode (value n) child (right n)]> h)
      | None => Raise AttributeError
      end
  | _ => Raise AttributeError
  end.

Definition _add_right (parent child : obj) (h : store) : result store :=
  match parent with
  | ORef a =>
      match h !! a with
      | Some n => Ok (<[a := mkNode (value n) (left n) child]> h)
      | None => Raise AttributeError
      end
  | _ => Raise AttributeError
  end.

(* ------------------------------------------------------------------ *)
(** ** The node accessors *)

(** The read side of the module's node abstraction. *)
Class NodeOps (N : Type) := {
  is_null : N → bool;                    (* node == _null *)
  _is_node : N → bool;                   (* isinstance(obj, Node) *)
  _value_of : N → result (option Z);     (* getattr(node, 'value') *)
  _left_of : N → result N;               (* getattr(node, 'left') *)
  _right_of : N → result N;              (* getattr(node, 'right') *)
  null : N;                              (* _null *)
}.

Definition store_attr {A} (h : store) (f : node → A) (o : obj) : result A :=
  match o with
  | ORef a =>
      match h !! a with
      | Some n => Ok (f n)
      | None => Raise AttributeError
      end
  | _ => Raise AttributeError
  end.

Definition store_ops (h : store) : NodeOps obj := {|
  is_null o := obj_eqb o ONull;
  _is_node o := match o with ORef _ => true | _ => false end;
  _value_of := store_attr h value;
  _left_of := store_attr h left;
  _right_of := store_attr h right;
  null := ONull;
|}.

(** An integer read from a node's value, for an ordering comparison. *)
Definition int_of (v : option Z) : result Z :=
  match v with
  | Some x => Ok x
  | None => Raise TypeError
  end.

(** [float('inf')], [float('-inf')] and the integers between them. *)
Inductive ext :=
| NegInf
| Fin (z : Z)
| PosInf.

(** [min(node_value, min_value)] and [max(node_value, max_value)]. *)
Definition ext_min (x : Z) (m : ext) : ext :=
  match m with
  | NegInf => NegInf
  | Fin y => if y <? x then Fin y else Fin x
  | PosInf => Fin x
  end.

Definition ext_max (x : Z) (m : ext) : ext :=
  match m with
  | NegInf => Fin x
  | Fin y => if x <? y then Fin y else Fin x
  | PosInf => PosInf
  end.

(* ------------------------------------------------------------------ *)
(** ** Traversals *)

(** The running variables of the breadth-first pass of [inspect];
    [null_encountered] is reset at each level. *)
Record scan := mkScan {
  s_is_bst : bool;
  s_is_descending : bool;
  s_is_ascending : bool;
  s_is_left_padded : bool;
  s_min_value : ext;
  s_max_value : ext;
  s_node_count : Z;
  s_leaf_count : Z;
  s_min_leaf_depth : Z;
  s_current_depth : Z;
  s_null_encountered : bool;
}.

(** The start of an iteration of [while current_nodes]. *)
Definition next_level (s : scan) : scan :=
  mkScan (s_is_bst s) (s_is_descending s) (s_is_ascending s)
    (s_is_left_padded s) (s_min_value s) (s_max_value s)
    (s_node_count s) (s_leaf_count s) (s_min_leaf_depth s)
    (s_current_depth s + 1) false.

(** The dictionary [inspect] returns. *)
Record properties := mkProperties {
  is_height_balanced : bool;
  is_weight_balanced : bool;
  is_max_heap : bool;
  is_min_heap : bool;
  is_bst : bool;
  height : Z;
  leaf_count : Z;
  node_count : Z;
  min_leaf_depth : Z;
  max_leaf_depth : Z;
  min_value : ext;
  max_value : ext;
}.


Section Traversals.
Context {N : Type} `{NodeOps N}.

(** [_is_balanced(node)]: depth if balanced else -1. *)
Fixpoint _is_balanced (fuel : nat) (n : N) : result Z :=
  match fuel with
  | O => Diverge
  | S fuel' =>
      if is_null n then Ok 0
      else
        let* l := _left_of n in
        let* left := _is_balanced fuel' l in
        let* r := _right_of n in
        let* right := _is_balanced fuel' r in
        if (left <? 0) || (right <? 0) || (1 <? Z.abs (left - right))
        then Ok (-1)
        else Ok (Z.max left right + 1)
  end.

(** One pass of the [for node in current_nodes] loop of [_build_list];
    the state is [(result, next_nodes, level_not_empty)]. *)
Definition build_list_body (s : list (option Z) * list N * bool) (n : N)
  : result (list (option Z) * list N * bool) :=
  let '(res, next_nodes, level_not_empty) := s in
  if is_null n then
    Ok (res ++ [None], next_nodes ++ [null; null], level_not_empty)
  else
    let* v := _value_of n in
    let* left_child := _left_of n in
    let* right_child := _right_of n in
    let level_not_empty :=
      if negb (is_null left_child) then true else level_not_empty in
    let level_not_empty :=
      if negb (is_null right_child) then true else level_not_empty in
    Ok (res ++ [v], next_nodes ++ [left_child; right_child], level_not_empty).

(** The [while level_not_empty] loop of [_build_list]. *)
Fixpoint build_list_levels (fuel : nat) (res : list (option Z))
    (current_nodes : list N) : result (list (option Z)) :=
  match fuel with
  | O => Diverge
  | S fuel' =>
      let* (res', next_nodes, level_not_empty) :=
        for_each build_list_body current_nodes (res, [], false) in
      if level_not_empty then build_list_levels fuel' res' next_nodes
      else Ok res'
  end.

(** [while result and result[-1] == _null: result.pop()]. *)
Fixpoint pop_nulls (reversed : list (option Z)) : list (option Z) :=
  match reversed with
  | None :: rest => pop_nulls rest
  | _ => reversed
  end.

Definition trim (res : list (option Z)) : list (option Z) :=
  rev (pop_nulls (rev res)).

(** [_build_list(root)]. *)
Definition build_list (fuel : nat) (root : N) : result (list (option Z)) :=
  let* res := build_list_levels fuel [] [root] in
  Ok (trim res).

(** One pass of the [for node in current_nodes] loop of [_validate_tree];
    the state is [next_nodes]. *)
Definition validate_body (next_nodes : list N) (n : N) : result (list N) :=
  if _is_node n then
    let* v := _value_of n in
    match v with
    | None => Raise NullNodeValue
    | Some _ =>
        let* l := _left_of n in
        let* r := _right_of n in
        Ok (next_nodes ++ [l; r])
    end
  else if negb (is_null n) then Raise InvalidNode
  else Ok next_nodes.

(** The [while current_nodes] loop of [_validate_tree]. *)
Fixpoint validate_levels (fuel : nat) (current_nodes : list N) : result unit :=
  match current_nodes with
  | [] => Ok tt
  | _ =>
      match fuel with
      | O => Diverge
      | S fuel' =>
          let* next_nodes := for_each validate_body current_nodes [] in
          validate_levels fuel' next_nodes
      end
  end.

Definition validate_tree (fuel : nat) (root : N) : result unit :=
  validate_levels fuel [root].

(** One pass of [for child in (left_child, right_child)]; the state is
    [(is_left_padded, null_encountered)]. *)
Definition pad_step (child : N) (s : bool * bool) : bool * bool :=
  let '(is_left_padded, null_encountered) := s in
  if negb (is_null child) && null_encountered then (false, null_encountered)
  else if is_null child && negb null_encountered then (is_left_padded, true)
  else (is_left_padded, null_encountered).

(** One pass of the [for node in current_nodes] loop of [inspect]; the
    state is the running variables and [next_nodes]. *)
Definition inspect_body (sn : scan * list N) (n : N) : result (scan * list N) :=
  let '(s, next_nodes) := sn in
  let node_count := s_node_count s + 1 in
  let* v := _value_of n in
  let* node_value := int_of v in
  let min_value := ext_min node_value (s_min_value s) in
  let max_value := ext_max node_value (s_max_value s) in
  let* left_child := _left_of n in
  let* right_child := _right_of n in
  let '(is_left_padded, null_encountered) :=
    pad_step right_child
      (pad_step left_child (s_is_left_padded s, s_null_encountered s)) in
  let is_leaf := is_null left_child && is_null right_child in
  let min_leaf_depth :=
    if is_leaf && (s_min_leaf_depth s =? 0) then s_current_depth s
    else s_min_leaf_depth s in
  let leaf_count := if is_leaf then s_leaf_count s + 1 else s_leaf_count s in
  let* (flags, next_nodes) :=
    if negb (is_null left_child) then
      let* lv := _value_of left_child in
      let* left_value := int_of lv in
      Ok (if node_value <? left_value
          then (false, false, s_is_ascending s)
          else if left_value <? node_value
          then (s_is_bst s, s_is_descending s, false)
          else (s_is_bst s, s_is_descending s, s_is_ascending s),
          next_nodes ++ [left_child])
    else Ok (s_is_bst s, s_is_descending s, s_is_ascending s, next_nodes) in
  let '(is_bst, is_descending, is_ascending) := flags in
  let* (flags, next_nodes) :=
    if negb (is_null right_child) then
      let* rv := _value_of right_child in
      let* right_value := int_of rv in
      Ok (if node_value <? right_value
          then (is_bst, false, is_ascending)
          else if right_value <? node_value
          then (false, is_descending, false)
          else (is_bst, is_descending, is_ascending),
          next_nodes ++ [right_child])
    else Ok (is_bst, is_descending, is_ascending, next_nodes) in
  let '(is_bst, is_descending, is_ascending) := flags in
  Ok (mkScan is_bst is_descending is_ascending is_left_padded
        min_value max_value node_count leaf_count min_leaf_depth
        (s_current_depth s) null_encountered, next_nodes).

(** The [while current_nodes] loop of [inspect]. *)
Fixpoint inspect_levels (fuel : nat) (s : scan) (current_nodes : list N)
  : result scan :=
  match current_nodes with
  | [] => Ok s
  | _ =>
      match fuel with
      | O => Diverge
      | S fuel' =>
          let* (s', next_nodes) :=
            for_each inspect_body current_nodes (next_level s, []) in
          inspect_levels fuel' s' next_nodes
      end
  end.

Definition scan_init : scan :=
  mkScan true true true true PosInf NegInf 0 0 0 (-1) false.

(** [inspect] from the line [is_bst = True] on. *)
Definition inspect_tree (fuel : nat) (bt : N) : result properties :=
  let* s := inspect_levels fuel scan_init [bt] in
  let* depth := _is_balanced fuel bt in
  let is_balanced := 0 <=? depth in
  Ok (mkProperties
        (s_current_depth s - s_min_leaf_depth s <? 2)
        is_balanced
        (s_is_descending s && s_is_left_padded s && is_balanced)
        (s_is_ascending s && s_is_left_padded s && is_balanced)
        (s_is_bst s)
        (s_current_depth s)
        (s_leaf_count s)
        (s_node_count s)
        (s_min_leaf_depth s)
        (s_current_depth s)
        (s_min_value s)
        (s_max_value s)).
End Traversals.

(* ------------------------------------------------------------------ *)
(** ** Building trees in the store *)

(** One pass of the [while index < len(values)] loop of [_build_tree],
    which runs for [index = 1, ..., len(values) - 1]; the state is
    [(nodes, h)].  [int((index + 1) / 2) - 1] is the integer quotient less
    one (the float division of Python 3 is exact on list positions). *)
Definition build_tree_body (values : list (option Z))
    (s : list obj * store) (index : nat) : result (list obj * store) :=
  let '(nodes, h) := s in
  match values !! index with
  | None => Raise IndexError
  | Some None => Ok (nodes, h)
  | Some (Some x) =>
      let parent_index := ((index + 1) / 2 - 1)%nat in
      match nodes !! parent_index with
      | None => Raise IndexError
      | Some parent_node =>
          if obj_eqb parent_node ONull then Raise (NodeMissing parent_index)
          else
            let '(child_node, h1) := _new_node (Some x) h in
            let* h2 :=
              if Nat.odd index then _add_left parent_node child_node h1
              else _add_right parent_node child_node h1 in
            Ok (<[index := child_node]> nodes, h2)
      end
  end.

(** [_build_tree(values)]. *)
Definition _build_tree (values : list (option Z)) (h : store)
  : result (obj * store) :=
  match values with
  | [] => Ok (ONull, h)
  | None :: _ => Raise (NodeMissing 0)
  | Some x :: _ =>
      let nodes := replicate (length values) ONull in
      let '(root, h1) := _new_node (Some x) h in
      let nodes := <[0%nat := root]> nodes in
      let* (_, h2) :=
        for_each (build_tree_body values) (seq 1 (length values - 1)) (nodes, h1) in
      Ok (root, h2)
  end.

(** The [while True] loop of [_bst_insert]; [fuel] bounds the descent. *)
Fixpoint bst_insert_loop (fuel : nat) (n : obj) (v : Z) (depth : Z) (h : store)
  : result (Z * store) :=
  match fuel with
  | O => Diverge
  | S fuel' =>
      let* nv := @_value_of _ (store_ops h) n in
      let* node_value := int_of nv in
      if v <? node_value then
        let* left_child := @_left_of _ (store_ops h) n in
        if obj_eqb left_child ONull then
          let '(c, h1) := _new_node (Some v) h in
          let* h2 := _add_left n c h1 in
          Ok (depth, h2)
        else bst_insert_loop fuel' left_child v (depth + 1) h
      else
        let* right_child := @_right_of _ (store_ops h) n in
        if obj_eqb right_child ONull then
          let '(c, h1) := _new_node (Some v) h in
          let* h2 := _add_right n c h1 in
          Ok (depth, h2)
        else bst_insert_loop fuel' right_child v (depth + 1) h
  end.

(** The bound on the loops that walk the object graph: a walk that is not
    over after as many levels as the store has nodes (and two to spare)
    has met a node twice, and then never ends. *)
Definition fuel_of (h : store) : nat := (length h + 2)%nat.

(** [_bst_insert(root, value)] returns the depth of the new node. *)
Definition _bst_insert (root : obj) (v : Z) (h : store) : result (Z * store) :=
  bst_insert_loop (fuel_of h) root v 1 h.

(** The [while True] loop of [_random_insert]; [coin k] is the outcome of
    the [k]-th evaluation of [random() < 0.5] and [k] the number of draws
    made so far. *)
Fixpoint random_insert_loop (coin : nat → bool) (fuel : nat) (n : obj) (v : Z)
    (depth : Z) (k : nat) (h : store) : result (Z * nat * store) :=
  match fuel with
  | O => Diverge
  | S fuel' =>
      if coin k then
        let* left_child := @_left_of _ (store_ops h) n in
        if obj_eqb left_child ONull then
          let '(c, h1) := _new_node (Some v) h in
          let* h2 := _add_left n c h1 in
          Ok (depth, S k, h2)
        else random_insert_loop coin fuel' left_child v (depth + 1) (S k) h
      else
        let* right_child := @_right_of _ (store_ops h) n in
        if obj_eqb right_child ONull then
          let '(c, h1) := _new_node (Some v) h in
          let* h2 := _add_right n c h1 in
          Ok (depth, S k, h2)
        else random_insert_loop coin fuel' right_child v (depth + 1) (S k) h
  end.

Definition _random_insert (coin : nat → bool) (root : obj) (v : Z) (k : nat)
    (h : store) : result (Z * nat * store) :=
  random_insert_loop coin (fuel_of h) root v 1 k h.

(* ------------------------------------------------------------------ *)
(** ** The traversals on the store *)

Definition _build_list (root : obj) (h : store) : result (list (option Z)) :=
  @build_list _ (store_ops h) (fuel_of h) root.

(** [_validate_tree(root)]; the store is returned as the walk leaves it. *)
Definition _validate_tree (root : obj) (h : store) : result (unit * store) :=
  let* u := @validate_tree _ (store_ops h) (fuel_of h) root in
  Ok (u, h).

(* ------------------------------------------------------------------ *)
(** ** Generators *)

(** [count = 2 ** (height + 1) - 1]. *)
Definition count (height : Z) : Z := 2 ^ (height + 1) - 1.

(** What [sample(range(n), n)] can return: [n] distinct integers of
    [range(n)]. *)
Definition is_sample (n : Z) (l : list Z) : Prop :=
  Z.of_nat (length l) = n ∧ NoDup l ∧ Forall (λ x, 0 ≤ x < n) l.

(** [_generate_values(height)]; [sampled] is what the call of [sample]
    returns. *)
Definition _generate_values (sampled : list Z) (height : Z) : result (list Z) :=
  if height <? 0 then Raise BadHeight else Ok sampled.

(** [for index in range(1, len(values))] of [tree], over [values[1:]]. *)
Fixpoint random_insert_all (coin : nat → bool) (root : obj) (height : Z)
    (rest : list Z) (k : nat) (h : store) : result store :=
  match rest with
  | [] => Ok h
  | v :: rest' =>
      let* (depth, k', h') := _random_insert coin root v k h in
      if depth =? height then Ok h'
      else random_insert_all coin root height rest' k' h'
  end.

(** [tree(height, balanced)]. *)
Definition tree (coin : nat → bool) (sampled : list Z) (height : Z)
    (balanced : bool) (h : store) : result (obj * store) :=
  let* values := _generate_values sampled height in
  if balanced then _build_tree (Some <$> values) h
  else
    match values with
    | [] => Raise IndexError
    | v0 :: rest =>
        let '(root, h1) := _new_node (Some v0) h in
        let* h2 := random_insert_all coin root height rest 0 h1 in
        Ok (root, h2)
    end.

(** [for index in range(1, len(values))] of [bst], over [values[1:]]. *)
Fixpoint bst_insert_all (root : obj) (height : Z) (rest : list Z) (h : store)
  : result store :=
  match rest with
  | [] => Ok h
  | v :: rest' =>
      let* (depth, h') := _bst_insert root v h in
      if depth =? height then Ok h'
      else bst_insert_all root height rest' h'
  end.

(** [bst(height)]. *)
Definition bst (sampled : list Z) (height : Z) (h : store)
  : result (obj * store) :=
  let* values := _generate_values sampled height in
  match values with
  | [] => Raise IndexError
  | v0 :: rest =>
      let '(root, h1) := _new_node (Some v0) h in
      let* h2 := bst_insert_all root height rest h1 in
      Ok (root, h2)
  end.

(** The heap invariant of [heapq]: [a[k] <= a[2*k+1]] and
    [a[k] <= a[2*k+2]]. *)
Definition heap_ordered (a : list Z) : Prop :=
  ∀ (k : nat) x y, a !! k = Some x →
    (a !! (2 * k + 1)%nat = Some y ∨ a !! (2 * k + 2)%nat = Some y) → x ≤ y.

(** [heap(height, max)]; [heapify] is [heapq.heapify], taken as the list
    it leaves behind. *)
Definition heap (heapify : list Z → list Z) (sampled : list Z) (height : Z)
    (max : bool) (h : store) : result (obj * store) :=
  let* values := _generate_values sampled height in
  if max then
    let negated := heapify (Z.opp <$> values) in
    _build_tree (Some <$> (Z.opp <$> negated)) h
  else
    _build_tree (Some <$> heapify values) h.

(* ------------------------------------------------------------------ *)
(** ** [convert] and [inspect] *)

(** The argument of [convert] and [inspect]: a list or any object. *)
Inductive arg :=
| AList (values : list (option Z))
| AObj (o : obj).

Definition convert (bt : arg) (h : store) : result (arg * store) :=
  match bt with
  | AObj ONull => Ok (AList [], h)
  | AList values =>
      let* (root, h') := _build_tree values h in
      Ok (AObj root, h')
  | AObj (ORef a) =>
      let* (_, h') := _validate_tree (ORef a) h in
      let* values := _build_list (ORef a) h' in
      Ok (AList values, h')
  | AObj OOther => Raise ExpectingListOrNode
  end.

Definition inspect (bt : arg) (h : store) : result (properties * store) :=
  let* (root, h') :=
    match bt with
    | AList values => _build_tree values h
    | AObj (ORef a) =>
        let* (_, h') := _validate_tree (ORef a) h in
        Ok (ORef a, h')
    | AObj _ => Raise ExpectingListOrNode
    end in
  let* p := @inspect_tree _ (store_ops h') (fuel_of h') root in
  Ok (p, h').

(* ------------------------------------------------------------------ *)
(** ** Display *)

(** [str(value)] of what a node holds: the decimal numeral of an integer,
    and ['None']. *)
Definition str (v : option Z) : string :=
  match v with
  | Some x => pretty x
  | None => "None"%string
  end.

(** [len(s)]. *)
Definition len (s : string) : Z := Z.of_nat (String.length s).

Fixpoint copies (c : Ascii.ascii) (n : nat) : string :=
  match n with
  | O => String.EmptyString
  | S n' => String.String c (copies c n')
  end.

(** [c * n]: [n] copies of a character, and the empty string for
    [n <= 0]. *)
Definition times (c : Ascii.ascii) (n : Z) : string := copies c (Z.to_nat n).

(** [''.join(parts)]. *)
Definition join (parts : list string) : string := String.concat String.EmptyString parts.

Definition newline : string := String.String "010"%char String.EmptyString.

(** The body of [_build_str] after its two recursive calls, for a node that
    holds [v] and the results [(l_len, l_val_from, l_val_to, l_lines)] and
    [(r_len, r_val_from, r_val_to, r_lines)] of the calls on its children.
    The two anchors are [-int(-(l_val_from + l_val_to) / 2) + 1] and
    [int((r_val_from + r_val_to) / 2)]: [/] is the float division of
    Python 3, exact on these columns, and [int] rounds towards zero. *)
Definition build_str_node (v : option Z)
    (l_res r_res : Z * Z * Z * list string) : Z * Z * Z * list string :=
  let '(l_len, l_val_from, l_val_to, l_lines) := l_res in
  let '(r_len, r_val_from, r_val_to, r_lines) := r_res in
  let val_len := len (str v) in
  let '(line1, line2, val_from, gap_len) :=
    if 0 <? l_len then
      let l_anchor := - Z.quot (- (l_val_from + l_val_to)) 2 + 1 in
      ([times " " (l_anchor + 1); times "_" (l_len - l_anchor)],
       [(times " " l_anchor +:+ "/")%string; times " " (l_len - l_anchor)],
       l_len + 1, val_len + 1)
    else ([], [], 0, val_len) in
  let line1 := line1 ++ [str v] in
  let line2 := line2 ++ [times " " val_len] in
  let '(line1, line2, gap_len) :=
    if 0 <? r_len then
      let r_anchor := Z.quot (r_val_from + r_val_to) 2 in
      (line1 ++ [times "_" r_anchor; times " " (r_len - r_anchor + 1)],
       line2 ++ [(times " " r_anchor +:+ "\")%string;
                 times " " (r_len - r_anchor)],
       gap_len + 1)
    else (line1, line2, gap_len) in
  let val_to := val_from + val_len - 1 in
  let gap := times " " gap_len in
  let lines :=
    [join line1; join line2] ++
    map (λ i, (default (times " " l_len) (l_lines !! i) +:+ gap) +:+
              default (times " " r_len) (r_lines !! i))
        (seq 0 (Nat.max (length l_lines) (length r_lines))) in
  (len (join line1), val_from, val_to, lines).

Section Display.
Context {N : Type} `{NodeOps N}.

(** [_build_str(node)] returns [(width, val_from, val_to, lines)]. *)
Fixpoint _build_str (fuel : nat) (n : N) : result (Z * Z * Z * list string) :=
  match fuel with
  | O => Diverge
  | S fuel' =>
      if is_null n then Ok (0, 0, 0, [])
      else
        let* v := _value_of n in
        let* l := _left_of n in
        let* l_res := _build_str fuel' l in
        let* r := _right_of n in
        let* r_res := _build_str fuel' r in
        Ok (build_str_node v l_res r_res)
  end.
End Display.

(** [pprint(bt)]; the result is the text handed to [print], or [None] when
    the call returns without printing. *)
Definition pprint (bt : arg) (h : store) : result (option string * store) :=
  match bt with
  | AObj ONull => Ok (None, h)
  | AList [] => Ok (None, h)
  | _ =>
      let* (root, h') :=
        match bt with
        | AList values => _build_tree values h
        | AObj (ORef a) =>
            let* (_, h') := _validate_tree (ORef a) h in
            Ok (ORef a, h')
        | AObj _ => Raise ExpectingListOrNode
        end in
      let* (_, _, _, lines) := @_build_str _ (store_ops h') (fuel_of h') root in
      Ok (Some (newline +:+ String.concat newline lines), h')
  end.

(* ================================================================== *)
(** * Vocabulary of the statements and proofs *)

(* ------------------------------------------------------------------ *)
(** ** Object graphs read as trees *)

(** The unfolding of the objects reachable from a reference: [Nil] for
    [None], [Other] for an object that is neither [None] nor a [Node]. *)
Inductive btree :=
| Nil
| Other
| Nd (v : option Z) (l r : btree).

#[export] Instance btree_ops : NodeOps btree := {|
  is_null t := match t with Nil => true | _ => false end;
  _is_node t := match t with Nd _ _ _ => true | _ => false end;
  _value_of t := match t with Nd v _ _ => Ok v | _ => Raise AttributeError end;
  _left_of t := match t with Nd _ l _ => Ok l | _ => Raise AttributeError end;
  _right_of t := match t with Nd _ _ r => Ok r | _ => Raise AttributeError end;
  null := Nil;
|}.

(** [repr h o t]: in store [h], the object graph under [o] unfolds to [t]. *)
Inductive repr (h : store) : obj → btree → Prop :=
| repr_null : repr h ONull Nil
| repr_other : repr h OOther Other
| repr_node a v ol or l r :
    h !! a = Some (mkNode v ol or) →
    repr h ol l → repr h or r →
    repr h (ORef a) (Nd v l r).

(** Every node carries a value and every child is a node or [None]. *)
Fixpoint valid (t : btree) : Prop :=
  match t with
  | Nil => True
  | Other => False
  | Nd v l r => v ≠ None ∧ valid l ∧ valid r
  end.

(** Number of levels. *)
Fixpoint levels (t : btree) : nat :=
  match t with
  | Nd _ l r => S (Nat.max (levels l) (levels r))
  | _ => O
  end.

(** Two calls agree: same exception, or related results. *)
Definition agree {A B} (R : A → B → Prop) (x : result A) (y : result B) : Prop :=
  match x, y with
  | Ok a, Ok b => R a b
  | Raise e, Raise e' => e = e'
  | Diverge, Diverge => True
  | _, _ => False
  end.

Definition rel_build (h : store) (s : list (option Z) * list obj * bool)
    (s' : list (option Z) * list btree * bool) : Prop :=
  s.1.1 = s'.1.1 ∧ Forall2 (repr h) s.1.2 s'.1.2 ∧ s.2 = s'.2.

Definition rel_scan (h : store) (s : scan * list obj) (s' : scan * list btree) : Prop :=
  s.1 = s'.1 ∧ Forall2 (repr h) s.2 s'.2.

(* ------------------------------------------------------------------ *)
(** ** What [_build_tree] leaves in the store *)

(** [nodes[i]], read as [None] out of range. *)
Definition nd (nodes : list obj) (i : nat) : obj := default ONull (nodes !! i).

(** [values[i]], read as [None] out of range. *)
Definition at0 (v : list (option Z)) (i : nat) : option Z := default None (v !! i).

(** Position [i] holds a value and its parent position holds none. *)
Definition orphan (v : list (option Z)) (i : nat) : Prop :=
  (1 ≤ i)%nat ∧ at0 v i ≠ None ∧ at0 v ((i + 1) / 2 - 1)%nat = None.

(** The state of the loop of [_build_tree] before the pass for [index = k],
    for the list [v] and the store [h0] the call started with. *)
Record build_inv (v : list (option Z)) (h0 : store)
    (k : nat) (nodes : list obj) (h : store) : Prop := {
  bi_len : length nodes = length v;
  bi_prefix : ∀ a n, h0 !! a = Some n → h !! a = Some n;
  bi_later : ∀ i, (k ≤ i)%nat → nd nodes i = ONull;
  bi_null : ∀ i, at0 v i = None → nd nodes i = ONull;
  bi_node : ∀ i x, (i < k)%nat → at0 v i = Some x →
    ∃ a, nd nodes i = ORef a ∧
         h !! a = Some (mkNode (Some x) (nd nodes (2 * i + 1)) (nd nodes (2 * i + 2)));
  bi_inj : ∀ i j a, nd nodes i = ORef a → nd nodes j = ORef a → i = j;
  bi_bound : ∀ i a, nd nodes i = ORef a → (length h0 ≤ a < length h)%nat;
  bi_other : ∀ i, nd nodes i ≠ OOther;
  bi_root : nd nodes 0 = ORef (length h0);
}.

(** A list [_build_tree] accepts: the first position holds a value and no
    position is an orphan. *)
Definition well_formed (v : list (option Z)) : Prop :=
  (v ≠ [] → at0 v 0 ≠ None) ∧ ∀ i, ¬ orphan v i.

(* ------------------------------------------------------------------ *)
(** ** Malformed lists *)

(** The parent position the specification computes, [floor((i+1)/2) - 1]. *)
Definition parent_position (i : nat) : Z := (Z.of_nat i + 1) / 2 - 1.

Definition holds_sentinel (values : list (option Z)) (p : Z) : Prop :=
  ∃ n : nat, Z.of_nat n = p ∧ values !! n = Some None.

(** Position 0 holds the sentinel, or the parent position of some position
    that holds a value holds the sentinel. *)
Definition malformed (values : list (option Z)) : Prop :=
  values !! 0%nat = Some None ∨
  ∃ i x, values !! i = Some (Some x) ∧ holds_sentinel values (parent_position i).

(** The [ValueError] with message 'Node missing at index ...'. *)
Definition malformed_tree_error (e : exn) : Prop := ∃ k, e = NodeMissing k.

(* ------------------------------------------------------------------ *)
(** ** The pass of [inspect] over well-shaped trees, in closed form *)

Definition kids (t : btree) : list btree :=
  match t with
  | Nd _ l r => (if is_null l then [] else [l]) ++ (if is_null r then [] else [r])
  | _ => []
  end.

Definition ok_child (c : btree) : Prop :=
  match c with
  | Nil => True
  | Nd (Some _) _ _ => True
  | _ => False
  end.

(** A node whose pass of the loop body raises nothing. *)
Definition proper (t : btree) : Prop :=
  match t with
  | Nd (Some _) l r => ok_child l ∧ ok_child r
  | _ => False
  end.

Definition child_le (x : Z) (c : btree) : bool :=
  match c with
  | Nd (Some y) _ _ => y <=? x
  | _ => true
  end.

Definition child_ge (x : Z) (c : btree) : bool :=
  match c with
  | Nd (Some y) _ _ => x <=? y
  | _ => true
  end.

(** The effect of one pass of the loop body on the running variables. *)
Definition scan_node (s : scan) (t : btree) : scan :=
  match t with
  | Nd (Some x) l r =>
      let pad := pad_step r (pad_step l (s_is_left_padded s, s_null_encountered s)) in
      let leaf := is_null l && is_null r in
      mkScan (s_is_bst s && child_le x l && child_ge x r)
        (s_is_descending s && child_le x l && child_le x r)
        (s_is_ascending s && child_ge x l && child_ge x r)
        pad.1 (ext_min x (s_min_value s)) (ext_max x (s_max_value s))
        (s_node_count s + 1)
        (if leaf then s_leaf_count s + 1 else s_leaf_count s)
        (if leaf && (s_min_leaf_depth s =? 0) then s_current_depth s
         else s_min_leaf_depth s)
        (s_current_depth s) pad.2
  | _ => s
  end.

Fixpoint scan_levels (n : nat) (s : scan) (ts : list btree) : scan :=
  match ts, n with
  | [], _ => s
  | _, O => s
  | _, S n' => scan_levels n' (fold_left scan_node ts (next_level s)) (flat_map kids ts)
  end.

(** Number of levels of a forest. *)
Definition forest_levels (ts : list btree) : nat := max_list_with levels ts.

(** A predicate on nodes, checked at every node of a tree. *)
Fixpoint deep (p : btree → bool) (t : btree) : bool :=
  match t with
  | Nd _ l r => p t && deep p l && deep p r
  | _ => true
  end.

Definition bst_ok (t : btree) : bool :=
  match t with
  | Nd (Some x) l r => child_le x l && child_ge x r
  | _ => true
  end.

Definition desc_ok (t : btree) : bool :=
  match t with
  | Nd (Some x) l r => child_le x l && child_le x r
  | _ => true
  end.

Definition asc_ok (t : btree) : bool :=
  match t with
  | Nd (Some x) l r => child_ge x l && child_ge x r
  | _ => true
  end.

(* ------------------------------------------------------------------ *)
(** ** [_is_balanced] and [_validate_tree] in closed form *)

Fixpoint balanced_depth (t : btree) : Z :=
  match t with
  | Nd _ l r =>
      let left := balanced_depth l in
      let right := balanced_depth r in
      if (left <? 0) || (right <? 0) || (1 <? Z.abs (left - right)) then -1
      else Z.max left right + 1
  | _ => 0
  end.

(** The objects a node hands to the next level of the walk. *)
Definition children (t : btree) : list btree :=
  match t with
  | Nd _ l r => [l; r]
  | _ => []
  end.

(** The objects under a forest in breadth-first order, [n] levels deep. *)
Fixpoint bfs (n : nat) (ts : list btree) : list btree :=
  match n with
  | O => ts
  | S n' => ts ++ bfs n' (flat_map children ts)
  end.

(** Breadth-first order of everything under [t]. *)
Definition walk (t : btree) : list btree := bfs (levels t) [t].

(** What [_validate_tree] rejects: an object that is neither a node nor
    [None], and a node whose value is [None]. *)
Definition offending (t : btree) : bool :=
  match t with
  | Other => true
  | Nd None _ _ => true
  | _ => false
  end.

Definition first_offender (t : btree) : option btree := find offending (walk t).

Definition verdict (o : option btree) : result unit :=
  match o with
  | None => Ok tt
  | Some Other => Raise InvalidNode
  | Some _ => Raise NullNodeValue
  end.

(* ------------------------------------------------------------------ *)
(** ** The traversals on the store, through [repr] *)

(** What [inspect] returns for the running variables [s] of its pass and
    the result [depth] of [_is_balanced]. *)
Definition properties_of (s : scan) (depth : Z) : properties :=
  mkProperties
    (s_current_depth s - s_min_leaf_depth s <? 2)
    (0 <=? depth)
    (s_is_descending s && s_is_left_padded s && (0 <=? depth))
    (s_is_ascending s && s_is_left_padded s && (0 <=? depth))
    (s_is_bst s)
    (s_current_depth s)
    (s_leaf_count s)
    (s_node_count s)
    (s_min_leaf_depth s)
    (s_current_depth s)
    (s_min_value s)
    (s_max_value s).

(* ------------------------------------------------------------------ *)
(** ** The tree [_build_tree] builds *)

(** The tree a list denotes under position [i], [n] levels deep. *)
Fixpoint subtree (n : nat) (v : list (option Z)) (i : nat) : btree :=
  match n with
  | O => Nil
  | S n' =>
      match at0 v i with
      | Some x => Nd (Some x) (subtree n' v (2 * i + 1)) (subtree n' v (2 * i + 2))
      | None => Nil
      end
  end.

Definition tree_of_list (v : list (option Z)) : btree := subtree (length v) v 0.

(* ------------------------------------------------------------------ *)
(** ** Search trees *)

(** Every value in the tree satisfies [P]. *)
Fixpoint all_values (P : Z → Prop) (t : btree) : Prop :=
  match t with
  | Nd v l r => (∀ x, v = Some x → P x) ∧ all_values P l ∧ all_values P r
  | _ => True
  end.

(** Every node's value is greater than every value in its left subtree and
    less than every value in its right subtree. *)
Fixpoint search_tree (t : btree) : Prop :=
  match t with
  | Nd v l r =>
      (∀ x, v = Some x → all_values (λ y, y < x) l ∧ all_values (λ y, x < y) r) ∧
      search_tree l ∧ search_tree r
  | _ => True
  end.

(** The same with ties allowed on the right, as [_bst_insert] places them. *)
Fixpoint search_tree_ties (t : btree) : Prop :=
  match t with
  | Nd v l r =>
      (∀ x, v = Some x → all_values (λ y, y < x) l ∧ all_values (λ y, x ≤ y) r) ∧
      search_tree_ties l ∧ search_tree_ties r
  | _ => True
  end.

(* ------------------------------------------------------------------ *)
(** ** Perfect trees *)

(** A tree whose [d] levels are all full. *)
Fixpoint perfect (d : nat) (t : btree) : Prop :=
  match d, t with
  | O, Nil => True
  | S d', Nd (Some _) l r => perfect d' l ∧ perfect d' r
  | _, _ => False
  end.

(** A list of [2^k - 1] values, none of them [None]. *)
Definition full (k : nat) (v : list (option Z)) : Prop :=
  length v = (2 ^ k - 1)%nat ∧ ∀ i, (i < length v)%nat → at0 v i ≠ None.

(* ------------------------------------------------------------------ *)
(** ** Heaps *)

(** The mirror image of [heap_ordered], for the negated values. *)
Definition heap_ordered_max (a : list Z) : Prop :=
  ∀ (k : nat) x y, a !! k = Some x →
    (a !! (2 * k + 1)%nat = Some y ∨ a !! (2 * k + 2)%nat = Some y) → y ≤ x.

(** What the module relies on from [heapq.heapify]: the list it leaves
    satisfies the heap invariant and holds the same items. *)
Definition heapify_contract (heapify : list Z → list Z) : Prop :=
  ∀ l, heap_ordered (heapify l) ∧ heapify l ≡ₚ l.

(* ------------------------------------------------------------------ *)
(** ** Trees that own their nodes *)

(** [shaped h o t fp]: the objects under [o] form the tree [t], every node
    carries a value, and each is reached along one path only; [fp] is the
    set of their addresses. *)
Inductive shaped (h : store) : obj → btree → gset nat → Prop :=
| shaped_null : shaped h ONull Nil ∅
| shaped_node a x ol or l r fl fr :
    h !! a = Some (mkNode (Some x) ol or) →
    shaped h ol l fl → shaped h or r fr →
    a ∉ fl ∪ fr → fl ## fr →
    shaped h (ORef a) (Nd (Some x) l r) ({[a]} ∪ fl ∪ fr).

(** [h'] is [h] with one more node, and differs from [h] inside [fp] only. *)
Definition frame (h h' : store) (fp : gset nat) : Prop :=
  length h' = S (length h) ∧
  ∀ b, (b < length h)%nat → b ∉ fp → h' !! b = h !! b.

(* ------------------------------------------------------------------ *)
(** ** Insertion, on trees *)

(** The tree after a descent that goes left at step [k], at a node of
    value [x], when [go_left k x], and hangs a new leaf of value [v] at the
    first free place. *)
Fixpoint insert_at (go_left : nat → Z → bool) (k : nat) (t : btree) (v : Z) : btree :=
  match t with
  | Nd (Some x) l r =>
      if go_left k x then Nd (Some x) (insert_at go_left (S k) l v) r
      else Nd (Some x) l (insert_at go_left (S k) r v)
  | _ => Nd (Some v) Nil Nil
  end.

(** The depth at which that descent hangs the leaf. *)
Fixpoint insert_depth (go_left : nat → Z → bool) (k : nat) (t : btree) : nat :=
  match t with
  | Nd (Some x) l r => S (insert_depth go_left (S k) (if go_left k x then l else r))
  | _ => O
  end.

(** Descend left if the value is less than the node's value, else right. *)
Definition bst_insert_tree (t : btree) (v : Z) : btree :=
  insert_at (λ _ x, v <? x) 0 t v.

(* ------------------------------------------------------------------ *)
(** ** [_build_list] in closed form *)

Definition root_value (t : btree) : option Z :=
  match t with
  | Nd v _ _ => v
  | _ => None
  end.

(** The left ([false]) or right ([true]) child; [None] has [None]s. *)
Definition child (t : btree) (d : bool) : btree :=
  match t with
  | Nd _ l r => if d then r else l
  | _ => Nil
  end.

(** What a node hands to the next level of [_build_list]. *)
Definition slots (t : btree) : list btree := [child t false; child t true].

Definition has_child (t : btree) : bool :=
  negb (is_null (child t false)) || negb (is_null (child t true)).

(** The values of [n + 1] levels of a forest, placeholders included. *)
Fixpoint level_values (n : nat) (ts : list btree) : list (option Z) :=
  map root_value ts ++
  match n with
  | O => []
  | S n' => level_values n' (flat_map slots ts)
  end.

(** The flat list of a valid tree. *)
Definition flat (t : btree) : list (option Z) :=
  trim (level_values (pred (levels t)) [t]).

(* ------------------------------------------------------------------ *)
(** ** Positions and paths *)

(** The position of the left ([false]) or right ([true]) child. *)
Definition step (i : nat) (d : bool) : nat :=
  if d then (2 * i + 2)%nat else (2 * i + 1)%nat.

(** The position a path of directions leads to from position [i]. *)
Fixpoint pos_from (i : nat) (p : list bool) : nat :=
  match p with
  | [] => i
  | d :: p' => pos_from (step i d) p'
  end.

(** The subtree a path leads to. *)
Fixpoint tsub (t : btree) (p : list bool) : btree :=
  match p with
  | [] => t
  | d :: p' => tsub (child t d) p'
  end.

Definition extend (p : list bool) : list (list bool) := [p ++ [false]; p ++ [true]].

(** The paths of [ps], then their extensions by one step, and so on [n]
    times: breadth-first order. *)
Fixpoint paths_from (n : nat) (ps : list (list bool)) : list (list bool) :=
  ps ++
  match n with
  | O => []
  | S n' => paths_from n' (flat_map extend ps)
  end.

(* ------------------------------------------------------------------ *)
(** ** Trimming *)

(** No trailing [None]. *)
Definition trimmed (v : list (option Z)) : Prop := last v ≠ Some None.

(* ------------------------------------------------------------------ *)
(** ** The first leaf met by [inspect] *)

Definition is_leaf (t : btree) : bool :=
  match t with
  | Nd _ Nil Nil => true
  | _ => false
  end.

(** Number of levels down to the nearest leaf. *)
Fixpoint shallow (t : btree) : nat :=
  match t with
  | Nd _ l r =>
      S (match l, r with
         | Nil, _ => shallow r
         | _, Nil => shallow l
         | _, _ => Nat.min (shallow l) (shallow r)
         end)
  | _ => O
  end.

(* ------------------------------------------------------------------ *)
(** ** Lists without [None] *)

Definition sentinel_free (v : list (option Z)) : Prop :=
  ∀ i, (i < length v)%nat → at0 v i ≠ None.

(** The tree a list denotes under position [i]. *)
Definition under (v : list (option Z)) (i : nat) : btree := subtree (length v) v i.

(* ------------------------------------------------------------------ *)
(** ** Counting nodes and values *)

(** Number of nodes. *)
Fixpoint count_nodes (t : btree) : nat :=
  match t with
  | Nd _ l r => S (count_nodes l + count_nodes r)
  | _ => O
  end.

(** Number of nodes without children. *)
Fixpoint count_leaves (t : btree) : nat :=
  match t with
  | Nd _ Nil Nil => 1
  | Nd _ l r => count_leaves l + count_leaves r
  | _ => O
  end.

(** The values held by the nodes of a tree, root first. *)
Fixpoint values_of (t : btree) : list Z :=
  match t with
  | Nd v l r => option_list v ++ values_of l ++ values_of r
  | _ => []
  end.

(** The values of a flat list, in order, the [None]s left out. *)
Definition values_in (v : list (option Z)) : list Z := omap id v.

(** [m] is the least of the values that satisfy [seen]; [PosInf] when
    there is none. *)
Definition least_of (seen : Z → Prop) (m : ext) : Prop :=
  match m with
  | Fin lo => seen lo ∧ ∀ y, seen y → lo ≤ y
  | PosInf => ∀ y, ¬ seen y
  | NegInf => False
  end.

(** [m] is the greatest of the values that satisfy [seen]; [NegInf] when
    there is none. *)
Definition greatest_of (seen : Z → Prop) (m : ext) : Prop :=
  match m with
  | Fin hi => seen hi ∧ ∀ y, seen y → y ≤ hi
  | NegInf => ∀ y, ¬ seen y
  | PosInf => False
  end.

(** At every node the two subtrees differ by at most one level. *)
Fixpoint level_balanced (t : btree) : bool :=
  match t with
  | Nd _ l r =>
      level_balanced l && level_balanced r &&
      (Z.abs (Z.of_nat (levels l) - Z.of_nat (levels r)) <=? 1)
  | _ => true
  end.

(* ------------------------------------------------------------------ *)
(** ** [_build_str] in closed form *)

Fixpoint render (t : btree) : Z * Z * Z * list string :=
  match t with
  | Nd v l r => build_str_node v (render l) (render r)
  | _ => (0, 0, 0, [])
  end.

(** The width of the block of a tree: the columns of the root's value,
    and for each child the columns of its block and one more. *)
Fixpoint width (t : btree) : Z :=
  match t with
  | Nd v l r =>
      (if is_null l then 0 else width l + 1) + len (str v) +
      (if is_null r then 0 else width r + 1)
  | _ => 0
  end.

(* ================================================================== *)
(** * Lemmas and theorems *)

(* ------------------------------------------------------------------ *)
(** ** Object graphs read as trees *)

Lemma agree_eq {A} (x y : result A) : agree eq x y → x = y.
Proof. destruct x, y; simpl; intros; subst; try done. Qed.

Lemma agree_bind {A B A' B'} (R : A → B → Prop) (R' : A' → B' → Prop)
    x y (f : A → result A') (g : B → result B') :
  agree R x y → (∀ a b, R a b → agree R' (f a) (g b)) →
  agree R' (bind x f) (bind y g).
Proof. destruct x, y; simpl; intros Hxy Hfg; try done. by apply Hfg. Qed.

Lemma agree_for_each {A B S S'} (RA : A → B → Prop) (RS : S → S' → Prop)
    (f : S → A → result S) (g : S' → B → result S') xs ys :
  (∀ s s' x y, RS s s' → RA x y → agree RS (f s x) (g s' y)) →
  Forall2 RA xs ys → ∀ s s', RS s s' →
  agree RS (for_each f xs s) (for_each g ys s').
Proof.
  intros Hfg Hxs. induction Hxs as [|x y xs ys Hxy _ IH]; intros s s' Hs; simpl.
  - done.
  - eapply agree_bind; [by apply Hfg|]. intros a b Hab. by apply IH.
Qed.

Section Simulation.

Variable h : store.

Lemma repr_is_null o t : repr h o t → @is_null _ (store_ops h) o = is_null t.
Proof. by destruct 1. Qed.

Lemma repr_is_node o t : repr h o t → @_is_node _ (store_ops h) o = _is_node t.
Proof. by destruct 1. Qed.

Lemma repr_value_of o t :
  repr h o t → agree eq (@_value_of _ (store_ops h) o) (_value_of t).
Proof. destruct 1 as [| |a v ol or l r Ha Hl Hr]; simpl; try done. by rewrite Ha. Qed.

Lemma repr_left_of o t :
  repr h o t → agree (repr h) (@_left_of _ (store_ops h) o) (_left_of t).
Proof. destruct 1 as [| |a v ol or l r Ha Hl Hr]; simpl; try done. by rewrite Ha. Qed.

Lemma repr_right_of o t :
  repr h o t → agree (repr h) (@_right_of _ (store_ops h) o) (_right_of t).
Proof. destruct 1 as [| |a v ol or l r Ha Hl Hr]; simpl; try done. by rewrite Ha. Qed.

Lemma agree_int_of v : agree eq (int_of v) (int_of v).
Proof. by destruct v. Qed.

Lemma is_balanced_repr fuel : ∀ o t, repr h o t →
  @_is_balanced _ (store_ops h) fuel o = _is_balanced fuel t.
Proof.
  induction fuel as [|fuel IH]; intros o t Hr; [done|].
  apply agree_eq. cbn [_is_balanced].
  rewrite (repr_is_null _ _ Hr). destruct (is_null t); [done|].
  eapply agree_bind; [by apply repr_left_of|]. intros ol l Hl.
  rewrite (IH _ _ Hl).
  eapply (agree_bind eq); [by destruct (_is_balanced fuel l)|]. intros ? dl ->.
  eapply agree_bind; [by apply repr_right_of|]. intros or r Hr'.
  rewrite (IH _ _ Hr').
  eapply (agree_bind eq); [by destruct (_is_balanced fuel r)|]. intros ? dr ->.
  by destruct (_ || _).
Qed.

Lemma agree_refl {A} (x : result A) : agree eq x x.
Proof. by destruct x. Qed.

Lemma build_list_body_repr s s' o t :
  (rel_build h) s s' → repr h o t →
  agree (rel_build h) (@build_list_body _ (store_ops h) s o) (build_list_body s' t).
Proof.
  destruct s as [[res nn] b], s' as [[res' nn'] b'].
  intros (Hres & Hnn & Hb) Hr; simpl in Hres, Hnn, Hb; subst.
  unfold build_list_body. rewrite (repr_is_null _ _ Hr).
  destruct (is_null t).
  { split_and!; simpl; [done| |done].
    apply Forall2_app; [done|]. repeat constructor. }
  eapply agree_bind; [by apply repr_value_of|]. intros ? v ->.
  eapply agree_bind; [by apply repr_left_of|]. intros ol l Hl.
  eapply agree_bind; [by apply repr_right_of|]. intros or r Hr'.
  rewrite (repr_is_null _ _ Hl), (repr_is_null _ _ Hr').
  split_and!; simpl; [done| |done].
  apply Forall2_app; [done|]. by repeat constructor.
Qed.

Lemma build_list_levels_repr fuel : ∀ res os ts, Forall2 (repr h) os ts →
  @build_list_levels _ (store_ops h) fuel res os = build_list_levels fuel res ts.
Proof.
  induction fuel as [|fuel IH]; intros res os ts Hos; [done|].
  apply agree_eq. cbn [build_list_levels].
  eapply agree_bind.
  { eapply (agree_for_each (repr h) (rel_build h)); [|done|].
    - intros; by apply build_list_body_repr.
    - split_and!; simpl; [done|constructor|done]. }
  intros [[res1 nn1] b1] [[res2 nn2] b2] (Hres & Hnn & Hb).
  simpl in Hres, Hnn, Hb; subst.
  destruct b2; [|done]. rewrite (IH _ _ _ Hnn). apply agree_refl.
Qed.

Lemma build_list_repr fuel o t : repr h o t →
  @build_list _ (store_ops h) fuel o = build_list fuel t.
Proof.
  intros Hr. unfold build_list.
  rewrite (build_list_levels_repr fuel [] [o] [t]); [done|].
  by repeat constructor.
Qed.

Lemma validate_body_repr os ts o t :
  Forall2 (repr h) os ts → repr h o t →
  agree (Forall2 (repr h)) (@validate_body _ (store_ops h) os o)
    (validate_body ts t).
Proof.
  intros Hos Hr. unfold validate_body.
  rewrite (repr_is_node _ _ Hr), (repr_is_null _ _ Hr).
  destruct (_is_node t).
  - eapply agree_bind; [by apply repr_value_of|]. intros ? v ->.
    destruct v; [|done].
    eapply agree_bind; [by apply repr_left_of|]. intros ol l Hl.
    eapply agree_bind; [by apply repr_right_of|]. intros or r Hr'.
    apply Forall2_app; [done|]. by repeat constructor.
  - by destruct (is_null t).
Qed.

Lemma validate_levels_repr fuel : ∀ os ts, Forall2 (repr h) os ts →
  @validate_levels _ (store_ops h) fuel os = validate_levels fuel ts.
Proof.
  induction fuel as [|fuel IH]; intros os ts Hos.
  { by destruct Hos. }
  destruct Hos as [|o t os ts Ho Hos]; [done|].
  apply agree_eq. cbn [validate_levels].
  eapply agree_bind.
  { eapply (agree_for_each (repr h) (Forall2 (repr h))).
    - intros; by apply validate_body_repr.
    - by constructor.
    - constructor. }
  intros nn nn' Hnn. rewrite (IH _ _ Hnn). apply agree_refl.
Qed.

Lemma validate_tree_repr fuel o t : repr h o t →
  @validate_tree _ (store_ops h) fuel o = validate_tree fuel t.
Proof.
  intros Hr. apply validate_levels_repr. by repeat constructor.
Qed.

Lemma pad_step_repr o t s :
  repr h o t → @pad_step _ (store_ops h) o s = pad_step t s.
Proof. intros Hr. unfold pad_step. by rewrite (repr_is_null _ _ Hr). Qed.

Lemma inspect_body_repr s s' o t :
  (rel_scan h) s s' → repr h o t →
  agree (rel_scan h) (@inspect_body _ (store_ops h) s o) (inspect_body s' t).
Proof.
  destruct s as [s nn], s' as [s' nn'].
  intros [Hs Hnn] Hr; simpl in Hs, Hnn; subst s'.
  unfold inspect_body.
  eapply agree_bind; [by apply repr_value_of|]. intros ? v ->.
  eapply agree_bind; [by apply agree_int_of|]. intros ? x ->.
  eapply agree_bind; [by apply repr_left_of|]. intros ol l Hl.
  eapply agree_bind; [by apply repr_right_of|]. intros or r Hr'.
  rewrite (pad_step_repr _ _ _ Hl), (pad_step_repr _ _ _ Hr').
  rewrite (repr_is_null _ _ Hl), (repr_is_null _ _ Hr').
  destruct (pad_step r _) as [lp ne].
  eapply (agree_bind (λ a b, a.1 = b.1 ∧ Forall2 (repr h) a.2 b.2)).
  { destruct (is_null l); simpl; [done|].
    eapply agree_bind; [by apply repr_value_of|]. intros ? lv ->.
    eapply agree_bind; [by apply agree_int_of|]. intros ? lx ->.
    split; [done|]. apply Forall2_app; [done|]. by repeat constructor. }
  intros [[[b1 d1] a1] n1] [[[b2 d2] a2] n2] [Hf Hn]; simpl in Hf, Hn.
  injection Hf as -> -> ->.
  eapply (agree_bind (λ a b, a.1 = b.1 ∧ Forall2 (repr h) a.2 b.2)).
  { destruct (is_null r); simpl; [done|].
    eapply agree_bind; [by apply repr_value_of|]. intros ? rv ->.
    eapply agree_bind; [by apply agree_int_of|]. intros ? rx ->.
    split; [done|]. apply Forall2_app; [done|]. by repeat constructor. }
  intros [[[b3 d3] a3] n3] [[[b4 d4] a4] n4] [Hf Hn']; simpl in Hf, Hn'.
  injection Hf as -> -> ->.
  by split.
Qed.

Lemma inspect_levels_repr fuel : ∀ s os ts, Forall2 (repr h) os ts →
  @inspect_levels _ (store_ops h) fuel s os = inspect_levels fuel s ts.
Proof.
  induction fuel as [|fuel IH]; intros s os ts Hos.
  { by destruct Hos. }
  destruct Hos as [|o t os ts Ho Hos]; [done|].
  apply agree_eq. cbn [inspect_levels].
  eapply agree_bind.
  { eapply (agree_for_each (repr h) (rel_scan h)).
    - intros; by apply inspect_body_repr.
    - by constructor.
    - split; [done|constructor]. }
  intros [s1 n1] [s2 n2] [Hs Hn]; simpl in Hs, Hn; subst.
  rewrite (IH _ _ _ Hn). apply agree_refl.
Qed.

Lemma inspect_tree_repr fuel o t : repr h o t →
  @inspect_tree _ (store_ops h) fuel o = inspect_tree fuel t.
Proof.
  intros Hr. unfold inspect_tree.
  rewrite (inspect_levels_repr fuel scan_init [o] [t]) by (by repeat constructor).
  by rewrite (is_balanced_repr fuel o t Hr).
Qed.

End Simulation.

(* ------------------------------------------------------------------ *)
(** ** What [_build_tree] leaves in the store *)

Lemma nd_insert nodes k c i :
  (k < length nodes)%nat →
  nd (<[k := c]> nodes) i = if decide (i = k) then c else nd nodes i.
Proof.
  intros Hk. unfold nd. case_decide as Hi.
  - subst. by rewrite list_lookup_insert_eq.
  - by rewrite list_lookup_insert_ne.
Qed.

Lemma nd_lookup nodes i : (i < length nodes)%nat → nodes !! i = Some (nd nodes i).
Proof.
  intros Hi. unfold nd. destruct (lookup_lt_is_Some_2 nodes i Hi) as [o ->]. done.
Qed.

Lemma at0_Some v i x : at0 v i = Some x ↔ v !! i = Some (Some x).
Proof.
  unfold at0. destruct (v !! i) as [[y|]|]; simpl; split; congruence.
Qed.

Lemma at0_ge v i : (length v ≤ i)%nat → at0 v i = None.
Proof. intros Hi. unfold at0. by rewrite lookup_ge_None_2. Qed.

Lemma at0_lt v i : at0 v i ≠ None → (i < length v)%nat.
Proof.
  intros Hi. destruct (decide (i < length v)%nat); [done|].
  exfalso. apply Hi, at0_ge. lia.
Qed.

Lemma parent_odd k : Nat.odd k = true → k = (2 * ((k + 1) / 2 - 1) + 1)%nat.
Proof.
  intros Hk. apply Nat.odd_spec in Hk as [m ->].
  replace (2 * m + 1 + 1)%nat with ((m + 1) * 2)%nat by lia.
  rewrite Nat.div_mul by done. lia.
Qed.

Lemma parent_even k :
  (1 ≤ k)%nat → Nat.odd k = false → k = (2 * ((k + 1) / 2 - 1) + 2)%nat.
Proof.
  intros Hk1 Hk. rewrite <- Nat.negb_even in Hk. apply negb_false_iff in Hk.
  apply Nat.even_spec in Hk as [m ->].
  replace (2 * m + 1)%nat with (1 + m * 2)%nat by lia.
  rewrite Nat.div_add by done. simpl. lia.
Qed.

Lemma parent_lt k : (1 ≤ k)%nat → ((k + 1) / 2 - 1 < k)%nat.
Proof.
  intros Hk. destruct (Nat.odd k) eqn:Ho.
  - pose proof (parent_odd k Ho). lia.
  - pose proof (parent_even k Hk Ho). lia.
Qed.

Section BuildTree.

Variable v : list (option Z).

Variable h0 : store.

Lemma build_inv_skip k nodes h :
  at0 v k = None → build_inv v h0 k nodes h → build_inv v h0 (S k) nodes h.
Proof.
  intros Hk [H1 H2 H3 H4 H5 H6 H7 H8 H9]. split; try done.
  - intros i Hi. apply H3. lia.
  - intros i x Hi Hx. apply H5; [|done].
    destruct (decide (i = k)) as [->|]; [congruence|lia].
Qed.

Lemma build_inv_attach k nodes h x y ap :
  (1 ≤ k)%nat → at0 v k = Some x →
  at0 v ((k + 1) / 2 - 1)%nat = Some y →
  nd nodes ((k + 1) / 2 - 1)%nat = ORef ap →
  build_inv v h0 k nodes h →
  let n := mkNode (Some y) (nd nodes (2 * ((k + 1) / 2 - 1) + 1))
             (nd nodes (2 * ((k + 1) / 2 - 1) + 2)) in
  let c := ORef (length h) in
  let h1 := h ++ [mkNode (Some x) ONull ONull] in
  build_inv v h0 (S k) (<[k := c]> nodes)
    (<[ap := if Nat.odd k then mkNode (Some y) c (right n)
             else mkNode (Some y) (left n) c]> h1).
Proof.
  intros Hk1 Hx Hy Hap [H1 H2 H3 H4 H5 H6 H7 H8 H9].
  set (p := ((k + 1) / 2 - 1)%nat) in *.
  assert (Hpk : (p < k)%nat) by by apply parent_lt.
  assert (Hklen : (k < length nodes)%nat).
  { rewrite H1. apply at0_lt. congruence. }
  pose proof (H7 _ _ Hap) as Hapb.
  assert (Hchild : ∀ i, i ≠ p → (2 * i + 1)%nat ≠ k ∧ (2 * i + 2)%nat ≠ k).
  { intros i Hi. destruct (Nat.odd k) eqn:Ho.
    - pose proof (parent_odd k Ho). fold p in H. lia.
    - pose proof (parent_even k Hk1 Ho). fold p in H. lia. }
  intros n c h1. split.
  - by rewrite length_insert.
  - intros a m Ha. pose proof (lookup_lt_Some _ _ _ Ha).
    rewrite list_lookup_insert_ne by lia.
    unfold h1. rewrite lookup_app_l by (apply H2 in Ha; by eapply lookup_lt_Some).
    by apply H2.
  - intros i Hi. rewrite nd_insert by done. case_decide; [lia|]. apply H3. lia.
  - intros i Hi. rewrite nd_insert by done. case_decide; [congruence|]. by apply H4.
  - intros i z Hi Hz. rewrite !nd_insert by done.
    destruct (decide (i = k)) as [->|Hik].
    + exists (length h). split; [done|].
      rewrite list_lookup_insert_ne by lia.
      unfold h1. rewrite lookup_app_r by lia. rewrite Nat.sub_diag. simpl.
      repeat case_decide; try lia.
      rewrite !H3 by lia. congruence.
    + destruct (H5 i z ltac:(lia) Hz) as (a & Ha & Hha).
      exists a. split; [done|].
      pose proof (H7 _ _ Ha) as Hab.
      destruct (decide (i = p)) as [->|Hip].
      * assert (a = ap) as -> by congruence.
        rewrite list_lookup_insert_eq by (unfold h1; rewrite length_app; lia).
        assert (z = y) as -> by congruence.
        destruct (Nat.odd k) eqn:Ho.
        -- pose proof (parent_odd k Ho) as Hkp. fold p in Hkp.
           repeat case_decide; try lia. done.
        -- pose proof (parent_even k Hk1 Ho) as Hkp. fold p in Hkp.
           repeat case_decide; try lia. done.
      * assert (a ≠ ap) by (intros ->; eauto).
        rewrite list_lookup_insert_ne by done.
        unfold h1. rewrite lookup_app_l by lia.
        destruct (Hchild i Hip). repeat case_decide; try lia. done.
  - intros i j a. rewrite !nd_insert by done.
    repeat case_decide; subst; try done.
    + intros Hc Hj. injection Hc as <-. apply H7 in Hj. lia.
    + intros Hi Hc. injection Hc as <-. apply H7 in Hi. lia.
    + apply H6.
  - intros i a. rewrite nd_insert by done. rewrite length_insert.
    unfold h1. rewrite length_app. simpl.
    case_decide.
    + injection 1 as <-. lia.
    + intros Hi. apply H7 in Hi. lia.
  - intros i. rewrite nd_insert by done. case_decide; [done|]. apply H8.
  - rewrite nd_insert by done. case_decide; [lia|done].
Qed.

Lemma build_tree_body_spec k nodes h :
  (1 ≤ k < length v)%nat → build_inv v h0 k nodes h →
  match build_tree_body v (nodes, h) k with
  | Ok (nodes', h') => build_inv v h0 (S k) nodes' h' ∧ ¬ orphan v k
  | Raise e => orphan v k ∧ e = NodeMissing ((k + 1) / 2 - 1)
  | Diverge => False
  end.
Proof.
  intros [Hk1 Hk] Hinv. unfold build_tree_body.
  destruct (lookup_lt_is_Some_2 v k Hk) as [vk Hvk]. rewrite Hvk.
  destruct vk as [x|].
  2:{ split; [apply build_inv_skip; [|done]|].
      - unfold at0. by rewrite Hvk.
      - intros (_ & Hne & _). apply Hne. unfold at0. by rewrite Hvk. }
  assert (Hx : at0 v k = Some x) by by apply at0_Some.
  set (p := ((k + 1) / 2 - 1)%nat).
  assert (Hpk : (p < k)%nat) by by apply parent_lt.
  rewrite (nd_lookup nodes p) by (rewrite (bi_len _ _ _ _ _ Hinv); lia).
  destruct (at0 v p) as [y|] eqn:Hy.
  - destruct (bi_node _ _ _ _ _ Hinv p y Hpk Hy) as (ap & Hap & Hhap).
    rewrite Hap. simpl.
    pose proof (build_inv_attach k nodes h x y ap Hk1 Hx Hy Hap Hinv) as Hnew.
    simpl in Hnew. fold p in Hnew.
    pose proof (bi_bound _ _ _ _ _ Hinv _ _ Hap) as Hb.
    assert (Hl : (h ++ [mkNode (Some x) ONull ONull]) !! ap
                 = Some (mkNode (Some y) (nd nodes (2 * p + 1)) (nd nodes (2 * p + 2)))).
    { rewrite lookup_app_l by lia. done. }
    destruct (Nat.odd k); simpl; rewrite Hl; simpl.
    + split; [done|]. intros (_ & _ & Hn). fold p in Hn. congruence.
    + split; [done|]. intros (_ & _ & Hn). fold p in Hn. congruence.
  - rewrite (bi_null _ _ _ _ _ Hinv p Hy). simpl.
    split; [|done]. split_and!; [done|congruence|done].
Qed.

Lemma build_tree_loop_spec n : ∀ k nodes h,
  (1 ≤ k)%nat → (k + n = length v)%nat → build_inv v h0 k nodes h →
  match for_each (build_tree_body v) (seq k n) (nodes, h) with
  | Ok (nodes', h') =>
      build_inv v h0 (length v) nodes' h' ∧ ∀ i, (k ≤ i)%nat → ¬ orphan v i
  | Raise e =>
      ∃ i, (k ≤ i)%nat ∧ orphan v i ∧ e = NodeMissing ((i + 1) / 2 - 1)
  | Diverge => False
  end.
Proof.
  induction n as [|n IH]; intros k nodes h Hk1 Hkn Hinv; cbn [seq for_each].
  - replace (length v) with k by lia. split; [done|].
    intros i Hi (_ & Hne & _). apply at0_lt in Hne. lia.
  - pose proof (build_tree_body_spec k nodes h ltac:(lia) Hinv) as Hstep.
    destruct (build_tree_body v (nodes, h) k) as [[nodes' h']|e|]; cbn [bind].
    + destruct Hstep as [Hinv' Hno].
      specialize (IH (S k) nodes' h' ltac:(lia) ltac:(lia) Hinv').
      destruct (for_each _ _ _) as [[nodes'' h'']|e|]; [| |done].
      * destruct IH as [Hfin Hnone]. split; [done|].
        intros i Hi. destruct (decide (i = k)) as [->|]; [done|].
        apply Hnone. lia.
      * destruct IH as (i & Hi & Hor & ->). exists i. split_and!; [lia|done..].
    + destruct Hstep as [Hor ->]. exists k. done.
    + done.
Qed.

Lemma build_inv_init x rest :
  v = Some x :: rest →
  build_inv v h0 1 (<[0%nat := ORef (length h0)]> (replicate (length v) ONull))
    (h0 ++ [mkNode (Some x) ONull ONull]).
Proof.
  intros Hv.
  assert (Hlen : (0 < length (replicate (length v) ONull))%nat).
  { rewrite length_replicate, Hv. simpl. lia. }
  assert (Hrep : ∀ i, nd (replicate (length v) ONull) i = ONull).
  { intros i. unfold nd. destruct (replicate _ _ !! i) eqn:E; [|done].
    apply lookup_replicate in E as [-> _]. done. }
  split.
  - by rewrite length_insert, length_replicate.
  - intros a n Ha. rewrite lookup_app_l; [done|]. by eapply lookup_lt_Some.
  - intros i Hi. rewrite nd_insert by done. case_decide; [lia|]. apply Hrep.
  - intros i Hi. rewrite nd_insert by done. case_decide; [|apply Hrep].
    subst i. rewrite Hv in Hi. done.
  - intros i y Hi Hy. assert (i = 0%nat) as -> by lia.
    rewrite Hv in Hy. unfold at0 in Hy. simpl in Hy. injection Hy as <-.
    exists (length h0). rewrite !nd_insert by done. simpl.
    split; [done|]. rewrite lookup_app_r by lia. rewrite Nat.sub_diag. simpl.
    by rewrite !Hrep.
  - intros i j a. rewrite !nd_insert by done. rewrite !Hrep.
    repeat case_decide; try done. congruence.
  - intros i a. rewrite nd_insert by done. rewrite Hrep, length_app. simpl.
    case_decide; [|done]. injection 1 as <-. lia.
  - intros i. rewrite nd_insert by done. rewrite Hrep. by case_decide.
  - by rewrite nd_insert by done.
Qed.

End BuildTree.

Lemma build_tree_spec v h0 :
  match _build_tree v h0 with
  | Ok (root, h') =>
      well_formed v ∧
      ((v = [] ∧ root = ONull ∧ h' = h0) ∨
       (v ≠ [] ∧ root = ORef (length h0) ∧
        ∃ nodes, build_inv v h0 (length v) nodes h'))
  | Raise e =>
      ¬ well_formed v ∧
      ((v !! 0%nat = Some None ∧ e = NodeMissing 0) ∨
       (∃ i, orphan v i ∧ e = NodeMissing ((i + 1) / 2 - 1)))
  | Diverge => False
  end.
Proof.
  unfold _build_tree. destruct v as [|[x|] rest] eqn:Hv.
  - split; [|by left]. split; [congruence|].
    intros i (_ & Hne & _). apply at0_lt in Hne. simpl in Hne. lia.
  - rewrite <- Hv.
    pose proof (build_inv_init v h0 x rest Hv) as Hinit.
    assert (Hlen : (1 + (length v - 1) = length v)%nat).
    { rewrite Hv. simpl. lia. }
    pose proof (build_tree_loop_spec v h0 (length v - 1) 1 _ _ ltac:(lia) Hlen Hinit)
      as Hloop.
    cbn [_new_node].
    destruct (for_each _ _ _) as [[nodes' h']|e|]; cbn [bind]; [| |done].
    + destruct Hloop as [Hfin Hnone]. split.
      * split.
        -- intros _. rewrite Hv. done.
        -- intros i Hor. apply (Hnone i); [|done]. by destruct Hor.
      * right. split; [congruence|]. split; [done|]. by exists nodes'.
    + destruct Hloop as (i & Hi & Hor & ->). split.
      * intros [_ Hnone]. by apply (Hnone i).
      * right. by exists i.
  - split; [|by left].
    intros [Hne _]. by apply Hne.
Qed.

(* ------------------------------------------------------------------ *)
(** ** Malformed lists *)

Lemma parent_position_nat i :
  (1 ≤ i)%nat → Z.of_nat ((i + 1) / 2 - 1) = parent_position i.
Proof.
  intros Hi. unfold parent_position.
  set (p := ((i + 1) / 2 - 1)%nat).
  destruct (Nat.odd i) eqn:Ho.
  - pose proof (parent_odd i Ho) as Hp. fold p in Hp.
    Z.div_mod_to_equations. lia.
  - pose proof (parent_even i Hi Ho) as Hp. fold p in Hp.
    Z.div_mod_to_equations. lia.
Qed.

Lemma orphan_malformed v i : orphan v i → malformed v.
Proof.
  intros (Hi & Hne & Hp). right.
  destruct (at0 v i) as [x|] eqn:Hx; [|done].
  exists i, x. split; [by apply at0_Some|].
  exists ((i + 1) / 2 - 1)%nat. split; [by apply parent_position_nat|].
  pose proof (parent_lt i Hi) as Hlt.
  assert (Hil : (i < length v)%nat) by (apply at0_lt; congruence).
  destruct (lookup_lt_is_Some_2 v ((i + 1) / 2 - 1)%nat ltac:(lia)) as [y Hy].
  unfold at0 in Hp. rewrite Hy in Hp. simpl in Hp. by subst.
Qed.

Lemma malformed_not_well_formed v : malformed v → ¬ well_formed v.
Proof.
  intros [H0|(i & x & Hi & n & Hn & Hp)] [Hroot Hnone].
  - apply Hroot.
    + intros ->. done.
    + unfold at0. by rewrite H0.
  - apply (Hnone i).
    assert (Hi1 : (1 ≤ i)%nat).
    { destruct i; [|lia]. change (parent_position 0) with (-1) in Hn. lia. }
    rewrite <- (parent_position_nat i Hi1) in Hn. apply Nat2Z.inj in Hn. subst n.
    split_and!; [done| |].
    + apply at0_Some in Hi. congruence.
    + unfold at0. by rewrite Hp.
Qed.

(** C4: [_build_tree] raises 'Node missing at index ...' exactly on the
    malformed lists, returns on all others, and raises it on
    [[None, None, 5]]. *)
Theorem build_tree_raises_iff_malformed (values : list (option Z)) (h : store) :
  ((∃ e, _build_tree values h = Raise e) ↔ malformed values) ∧
  (∀ e, _build_tree values h = Raise e → malformed_tree_error e) ∧
  (¬ malformed values → ∃ root h', _build_tree values h = Ok (root, h')) ∧
  _build_tree [None; None; Some 5] h = Raise (NodeMissing 0).
Proof.
  pose proof (build_tree_spec values h) as Hspec.
  assert (Hcase : (∃ e, _build_tree values h = Raise e ∧ malformed values
                        ∧ malformed_tree_error e)
                  ∨ (∃ root h', _build_tree values h = Ok (root, h')
                                ∧ ¬ malformed values)).
  { destruct (_build_tree values h) as [[root h']|e|]; [| |done].
    - right. exists root, h'. split; [done|].
      intros Hm. by apply (malformed_not_well_formed _ Hm), Hspec.
    - left. exists e. split; [done|].
      destruct Hspec as [_ [[H0 ->]|(i & Hor & ->)]].
      + split; [by left|by eexists].
      + split; [by eapply orphan_malformed|by eexists]. }
  split_and!.
  - split.
    + intros [e He]. destruct Hcase as [(e' & _ & Hm & _)|(r & h' & Hok & _)]; [done|].
      congruence.
    + intros Hm. destruct Hcase as [(e' & He & _)|(r & h' & _ & Hn)]; [|done].
      by exists e'.
  - intros e He. destruct Hcase as [(e' & He' & _ & Hm)|(r & h' & Hok & _)].
    + congruence.
    + congruence.
  - intros Hn. destruct Hcase as [(e' & _ & Hm & _)|(r & h' & Hok & _)]; [done|].
    by exists r, h'.
  - done.
Qed.

(* ------------------------------------------------------------------ *)
(** ** Facts about [repr] *)

Lemma repr_inj h o t t' : repr h o t → repr h o t' → t = t'.
Proof.
  intros Hr. revert t'. induction Hr as [| |a v ol or l r Ha Hl IHl Hr IHr];
    intros t' Hr'; inversion Hr'; subst; try done.
  assert (mkNode v ol or = mkNode v0 ol0 or0) as Heq by congruence.
  injection Heq as <- <- <-. f_equal; eauto.
Qed.

Lemma repr_weaken h h' o t :
  (∀ a n, h !! a = Some n → h' !! a = Some n) → repr h o t → repr h' o t.
Proof.
  intros Hsub. induction 1; econstructor; eauto.
Qed.

(** A chain of [levels t] distinct addresses hangs under a reference that
    unfolds to [t]; hence [levels t] is at most the size of the store. *)
Lemma repr_chain h o t :
  repr h o t →
  ∃ path : list nat,
    length path = levels t ∧ NoDup path ∧
    Forall (λ a, (a < length h)%nat ∧
                 ∃ t', repr h (ORef a) t' ∧ (levels t' ≤ levels t)%nat) path.
Proof.
  induction 1 as [| |a v ol or l r Ha Hl IHl Hr IHr].
  - exists []. split_and!; [done|constructor|constructor].
  - exists []. split_and!; [done|constructor|constructor].
  - assert (Hself : repr h (ORef a) (Nd v l r)) by (econstructor; eauto).
    assert (Hext : ∀ s, levels s = Nat.max (levels l) (levels r) →
              (∃ path, length path = levels s ∧ NoDup path ∧
                 Forall (λ a, (a < length h)%nat ∧
                   ∃ t', repr h (ORef a) t' ∧ (levels t' ≤ levels s)%nat) path) →
              ∃ path, length path = levels (Nd v l r) ∧ NoDup path ∧
                 Forall (λ a, (a < length h)%nat ∧
                   ∃ t', repr h (ORef a) t' ∧ (levels t' ≤ levels (Nd v l r))%nat) path).
    { intros s Hmax (path & Hlen & Hnd & Hall).
      exists (a :: path). split_and!.
      - simpl. lia.
      - constructor; [|done]. intros Hin.
        rewrite list.Forall_forall in Hall.
        destruct (Hall _ Hin) as (_ & t' & Ht' & Hle).
        pose proof (repr_inj _ _ _ _ Hself Ht') as <-. simpl in Hle. lia.
      - constructor.
        + split; [by eapply lookup_lt_Some|]. by exists (Nd v l r).
        + eapply list.Forall_impl; [done|]. simpl.
          intros b (Hb & t' & Ht' & Hle). split; [done|]. exists t'. split; [done|lia]. }
    destruct (decide (levels r ≤ levels l)%nat).
    + apply (Hext l); [lia|done].
    + apply (Hext r); [lia|done].
Qed.

Lemma repr_levels h o t : repr h o t → (levels t ≤ length h)%nat.
Proof.
  intros Hr. destruct (repr_chain h o t Hr) as (path & <- & Hnd & Hall).
  assert (Hsub : path ⊆+ seq 0 (length h)).
  { apply NoDup_submseteq; [done|]. intros a Ha.
    rewrite list.Forall_forall in Hall. destruct (Hall a Ha) as [Hlt _].
    apply elem_of_seq. lia. }
  apply submseteq_length in Hsub. by rewrite length_seq in Hsub.
Qed.

(* ------------------------------------------------------------------ *)
(** ** The pass of [inspect] over well-shaped trees, in closed form *)

Lemma inspect_body_proper s nn t :
  proper t → inspect_body (s, nn) t = Ok (scan_node s t, nn ++ kids t).
Proof.
  destruct t as [| |[x|] l r]; try done. intros [Hl Hr].
  unfold inspect_body. cbn [_value_of _left_of _right_of btree_ops bind int_of].
  unfold scan_node. destruct (pad_step r _) as [lp ne]. cbn [fst snd].
  destruct l as [| |[y|] ll lr]; try done; destruct r as [| |[z|] rl rr]; try done;
    cbn [is_null btree_ops negb bind _value_of int_of child_le child_ge kids
         andb app];
    rewrite ?app_nil_r, <- ?app_assoc; cbn [app];
    repeat match goal with
    | |- context [?a <? ?b] => destruct (Z.ltb_spec a b)
    | |- context [?a <=? ?b] => destruct (Z.leb_spec a b)
    end; try lia;
    cbn [bind]; rewrite ?andb_true_r, ?andb_false_r; try reflexivity.
Qed.

Lemma for_each_inspect_proper ts : ∀ s nn,
  Forall proper ts →
  for_each inspect_body ts (s, nn) = Ok (fold_left scan_node ts s, nn ++ flat_map kids ts).
Proof.
  induction ts as [|t ts IH]; intros s nn Hts; cbn [for_each fold_left flat_map].
  - by rewrite app_nil_r.
  - inversion Hts as [|? ? Ht Hts']; subst.
    rewrite inspect_body_proper by done. cbn [bind].
    rewrite IH by done. by rewrite <- app_assoc.
Qed.

Lemma valid_proper t : valid t → t ≠ Nil → proper t.
Proof.
  destruct t as [| |[x|] l r]; simpl; try done.
  - intros (_ & Hl & Hr) _. split.
    + destruct l as [| |[y|] ? ?]; simpl in *; try done. by destruct Hl.
    + destruct r as [| |[y|] ? ?]; simpl in *; try done. by destruct Hr.
  - by intros [? _].
Qed.

Lemma kids_valid t : valid t → Forall (λ c, valid c ∧ c ≠ Nil) (kids t).
Proof.
  destruct t as [| |v l r]; simpl; try constructor.
  intros (_ & Hl & Hr). apply Forall_app. split.
  - destruct l; simpl; [constructor|done|]. constructor; [done|constructor].
  - destruct r; simpl; [constructor|done|]. constructor; [done|constructor].
Qed.

Lemma kids_levels t c : c ∈ kids t → (levels c < levels t)%nat.
Proof.
  destruct t as [| |v l r]; simpl; try by intros ?%elem_of_nil.
  intros [Hc|Hc]%elem_of_app.
  - destruct l; simpl in Hc; try by apply elem_of_nil in Hc.
    + apply list_elem_of_singleton in Hc as ->. simpl. lia.
    + apply list_elem_of_singleton in Hc as ->. simpl. lia.
  - destruct r; simpl in Hc; try by apply elem_of_nil in Hc.
    + apply list_elem_of_singleton in Hc as ->. simpl. lia.
    + apply list_elem_of_singleton in Hc as ->. simpl. lia.
Qed.

Lemma flat_map_kids_valid ts :
  Forall (λ c, valid c ∧ c ≠ Nil) ts →
  Forall (λ c, valid c ∧ c ≠ Nil) (flat_map kids ts).
Proof.
  induction 1 as [|t ts [Ht _] _ IH]; simpl; [constructor|].
  apply Forall_app. split; [by apply kids_valid|done].
Qed.

Lemma flat_map_kids_levels n ts :
  Forall (λ t, levels t ≤ S n)%nat ts →
  Forall (λ t, levels t ≤ n)%nat (flat_map kids ts).
Proof.
  induction 1 as [|t ts Ht _ IH]; simpl; [constructor|].
  apply Forall_app. split; [|done].
  apply list.Forall_forall. intros c Hc. apply kids_levels in Hc. lia.
Qed.

(** With one unit of fuel per level the pass returns, and returns what the
    closed form says. *)
Lemma inspect_levels_valid fuel : ∀ s ts,
  Forall (λ c, valid c ∧ c ≠ Nil) ts →
  Forall (λ t, levels t ≤ fuel)%nat ts →
  inspect_levels fuel s ts = Ok (scan_levels fuel s ts).
Proof.
  induction fuel as [|fuel IH]; intros s ts Hv Hl.
  - destruct ts as [|t ts]; [done|]. exfalso.
    inversion Hv as [|? ? [Htv Htn] _]; inversion Hl as [|? ? Htl _]; subst.
    destruct t; simpl in *; try done; lia.
  - destruct ts as [|t ts]; [done|].
    cbn [inspect_levels scan_levels].
    rewrite for_each_inspect_proper.
    2:{ eapply list.Forall_impl; [exact Hv|]. intros c [? ?]. by apply valid_proper. }
    cbn [bind app]. apply IH.
    + by apply flat_map_kids_valid.
    + by apply flat_map_kids_levels.
Qed.

Lemma forest_levels_app ts us :
  forest_levels (ts ++ us) = Nat.max (forest_levels ts) (forest_levels us).
Proof. unfold forest_levels. induction ts; simpl; lia. Qed.

Lemma forest_levels_kids t : forest_levels (kids t) = pred (levels t).
Proof.
  destruct t as [| |v l r]; simpl; try done.
  rewrite forest_levels_app.
  destruct l, r; simpl; lia.
Qed.

Lemma forest_levels_flat_map_kids ts :
  forest_levels (flat_map kids ts) = pred (forest_levels ts).
Proof.
  induction ts as [|t ts IH]; simpl; [done|].
  rewrite forest_levels_app, forest_levels_kids, IH.
  unfold forest_levels. lia.
Qed.

Lemma forest_levels_le n ts :
  (forest_levels ts ≤ n)%nat ↔ Forall (λ t, levels t ≤ n)%nat ts.
Proof.
  unfold forest_levels. induction ts as [|t ts IH]; simpl.
  - split; [constructor|lia].
  - rewrite list.Forall_cons, <- IH. lia.
Qed.

Lemma fold_scan_node_depth ts : ∀ s,
  s_current_depth (fold_left scan_node ts s) = s_current_depth s.
Proof.
  induction ts as [|t ts IH]; intros s; simpl; [done|].
  rewrite IH. by destruct t as [| |[x|] l r].
Qed.

(** The pass ends with [current_depth] raised by the number of levels. *)
Lemma scan_levels_depth n : ∀ s ts,
  Forall (λ c, valid c ∧ c ≠ Nil) ts → (forest_levels ts ≤ n)%nat →
  s_current_depth (scan_levels n s ts) = s_current_depth s + Z.of_nat (forest_levels ts).
Proof.
  induction n as [|n IH]; intros s ts Hv Hn.
  - destruct ts as [|t ts]; simpl; [lia|]. exfalso.
    inversion Hv as [|? ? [Htv Htn] _]; subst.
    unfold forest_levels in Hn. destruct t; simpl in *; try done; lia.
  - destruct ts as [|t ts]; [simpl; lia|].
    cbn [scan_levels]. rewrite IH.
    + rewrite fold_scan_node_depth, forest_levels_flat_map_kids. simpl.
      inversion Hv as [|? ? [Htv Htn] _]; subst.
      unfold forest_levels. destruct t; simpl in *; try done; lia.
    + by apply flat_map_kids_valid.
    + rewrite forest_levels_flat_map_kids. lia.
Qed.

Lemma forallb_deep p ts :
  Forall (λ c, valid c ∧ c ≠ Nil) ts →
  forallb (deep p) ts = forallb p ts && forallb (deep p) (flat_map kids ts).
Proof.
  induction 1 as [|t ts [Ht Hn] _ IH]; [done|].
  cbn [forallb flat_map]. rewrite forallb_app, IH.
  assert (deep p t = p t && forallb (deep p) (kids t)) as ->.
  { destruct t as [| |v l r]; try done. cbn [deep kids]. rewrite forallb_app.
    destruct l, r; simpl in *; rewrite ?andb_true_r, ?andb_assoc; try done; tauto. }
  destruct (p t), (forallb (deep p) (kids t)), (forallb p ts); done.
Qed.

Lemma fold_scan_node_flags ts : ∀ s,
  let s' := fold_left scan_node ts s in
  s_is_bst s' = s_is_bst s && forallb bst_ok ts ∧
  s_is_descending s' = s_is_descending s && forallb desc_ok ts ∧
  s_is_ascending s' = s_is_ascending s && forallb asc_ok ts.
Proof.
  induction ts as [|t ts IH]; intros s; simpl.
  - by rewrite !andb_true_r.
  - destruct (IH (scan_node s t)) as (-> & -> & ->).
    destruct t as [| |[x|] l r]; simpl; rewrite ?andb_assoc; done.
Qed.

(** The three order flags at the end of the pass. *)
Lemma scan_levels_flags n : ∀ s ts,
  Forall (λ c, valid c ∧ c ≠ Nil) ts → (forest_levels ts ≤ n)%nat →
  let s' := scan_levels n s ts in
  s_is_bst s' = s_is_bst s && forallb (deep bst_ok) ts ∧
  s_is_descending s' = s_is_descending s && forallb (deep desc_ok) ts ∧
  s_is_ascending s' = s_is_ascending s && forallb (deep asc_ok) ts.
Proof.
  induction n as [|n IH]; intros s ts Hv Hn.
  - destruct ts as [|t ts]; simpl; [by rewrite !andb_true_r|]. exfalso.
    inversion Hv as [|? ? [Htv Htn] _]; subst.
    unfold forest_levels in Hn. destruct t; simpl in *; try done; lia.
  - destruct ts as [|t ts]; [simpl; by rewrite !andb_true_r|].
    cbn [scan_levels].
    destruct (IH (fold_left scan_node (t :: ts) (next_level s))
                (flat_map kids (t :: ts))) as (E1 & E2 & E3).
    { by apply flat_map_kids_valid. }
    { rewrite forest_levels_flat_map_kids. lia. }
    destruct (fold_scan_node_flags (t :: ts) (next_level s)) as (F1 & F2 & F3).
    cbv zeta in *. rewrite E1, E2, E3, F1, F2, F3.
    rewrite !(forallb_deep _ (t :: ts)) by done.
    cbn [next_level s_is_bst s_is_descending s_is_ascending].
    by rewrite !andb_assoc.
Qed.

(* ------------------------------------------------------------------ *)
(** ** [_is_balanced] and [_validate_tree] in closed form *)

Lemma is_balanced_valid fuel : ∀ t,
  valid t → (levels t < fuel)%nat → _is_balanced fuel t = Ok (balanced_depth t).
Proof.
  induction fuel as [|fuel IH]; intros t Hv Hl; [lia|].
  destruct t as [| |v l r]; [done|done|].
  destruct Hv as (_ & Hvl & Hvr). simpl in Hl.
  cbn [_is_balanced is_null btree_ops _left_of _right_of bind].
  rewrite (IH l), (IH r) by (done || lia). cbn [bind balanced_depth].
  by destruct (_ || _).
Qed.

Lemma for_each_validate ts : ∀ nn,
  for_each validate_body ts nn =
  match find offending ts with
  | Some o => bind (verdict (Some o)) (λ _, Ok [])
  | None => Ok (nn ++ flat_map children ts)
  end.
Proof.
  induction ts as [|t ts IH]; intros nn; cbn [for_each find flat_map].
  - by rewrite app_nil_r.
  - destruct t as [| |[x|] l r]; try done.
    + cbn [validate_body _is_node is_null btree_ops negb bind offending children app].
      apply IH.
    + cbn [validate_body _is_node is_null btree_ops negb bind offending children
           _value_of _left_of _right_of].
      rewrite IH. destruct (find offending ts); [done|].
      by rewrite <- app_assoc.
Qed.

Lemma forest_levels_children ts :
  forest_levels (flat_map children ts) = pred (forest_levels ts).
Proof.
  induction ts as [|t ts IH]; simpl; [done|].
  rewrite forest_levels_app, IH.
  assert (forest_levels (children t) = pred (levels t)) as ->.
  { destruct t; simpl; lia. }
  unfold forest_levels. lia.
Qed.

Lemma forest_levels_0 ts : forest_levels ts = O → flat_map children ts = [].
Proof.
  induction ts as [|t ts IH]; simpl; [done|].
  unfold forest_levels in *. simpl. intros Hm.
  rewrite IH by lia. destruct t; simpl in *; [done|done|lia].
Qed.

Lemma find_app_case {A} (p : A → bool) (l1 l2 : list A) :
  find p (l1 ++ l2) =
  match find p l1 with
  | Some x => Some x
  | None => find p l2
  end.
Proof. induction l1 as [|x l1 IH]; simpl; [done|]. by destruct (p x). Qed.

Lemma find_none_Forall {A} (p : A → bool) (l : list A) :
  find p l = None ↔ Forall (λ x, p x = false) l.
Proof.
  induction l as [|x l IH]; simpl; [by split; [constructor|]|].
  destruct (p x) eqn:Hp.
  - split; [done|]. inversion 1; congruence.
  - rewrite IH. split; [by constructor|by inversion 1].
Qed.

Lemma find_bfs ts :
  find offending (bfs (forest_levels ts) ts) =
  match find offending ts with
  | Some o => Some o
  | None => find offending (bfs (forest_levels (flat_map children ts))
                              (flat_map children ts))
  end.
Proof.
  rewrite forest_levels_children.
  destruct (forest_levels ts) as [|n] eqn:Hn; cbn [bfs pred].
  - rewrite (forest_levels_0 ts Hn). simpl. by destruct (find offending ts).
  - rewrite find_app_case. by destruct (find offending ts).
Qed.

Lemma validate_levels_spec fuel : ∀ ts,
  (ts ≠ [] → forest_levels ts < fuel)%nat →
  validate_levels fuel ts = verdict (find offending (bfs (forest_levels ts) ts)).
Proof.
  induction fuel as [|fuel IH]; intros ts Hl.
  { destruct ts; [done|]. specialize (Hl ltac:(done)). lia. }
  destruct ts as [|t ts]; [done|]. specialize (Hl ltac:(done)).
  cbn [validate_levels]. rewrite find_bfs, for_each_validate.
  destruct (find offending (t :: ts)) as [o|].
  - by destruct o as [| |[x|] ? ?].
  - cbn [bind app]. apply IH. intros Hne. rewrite forest_levels_children.
    destruct (forest_levels (t :: ts)) eqn:Hf; [|lia].
    by rewrite (forest_levels_0 _ Hf) in Hne.
Qed.

Lemma validate_tree_spec fuel t :
  (levels t < fuel)%nat → validate_tree fuel t = verdict (first_offender t).
Proof.
  intros Hl. unfold validate_tree, first_offender, walk.
  rewrite validate_levels_spec by (unfold forest_levels; simpl; lia).
  unfold forest_levels. simpl. by rewrite Nat.max_0_r.
Qed.

Lemma valid_step ts :
  Forall valid ts ↔
  Forall (λ t, offending t = false) ts ∧ Forall valid (flat_map children ts).
Proof.
  induction ts as [|t ts IH]; cbn [flat_map].
  - split; [by split; constructor|constructor].
  - rewrite Forall_app, !list.Forall_cons, IH.
    assert (valid t ↔ offending t = false ∧ Forall valid (children t)) as ->.
    { destruct t as [| |[x|] l r]; simpl.
      - split; [by split; [|constructor]|done].
      - split; [done|by intros [? _]].
      - rewrite !list.Forall_cons. split.
        + intros (_ & Hl & Hr). split_and!; [done..|constructor].
        + intros (_ & Hl & Hr & _). done.
      - split; [by intros [? _]|by intros [? _]]. }
    tauto.
Qed.

Lemma find_offending_valid n : ∀ ts,
  (forest_levels ts ≤ n)%nat →
  find offending (bfs n ts) = None ↔ Forall valid ts.
Proof.
  induction n as [|n IH]; intros ts Hl; cbn [bfs].
  - rewrite valid_step, forest_levels_0 by lia.
    rewrite find_none_Forall. split; [by split; [|constructor]|by intros [? _]].
  - rewrite valid_step, <- IH by (rewrite forest_levels_children; lia).
    rewrite find_app_case, <- find_none_Forall.
    destruct (find offending ts); [|tauto].
    split; [done|by intros [? _]].
Qed.

Lemma first_offender_valid t : first_offender t = None ↔ valid t.
Proof.
  unfold first_offender, walk.
  rewrite find_offending_valid by (unfold forest_levels; simpl; lia).
  rewrite list.Forall_cons. split; [by intros [? _]|by split; [|constructor]].
Qed.

(* ------------------------------------------------------------------ *)
(** ** The traversals on the store, through [repr] *)

Lemma fuel_of_levels h o t : repr h o t → (levels t < fuel_of h)%nat.
Proof. intros Hr. apply repr_levels in Hr. unfold fuel_of. lia. Qed.

Lemma validate_tree_store h root t :
  repr h root t →
  _validate_tree root h = bind (verdict (first_offender t)) (λ u, Ok (u, h)).
Proof.
  intros Hr. unfold _validate_tree.
  rewrite (validate_tree_repr h _ root t Hr).
  rewrite validate_tree_spec by by eapply fuel_of_levels.
  done.
Qed.

Lemma first_offender_offending t o : first_offender t = Some o → offending o = true.
Proof. unfold first_offender. intros Hf. by apply find_some in Hf as [_ ?]. Qed.

(** C9: [_validate_tree] raises 'Found an invalid node in the tree' exactly
    when the first object its breadth-first walk rejects is neither a node
    nor [None], raises 'A node cannot have a null value' exactly when it is
    a node whose value is [None], and otherwise returns, leaving the store
    as it found it. *)
Theorem validate_tree_outcome (h : store) (root : obj) (t : btree) :
  repr h root t →
  (_validate_tree root h = Raise InvalidNode ↔ first_offender t = Some Other) ∧
  (_validate_tree root h = Raise NullNodeValue ↔
     ∃ l r, first_offender t = Some (Nd None l r)) ∧
  (_validate_tree root h = Ok (tt, h) ↔ first_offender t = None) ∧
  (∀ u h', _validate_tree root h = Ok (u, h') → h' = h) ∧
  (_validate_tree root h = Raise InvalidNode ∨
   _validate_tree root h = Raise NullNodeValue ∨
   _validate_tree root h = Ok (tt, h)).
Proof.
  intros Hr. rewrite (validate_tree_store h root t Hr).
  destruct (first_offender t) as [o|] eqn:Hf.
  - apply first_offender_offending in Hf.
    destruct o as [| |[x|] l r]; try done; simpl.
    + split_and!; [done| |done|done|by left].
      split; [done|]. by intros (? & ? & ?).
    + split_and!; [done| |done|done|by right; left].
      split; [by exists l, r|done].
  - simpl. split_and!; [done| |done| |by right; right].
    + split; [done|]. by intros (? & ? & ?).
    + by intros u h' [= _ <-].
Qed.

Lemma validate_tree_outcome_witness :
  _validate_tree (ORef 0)
    [mkNode (Some 1) OOther (ORef 1); mkNode None ONull ONull] = Raise InvalidNode.
Proof.
  apply (validate_tree_outcome
           [mkNode (Some 1) OOther (ORef 1); mkNode None ONull ONull] (ORef 0)
           (Nd (Some 1) Other (Nd None Nil Nil))).
  - econstructor; [reflexivity|constructor|].
    econstructor; [reflexivity|constructor|constructor].
  - reflexivity.
Defined.

Lemma inspect_tree_valid fuel t :
  valid t → t ≠ Nil → (levels t < fuel)%nat →
  inspect_tree fuel t =
  Ok (properties_of (scan_levels fuel scan_init [t]) (balanced_depth t)).
Proof.
  intros Hv Hn Hl. unfold inspect_tree.
  rewrite inspect_levels_valid.
  - cbn [bind]. rewrite is_balanced_valid by done. done.
  - by repeat constructor.
  - repeat constructor. lia.
Qed.

(** [inspect] on a node of the store that unfolds to a valid tree. *)
Lemma inspect_node h a t :
  repr h (ORef a) t → valid t →
  inspect (AObj (ORef a)) h =
  Ok (properties_of (scan_levels (fuel_of h) scan_init [t]) (balanced_depth t), h).
Proof.
  intros Hr Hv. unfold inspect.
  rewrite (validate_tree_store h _ t Hr).
  apply first_offender_valid in Hv as Hf. rewrite Hf. cbn [verdict bind].
  rewrite (inspect_tree_repr h _ _ t Hr).
  rewrite inspect_tree_valid; [done|done| |by eapply fuel_of_levels].
  inversion Hr. done.
Qed.

(* ------------------------------------------------------------------ *)
(** ** The tree [_build_tree] builds *)

Lemma subtree_valid n : ∀ v i, valid (subtree n v i).
Proof.
  induction n as [|n IH]; intros v i; simpl; [done|].
  destruct (at0 v i); simpl; [|done]. split_and!; [done|apply IH..].
Qed.

Lemma subtree_fuel n : ∀ m v i,
  (length v ≤ i + n)%nat → (length v ≤ i + m)%nat →
  subtree n v i = subtree m v i.
Proof.
  induction n as [|n IH]; intros m v i Hn Hm.
  - destruct m; simpl; [done|]. by rewrite at0_ge by lia.
  - destruct m as [|m]; simpl.
    + by rewrite at0_ge by lia.
    + destruct (at0 v i) eqn:Hi; [|done].
      assert (i < length v)%nat by (apply at0_lt; congruence).
      f_equal; apply IH; lia.
Qed.

Lemma build_inv_repr v h0 nodes h :
  build_inv v h0 (length v) nodes h →
  ∀ n i, (length v ≤ i + n)%nat → repr h (nd nodes i) (subtree n v i).
Proof.
  intros Hinv. induction n as [|n IH]; intros i Hi; simpl.
  - rewrite (bi_later _ _ _ _ _ Hinv) by lia. constructor.
  - destruct (at0 v i) as [x|] eqn:Hx.
    + assert (i < length v)%nat by (apply at0_lt; congruence).
      destruct (bi_node _ _ _ _ _ Hinv i x) as (a & -> & Ha); [done..|].
      econstructor; [exact Ha|apply IH; lia..].
    + rewrite (bi_null _ _ _ _ _ Hinv) by done. constructor.
Qed.

(** On a well-formed list [_build_tree] returns; the root it returns
    unfolds to the tree the list denotes, and the objects that were in the
    store are as they were. *)
Lemma build_tree_repr v h :
  well_formed v →
  ∃ root h', _build_tree v h = Ok (root, h') ∧
    repr h' root (tree_of_list v) ∧
    (v ≠ [] → root = ORef (length h)) ∧
    (∀ a n, h !! a = Some n → h' !! a = Some n).
Proof.
  intros Hwf. pose proof (build_tree_spec v h) as Hspec.
  destruct (_build_tree v h) as [[root h']|e|]; [|by destruct Hspec|done].
  exists root, h'. split; [done|].
  destruct Hspec as [_ [(-> & -> & ->)|(Hne & -> & nodes & Hinv)]].
  - split_and!; [constructor|done..].
  - split_and!; [|done|by apply (bi_prefix _ _ _ _ _ Hinv)].
    rewrite <- (bi_root _ _ _ _ _ Hinv).
    apply (build_inv_repr _ _ _ _ Hinv). lia.
Qed.

(* ------------------------------------------------------------------ *)
(** ** The empty tree *)

(** C2: [inspect([])] does not return: [_build_tree([])] is [None], the
    pass starts with [current_nodes = [None]], and reading the value of
    [None] raises [AttributeError]. *)
Theorem inspect_empty_list_raises (h : store) :
  inspect (AList []) h = Raise AttributeError.
Proof. unfold inspect. simpl. unfold fuel_of. by rewrite Nat.add_comm. Qed.

Lemma inspect_none_raises (h : store) :
  inspect (AObj ONull) h = Raise ExpectingListOrNode.
Proof. done. Qed.

(* ------------------------------------------------------------------ *)
(** ** Search trees *)

Lemma search_tree_ties_of t : search_tree t → search_tree_ties t.
Proof.
  induction t as [| |v l IHl r IHr]; simpl; try done.
  intros (Hv & Hl & Hr). split_and!; [|auto..].
  intros x Hx. destruct (Hv x Hx) as [H1 H2]. split; [done|].
  clear -H2. induction r as [| |w a IHa b IHb]; simpl in *; try done.
  destruct H2 as (Hw & Ha & Hb). split_and!; [|auto..].
  intros y Hy. specialize (Hw y Hy). lia.
Qed.

(** A search tree passes the parent-child comparisons of [inspect]. *)
Lemma search_tree_ties_deep_bst_ok t : search_tree_ties t → deep bst_ok t = true.
Proof.
  induction t as [| |v l IHl r IHr]; simpl; try done.
  intros (Hv & Hl & Hr). rewrite IHl, IHr by done. rewrite !andb_true_r.
  destruct v as [x|]; [|done]. destruct (Hv x eq_refl) as [H1 H2].
  apply andb_true_iff. split.
  - destruct l as [| |[y|] ? ?]; simpl in *; try done.
    destruct H1 as (Hy & _). specialize (Hy y eq_refl). lia.
  - destruct r as [| |[y|] ? ?]; simpl in *; try done.
    destruct H2 as (Hy & _). specialize (Hy y eq_refl). lia.
Qed.

(** The [is_bst] flag of [inspect] records the parent-child comparisons
    only. *)
Lemma inspect_node_is_bst h a t p :
  repr h (ORef a) t → valid t →
  inspect (AObj (ORef a)) h = Ok (p, h) → is_bst p = deep bst_ok t.
Proof.
  intros Hr Hv. rewrite (inspect_node h a t Hr Hv). intros [= <-].
  cbn [is_bst properties_of].
  destruct (scan_levels_flags (fuel_of h) scan_init [t]) as (-> & _).
  - constructor; [|constructor]. split; [done|]. by inversion Hr.
  - unfold forest_levels. simpl. pose proof (fuel_of_levels _ _ _ Hr). lia.
  - simpl. by rewrite andb_true_r.
Qed.

(** C1: on [[5, 3, 8, None, 7]] the flag [is_bst] is true although 7 lies
    in the left subtree of 5. *)
Theorem inspect_is_bst_not_search_tree :
  ∃ p h t,
    inspect (AList [Some 5; Some 3; Some 8; None; Some 7]) [] = Ok (p, h) ∧
    repr h (ORef 0) t ∧
    is_bst p = true ∧
    ¬ search_tree t.
Proof.
  eexists _, _, (Nd (Some 5) (Nd (Some 3) Nil (Nd (Some 7) Nil Nil))
                   (Nd (Some 8) Nil Nil)).
  split_and!.
  - vm_compute. reflexivity.
  - repeat (econstructor; try reflexivity).
  - reflexivity.
  - simpl. intros (H5 & _). destruct (H5 5 eq_refl) as ((_ & _ & H7 & _) & _).
    specialize (H7 7 eq_refl). lia.
Qed.

(* ------------------------------------------------------------------ *)
(** ** Perfect trees *)

Lemma perfect_valid d : ∀ t, perfect d t → valid t.
Proof.
  induction d as [|d IH]; intros [| |[x|] l r]; simpl; try done.
  intros [Hl Hr]. split_and!; [done|by apply IH..].
Qed.

Lemma perfect_levels d : ∀ t, perfect d t → levels t = d.
Proof.
  induction d as [|d IH]; intros [| |[x|] l r]; simpl; try done.
  intros [Hl Hr]. rewrite (IH l), (IH r) by done. lia.
Qed.

Lemma perfect_balanced_depth d : ∀ t, perfect d t → balanced_depth t = Z.of_nat d.
Proof.
  induction d as [|d IH]; intros [| |[x|] l r]; simpl; try done.
  intros [Hl Hr]. rewrite (IH l), (IH r) by done.
  rewrite Z.sub_diag. simpl Z.abs.
  destruct (Z.ltb_spec (Z.of_nat d) 0); [lia|]. simpl. lia.
Qed.

Lemma perfect_kids d ts :
  Forall (perfect (S (S d))) ts → Forall (perfect (S d)) (flat_map kids ts).
Proof.
  induction 1 as [|t ts Ht _ IH]; simpl; [constructor|].
  apply Forall_app. split; [|done].
  destruct t as [| |[x|] l r]; try done. destruct Ht as [Hl Hr].
  destruct l as [| |[y|] ? ?], r as [| |[z|] ? ?]; try done.
  cbn [kids is_null btree_ops app].
  constructor; [done|]. constructor; [done|constructor].
Qed.

Lemma perfect_leaf_kids ts : Forall (perfect 1) ts → flat_map kids ts = [].
Proof.
  induction 1 as [|t ts Ht _ IH]; simpl; [done|]. rewrite IH.
  destruct t as [| |[x|] l r]; try done. destruct Ht as [Hl Hr].
  by destruct l, r.
Qed.

(** A level of inner nodes of perfect trees meets no null child and no
    leaf. *)
Lemma fold_scan_node_inner d ts : ∀ s,
  Forall (perfect (S (S d))) ts → s_null_encountered s = false →
  let s' := fold_left scan_node ts s in
  s_is_left_padded s' = s_is_left_padded s ∧
  s_null_encountered s' = false ∧
  s_min_leaf_depth s' = s_min_leaf_depth s.
Proof.
  induction ts as [|t ts IH]; intros s Hts Hne; [done|].
  inversion Hts as [|? ? Ht Hts']; subst. cbn [fold_left].
  destruct t as [| |[x|] l r]; try done. destruct Ht as [Hl Hr].
  destruct l as [| |[y|] ll lr], r as [| |[z|] rl rr]; try done.
  destruct (IH (scan_node s (Nd (Some x) (Nd (Some y) ll lr) (Nd (Some z) rl rr))))
    as (-> & -> & ->); [done|by simpl; rewrite Hne|].
  simpl. by rewrite Hne.
Qed.

(** The level of the leaves of perfect trees: the padding flag is left
    alone, and the first leaf fixes [min_leaf_depth]. *)
Lemma fold_scan_node_leaves ts : ∀ s,
  Forall (perfect 1) ts →
  let s' := fold_left scan_node ts s in
  s_is_left_padded s' = s_is_left_padded s ∧
  (ts ≠ [] → s_min_leaf_depth s = 0 ∨ s_min_leaf_depth s = s_current_depth s →
   s_min_leaf_depth s' = s_current_depth s).
Proof.
  induction ts as [|t ts IH]; intros s Hts; [done|].
  inversion Hts as [|? ? Ht Hts']; subst. cbn [fold_left].
  destruct t as [| |[x|] l r]; try done. destruct Ht as [Hl Hr].
  destruct l, r; try done.
  destruct (IH (scan_node s (Nd (Some x) Nil Nil)) Hts') as (-> & Hm).
  split.
  - simpl. by destruct (s_null_encountered s).
  - intros _ Hs. destruct ts as [|t' ts].
    + simpl. destruct (Z.eqb_spec (s_min_leaf_depth s) 0); [done|lia].
    + rewrite Hm; [done|done|]. right. simpl.
      destruct (Z.eqb_spec (s_min_leaf_depth s) 0); [done|lia].
Qed.

(** The pass over a forest of perfect trees. *)
Lemma scan_levels_perfect d : ∀ n s ts,
  ts ≠ [] → Forall (perfect (S d)) ts → (S d ≤ n)%nat →
  s_min_leaf_depth s = 0 →
  let s' := scan_levels n s ts in
  s_is_left_padded s' = s_is_left_padded s ∧
  s_min_leaf_depth s' = s_current_depth s' ∧
  s_current_depth s' = s_current_depth s + Z.of_nat (S d).
Proof.
  induction d as [|d IH]; intros n s ts Hne Hts Hn Hm.
  - destruct n as [|n]; [lia|]. destruct ts as [|t ts]; [done|].
    cbn [scan_levels]. rewrite (perfect_leaf_kids _ Hts).
    assert (∀ n s, scan_levels n s [] = s) as -> by (by intros [|?] ?).
    destruct (fold_scan_node_leaves (t :: ts) (next_level s) Hts) as (-> & Hmld).
    rewrite fold_scan_node_depth. rewrite Hmld; [|done|by left].
    simpl. split_and!; [done|done|lia].
  - destruct n as [|n]; [lia|]. destruct ts as [|t ts]; [done|].
    cbn [scan_levels].
    destruct (fold_scan_node_inner d (t :: ts) (next_level s) Hts eq_refl)
      as (Hlp & Hnull & Hmld).
    destruct (IH n (fold_left scan_node (t :: ts) (next_level s))
                (flat_map kids (t :: ts))) as (-> & -> & ->).
    + inversion Hts as [|? ? Ht _]; subst.
      destruct t as [| |[x|] l r]; try done. destruct Ht as [Hl Hr].
      by destruct l as [| |[y|] ? ?].
    + by apply perfect_kids.
    + lia.
    + by rewrite Hmld.
    + rewrite Hlp, fold_scan_node_depth. simpl. split_and!; [done|done|lia].
Qed.

Lemma pow2_pos k : (0 < 2 ^ k)%nat.
Proof. induction k; simpl; lia. Qed.

Lemma full_well_formed k v : full k v → well_formed v.
Proof.
  intros [Hlen Hfull]. split.
  - intros Hne. apply Hfull. destruct v; [done|simpl; lia].
  - intros i (Hi & Hx & Hp). apply at0_lt in Hx.
    apply (Hfull ((i + 1) / 2 - 1)%nat); [|done].
    pose proof (parent_lt i Hi). lia.
Qed.

Lemma subtree_perfect k v : full k v →
  ∀ d q i n, (q * 2 ^ d = 2 ^ k)%nat → (q ≤ i + 1 < 2 * q)%nat →
    (length v ≤ i + n)%nat → perfect d (subtree n v i).
Proof.
  intros [Hlen Hfull]. induction d as [|d IH]; intros q i n Hq Hi Hn.
  - simpl in Hq. destruct n; simpl; [done|]. rewrite at0_ge; [done|lia].
  - rewrite Nat.pow_succ_r' in Hq. pose proof (pow2_pos d).
    assert (i < length v)%nat by nia.
    destruct n as [|n]; [lia|]. simpl.
    destruct (at0 v i) as [x|] eqn:Hx; [|by apply Hfull in Hx].
    split; apply (IH (2 * q)%nat); lia.
Qed.

Lemma tree_of_full_list k v : full k v → perfect k (tree_of_list v).
Proof.
  intros Hf. apply (subtree_perfect k v Hf k 1%nat); lia.
Qed.

(** [inspect] on a node of the store that unfolds to a perfect tree. *)
Lemma inspect_perfect h a t d :
  repr h (ORef a) t → perfect (S d) t →
  ∃ p, inspect (AObj (ORef a)) h = Ok (p, h) ∧
    height p = Z.of_nat d ∧
    min_leaf_depth p = Z.of_nat d ∧
    is_weight_balanced p = true ∧
    is_height_balanced p = true ∧
    is_height_balanced p = (height p - min_leaf_depth p <? 2) ∧
    is_min_heap p = deep asc_ok t ∧
    is_max_heap p = deep desc_ok t ∧
    is_bst p = deep bst_ok t.
Proof.
  intros Hr Hp. pose proof (perfect_valid _ _ Hp) as Hv.
  eexists. split; [by apply inspect_node|].
  pose proof (fuel_of_levels _ _ _ Hr) as Hfuel.
  rewrite (perfect_levels _ _ Hp) in Hfuel.
  assert (Hne : t ≠ Nil) by by destruct t.
  destruct (scan_levels_perfect d (fuel_of h) scan_init [t]) as (Hlp & Hmld & Hd);
    [done|by repeat constructor|lia|done|].
  destruct (scan_levels_flags (fuel_of h) scan_init [t]) as (Hb & Hde & Ha).
  { by repeat constructor. }
  { unfold forest_levels. simpl. rewrite (perfect_levels _ _ Hp). lia. }
  cbn [properties_of height min_leaf_depth is_weight_balanced is_height_balanced
       is_min_heap is_max_heap is_bst].
  rewrite Hlp, Hmld, Hd, Hb, Hde, Ha, (perfect_balanced_depth _ _ Hp).
  cbn [scan_init s_is_left_padded s_current_depth s_is_bst s_is_descending
       s_is_ascending forallb].
  rewrite Z.sub_diag, !andb_true_r.
  assert ((0 <=? Z.of_nat (S d)) = true) as -> by (apply Z.leb_le; lia).
  rewrite ?andb_true_r. split_and!; try done; lia.
Qed.

(** A full list builds a perfect tree, which is weight- and
    height-balanced. *)
Lemma build_full_list k v h :
  full (S k) v →
  ∃ a h' p, _build_tree v h = Ok (ORef a, h') ∧
    repr h' (ORef a) (tree_of_list v) ∧
    inspect (AObj (ORef a)) h' = Ok (p, h') ∧
    height p = Z.of_nat k ∧
    is_weight_balanced p = true ∧
    is_height_balanced p = true ∧
    is_height_balanced p = (height p - min_leaf_depth p <? 2) ∧
    is_min_heap p = deep asc_ok (tree_of_list v) ∧
    is_max_heap p = deep desc_ok (tree_of_list v).
Proof.
  intros Hf.
  destruct (build_tree_repr v h (full_well_formed _ _ Hf))
    as (root & h' & Hb & Hr & Hroot & _).
  assert (v ≠ []) as Hne.
  { destruct Hf as [Hlen _]. pose proof (pow2_pos k).
    rewrite Nat.pow_succ_r' in Hlen. destruct v; [simpl in Hlen; lia|done]. }
  rewrite (Hroot Hne) in *.
  destruct (inspect_perfect h' _ _ k Hr (tree_of_full_list _ _ Hf))
    as (p & Hi & H1 & H2 & H3 & H4 & H5 & H6 & H7 & H8).
  exists (length h), h', p. split_and!; done.
Qed.

(* ------------------------------------------------------------------ *)
(** ** Heaps *)

Lemma at0_fmap_Some (a : list Z) i : at0 (Some <$> a) i = a !! i.
Proof. unfold at0. rewrite list_lookup_fmap. by destruct (a !! i). Qed.

Lemma full_fmap_Some k (a : list Z) :
  length a = (2 ^ k - 1)%nat → full k (Some <$> a).
Proof.
  intros Hlen. split; [by rewrite length_fmap|].
  intros i Hi. rewrite length_fmap in Hi. rewrite at0_fmap_Some.
  by destruct (lookup_lt_is_Some_2 a i Hi) as [x ->].
Qed.

Lemma count_nat (height : Z) (l : list Z) :
  0 ≤ height → Z.of_nat (length l) = count height →
  length l = (2 ^ S (Z.to_nat height) - 1)%nat.
Proof.
  intros Hh Hl. unfold count in Hl.
  assert (Z.of_nat (2 ^ S (Z.to_nat height)) = 2 ^ (height + 1)) as Hpow.
  { rewrite Nat2Z.inj_pow. f_equal. lia. }
  pose proof (pow2_pos (S (Z.to_nat height))). lia.
Qed.

Lemma heap_ordered_opp a : heap_ordered a → heap_ordered_max (Z.opp <$> a).
Proof.
  intros Ha k x y Hx Hy. rewrite !list_lookup_fmap in *.
  destruct (a !! k) as [x'|] eqn:Hx'; [|done]. injection Hx as <-.
  assert (∃ y', y = - y' ∧ (a !! (2 * k + 1)%nat = Some y' ∨
                             a !! (2 * k + 2)%nat = Some y')) as (y' & -> & Hy').
  { destruct Hy as [Hy|Hy].
    - destruct (a !! (2 * k + 1)%nat) as [y'|]; [|done]. injection Hy as <-.
      exists y'. by split; [|left].
    - destruct (a !! (2 * k + 2)%nat) as [y'|]; [|done]. injection Hy as <-.
      exists y'. by split; [|right]. }
  specialize (Ha k x' y' Hx' Hy'). lia.
Qed.

Lemma child_ge_subtree n v x j :
  (∀ y, at0 v j = Some y → x ≤ y) → child_ge x (subtree n v j) = true.
Proof.
  intros Hy. destruct n; simpl; [done|].
  destruct (at0 v j) as [y|]; simpl; [|done]. apply Z.leb_le. by apply Hy.
Qed.

Lemma child_le_subtree n v x j :
  (∀ y, at0 v j = Some y → y ≤ x) → child_le x (subtree n v j) = true.
Proof.
  intros Hy. destruct n; simpl; [done|].
  destruct (at0 v j) as [y|]; simpl; [|done]. apply Z.leb_le. by apply Hy.
Qed.

Lemma subtree_asc_ok a : heap_ordered a →
  ∀ n i, deep asc_ok (subtree n (Some <$> a) i) = true.
Proof.
  intros Ha. induction n as [|n IH]; intros i; simpl; [done|].
  destruct (at0 (Some <$> a) i) as [x|] eqn:Hx; [|done].
  rewrite at0_fmap_Some in Hx.
  cbn [deep asc_ok]. rewrite !IH, !andb_true_r.
  rewrite !child_ge_subtree; [done|..];
    intros y Hy; rewrite at0_fmap_Some in Hy; eapply Ha; eauto.
Qed.

Lemma subtree_desc_ok a : heap_ordered_max a →
  ∀ n i, deep desc_ok (subtree n (Some <$> a) i) = true.
Proof.
  intros Ha. induction n as [|n IH]; intros i; simpl; [done|].
  destruct (at0 (Some <$> a) i) as [x|] eqn:Hx; [|done].
  rewrite at0_fmap_Some in Hx.
  cbn [deep desc_ok]. rewrite !IH, !andb_true_r.
  rewrite !child_le_subtree; [done|..];
    intros y Hy; rewrite at0_fmap_Some in Hy; eapply Ha; eauto.
Qed.

(** C5: the tree of [heap(height)] is a min heap for [inspect], and the
    tree of [heap(height, max=True)] a max heap. *)
Theorem heap_is_heap (heapify : list Z → list Z) (sampled : list Z)
    (height : Z) (h : store) :
  heapify_contract heapify → 0 ≤ height → is_sample (count height) sampled →
  (∃ root h' p, heap heapify sampled height false h = Ok (root, h') ∧
     inspect (AObj root) h' = Ok (p, h') ∧ is_min_heap p = true) ∧
  (∃ root h' p, heap heapify sampled height true h = Ok (root, h') ∧
     inspect (AObj root) h' = Ok (p, h') ∧ is_max_heap p = true).
Proof.
  intros Hheap Hh (Hlen & _ & _).
  apply count_nat in Hlen; [|done].
  unfold heap, _generate_values.
  destruct (Z.ltb_spec height 0); [lia|]. cbn [bind].
  split.
  - destruct (Hheap sampled) as [Hord Hperm].
    destruct (build_full_list (Z.to_nat height) (Some <$> heapify sampled) h)
      as (a & h' & p & Hb & _ & Hi & _ & _ & _ & _ & Hmin & _).
    { apply full_fmap_Some. by rewrite Hperm. }
    exists (ORef a), h', p. split_and!; [done..|].
    rewrite Hmin. by apply subtree_asc_ok.
  - destruct (Hheap (Z.opp <$> sampled)) as [Hord Hperm].
    destruct (build_full_list (Z.to_nat height)
                (Some <$> (Z.opp <$> heapify (Z.opp <$> sampled))) h)
      as (a & h' & p & Hb & _ & Hi & _ & _ & _ & _ & _ & Hmax).
    { apply full_fmap_Some. by rewrite length_fmap, Hperm, length_fmap. }
    exists (ORef a), h', p. split_and!; [done..|].
    rewrite Hmax. by apply subtree_desc_ok, heap_ordered_opp.
Qed.

Lemma sorted_heap_ordered (a : list Z) : StronglySorted Z.le a → heap_ordered a.
Proof.
  intros Hs.
  assert (Hmono : ∀ i j x y, (i < j)%nat → a !! i = Some x → a !! j = Some y → x ≤ y).
  { induction Hs as [|z a Hs IH Hz]; intros i j x y Hij Hx Hy; [done|].
    destruct j as [|j]; [lia|]. simpl in Hy.
    destruct i as [|i]; simpl in Hx.
    - injection Hx as <-. rewrite list.Forall_forall in Hz. apply Hz.
      apply list_elem_of_lookup. eauto.
    - apply (IH i j); [lia|done..]. }
  intros k x y Hx [Hy|Hy]; eapply Hmono; try done; lia.
Qed.

Lemma merge_sort_contract : heapify_contract (merge_sort Z.le).
Proof.
  intros l. split.
  - apply sorted_heap_ordered, StronglySorted_merge_sort; apply _.
  - apply merge_sort_Permutation.
Qed.

Lemma heap_is_heap_witness :
  (∃ root h' p, heap (merge_sort Z.le) [2; 0; 1] 1 false [] = Ok (root, h') ∧
     inspect (AObj root) h' = Ok (p, h') ∧ is_min_heap p = true) ∧
  (∃ root h' p, heap (merge_sort Z.le) [2; 0; 1] 1 true [] = Ok (root, h') ∧
     inspect (AObj root) h' = Ok (p, h') ∧ is_max_heap p = true).
Proof.
  apply heap_is_heap.
  - apply merge_sort_contract.
  - lia.
  - split_and!; [reflexivity|apply (bool_decide_unpack _); by vm_compute|].
    repeat constructor; lia.
Defined.

(* ------------------------------------------------------------------ *)
(** ** Trees that own their nodes *)

Lemma shaped_repr h o t fp : shaped h o t fp → repr h o t.
Proof. induction 1; econstructor; eauto. Qed.

Lemma shaped_valid h o t fp : shaped h o t fp → valid t.
Proof. induction 1; simpl; [done|]. split_and!; done. Qed.

Lemma shaped_bound h o t fp b : shaped h o t fp → b ∈ fp → (b < length h)%nat.
Proof.
  induction 1 as [|a x ol or l r fl fr Ha Hl IHl Hr IHr Hnin Hdisj]; [set_solver|].
  intros [[->%elem_of_singleton|Hb]%elem_of_union|Hb]%elem_of_union; eauto.
  by eapply lookup_lt_Some.
Qed.

Lemma shaped_null_iff h o t fp : shaped h o t fp → (o = ONull ↔ t = Nil).
Proof. by destruct 1. Qed.

Lemma shaped_agree h h' o t fp :
  shaped h o t fp → (∀ b, b ∈ fp → h' !! b = h !! b) → shaped h' o t fp.
Proof.
  induction 1 as [|a x ol or l r fl fr Ha Hl IHl Hr IHr Hnin Hdisj];
    intros Hag; [constructor|].
  apply (shaped_node h' a x ol or);
    [|apply IHl; intros; apply Hag; set_solver
     |apply IHr; intros; apply Hag; set_solver|done..].
  rewrite Hag; [done|set_solver].
Qed.

Lemma shaped_frame h h' o t fp fp' :
  shaped h o t fp → frame h h' fp' → fp ## fp' → shaped h' o t fp.
Proof.
  intros Hs [Hlen Hfr] Hd. eapply shaped_agree; [done|].
  intros b Hb. apply Hfr; [by eapply shaped_bound|set_solver].
Qed.

Lemma shaped_new_leaf h v :
  shaped (h ++ [mkNode (Some v) ONull ONull]) (ORef (length h))
    (Nd (Some v) Nil Nil) {[length h]}.
Proof.
  replace ({[length h]} : gset nat) with ({[length h]} ∪ ∅ ∪ ∅ : gset nat)
    by set_solver.
  apply (shaped_node _ _ _ ONull ONull); [|constructor..|set_solver|set_solver].
  rewrite lookup_app_r by lia. by rewrite Nat.sub_diag.
Qed.

(** Hanging a new leaf on the free left side of a node. *)
Lemma shaped_attach_left h a x or r fr v :
  h !! a = Some (mkNode (Some x) ONull or) → shaped h or r fr → a ∉ fr →
  let h' := <[a := mkNode (Some x) (ORef (length h)) or]>
              (h ++ [mkNode (Some v) ONull ONull]) in
  shaped h' (ORef a) (Nd (Some x) (Nd (Some v) Nil Nil) r)
    ({[a]} ∪ {[length h]} ∪ fr) ∧
  frame h h' ({[a]} ∪ fr).
Proof.
  intros Ha Hr Hnin h'.
  pose proof (lookup_lt_Some _ _ _ Ha) as Hlt.
  assert (Hfr : frame h h' {[a]}).
  { split; [unfold h'; rewrite length_insert, length_app; simpl; lia|].
    intros b Hb Hne. unfold h'.
    rewrite list_lookup_insert_ne by set_solver. by rewrite lookup_app_l. }
  assert (Hfresh : length h ∉ fr).
  { intros Hin. apply (shaped_bound _ _ _ _ _ Hr) in Hin. lia. }
  split.
  - apply (shaped_node _ _ _ (ORef (length h)) or).
    + unfold h'. rewrite list_lookup_insert_eq; [done|]. rewrite length_app. lia.
    + eapply shaped_agree; [apply shaped_new_leaf|].
      intros b ->%elem_of_singleton. unfold h'.
      by rewrite list_lookup_insert_ne by lia.
    + eapply shaped_frame; [done|exact Hfr|set_solver].
    + set_solver by lia.
    + set_solver.
  - destruct Hfr as [Hlen Hfr]. split; [done|].
    intros b Hb Hne. apply Hfr; [done|set_solver].
Qed.

(** Hanging a new leaf on the free right side of a node. *)
Lemma shaped_attach_right h a x ol l fl v :
  h !! a = Some (mkNode (Some x) ol ONull) → shaped h ol l fl → a ∉ fl →
  let h' := <[a := mkNode (Some x) ol (ORef (length h))]>
              (h ++ [mkNode (Some v) ONull ONull]) in
  shaped h' (ORef a) (Nd (Some x) l (Nd (Some v) Nil Nil))
    ({[a]} ∪ fl ∪ {[length h]}) ∧
  frame h h' ({[a]} ∪ fl).
Proof.
  intros Ha Hl Hnin h'.
  pose proof (lookup_lt_Some _ _ _ Ha) as Hlt.
  assert (Hfr : frame h h' {[a]}).
  { split; [unfold h'; rewrite length_insert, length_app; simpl; lia|].
    intros b Hb Hne. unfold h'.
    rewrite list_lookup_insert_ne by set_solver. by rewrite lookup_app_l. }
  assert (Hfresh : length h ∉ fl).
  { intros Hin. apply (shaped_bound _ _ _ _ _ Hl) in Hin. lia. }
  split.
  - apply (shaped_node _ _ _ ol (ORef (length h))).
    + unfold h'. rewrite list_lookup_insert_eq; [done|]. rewrite length_app. lia.
    + eapply shaped_frame; [done|exact Hfr|set_solver].
    + eapply shaped_agree; [apply shaped_new_leaf|].
      intros b ->%elem_of_singleton. unfold h'.
      by rewrite list_lookup_insert_ne by lia.
    + set_solver by lia.
    + set_solver.
  - destruct Hfr as [Hlen Hfr]. split; [done|].
    intros b Hb Hne. apply Hfr; [done|set_solver].
Qed.

(** A node above a subtree that gained the node at [length h]. *)
Lemma shaped_descend_left h h' a x ol or l' r fl fr :
  h !! a = Some (mkNode (Some x) ol or) →
  shaped h or r fr → a ∉ fl ∪ fr → fl ## fr →
  (∀ b, b ∈ fl → (b < length h)%nat) →
  shaped h' ol l' ({[length h]} ∪ fl) → frame h h' fl →
  shaped h' (ORef a) (Nd (Some x) l' r) ({[a]} ∪ ({[length h]} ∪ fl) ∪ fr) ∧
  frame h h' ({[a]} ∪ fl ∪ fr).
Proof.
  intros Ha Hr Hnin Hdisj Hbound Hl' Hfr.
  pose proof (lookup_lt_Some _ _ _ Ha) as Hlt.
  assert (Hfresh : length h ∉ fr).
  { intros Hin. apply (shaped_bound _ _ _ _ _ Hr) in Hin. lia. }
  split.
  - apply (shaped_node _ _ _ ol or); [|done| | |].
    + destruct Hfr as [_ Hfr]. rewrite Hfr; [done|done|set_solver].
    + eapply shaped_frame; [done|exact Hfr|set_solver].
    + set_solver by lia.
    + set_solver.
  - destruct Hfr as [Hlen Hfr]. split; [done|].
    intros b Hb Hne. apply Hfr; [done|set_solver].
Qed.

Lemma shaped_descend_right h h' a x ol or l r' fl fr :
  h !! a = Some (mkNode (Some x) ol or) →
  shaped h ol l fl → a ∉ fl ∪ fr → fl ## fr →
  (∀ b, b ∈ fr → (b < length h)%nat) →
  shaped h' or r' ({[length h]} ∪ fr) → frame h h' fr →
  shaped h' (ORef a) (Nd (Some x) l r') ({[a]} ∪ fl ∪ ({[length h]} ∪ fr)) ∧
  frame h h' ({[a]} ∪ fl ∪ fr).
Proof.
  intros Ha Hl Hnin Hdisj Hbound Hr' Hfr.
  pose proof (lookup_lt_Some _ _ _ Ha) as Hlt.
  assert (Hfresh : length h ∉ fl).
  { intros Hin. apply (shaped_bound _ _ _ _ _ Hl) in Hin. lia. }
  split.
  - apply (shaped_node _ _ _ ol or); [| |done| |].
    + destruct Hfr as [_ Hfr]. rewrite Hfr; [done|done|set_solver].
    + eapply shaped_frame; [done|exact Hfr|set_solver].
    + set_solver by lia.
    + set_solver.
  - destruct Hfr as [Hlen Hfr]. split; [done|].
    intros b Hb Hne. apply Hfr; [done|set_solver].
Qed.

(* ------------------------------------------------------------------ *)
(** ** Insertion, on trees *)

Lemma ok_pair_eq {A} (d d' : Z) (x : A) : d = d' → Ok (d, x) = Ok (d', x).
Proof. by intros ->. Qed.

Lemma obj_eqb_null o : obj_eqb o ONull = true ↔ o = ONull.
Proof. destruct o; simpl; split; (done || congruence). Qed.

Lemma shaped_root_null h o t fp :
  shaped h o t fp → obj_eqb o ONull = match t with Nil => true | _ => false end.
Proof. by destruct 1. Qed.

Lemma bst_insert_loop_spec v : ∀ t fuel o fp depth h,
  shaped h o t fp → t ≠ Nil → (levels t ≤ fuel)%nat →
  ∃ h' fp',
    bst_insert_loop fuel o v depth h =
      Ok (depth + Z.of_nat (insert_depth (λ _ x, v <? x) 0 t) - 1, h') ∧
    shaped h' o (insert_at (λ _ x, v <? x) 0 t v) fp' ∧
    fp' = {[length h]} ∪ fp ∧
    frame h h' fp.
Proof.
  assert (Hk : ∀ k t, insert_at (λ _ x, v <? x) k t v = insert_at (λ _ x, v <? x) 0 t v
                      ∧ insert_depth (λ _ x, v <? x) k t = insert_depth (λ _ x, v <? x) 0 t).
  { intros k t. revert k. induction t as [| |[x|] l IHl r IHr]; intros k; simpl; try done.
    destruct (v <? x).
    - destruct (IHl (S k)) as [-> ->]. by destruct (IHl 1%nat) as [-> ->].
    - destruct (IHr (S k)) as [-> ->]. by destruct (IHr 1%nat) as [-> ->]. }
  induction t as [| |w l IHl r IHr]; intros fuel o fp depth h Hs Hne Hfuel;
    [done|by inversion Hs|].
  inversion Hs as [|a x ol or l0 r0 fl fr Ha Hl Hr Hnin Hdisj]; subst.
  destruct fuel as [|fuel]; [simpl in Hfuel; lia|]. simpl in Hfuel.
  cbn [bst_insert_loop _value_of _left_of _right_of store_ops store_attr].
  rewrite Ha. cbn [bind value left right int_of insert_at insert_depth].
  destruct (v <? x) eqn:Hvx.
  - rewrite (shaped_root_null _ _ _ _ Hl).
    destruct (Hk 1%nat l) as [-> ->].
    destruct l as [| |lv ll lr].
    + inversion Hl; subst. cbn [_new_node _add_left].
      rewrite lookup_app_l by by eapply lookup_lt_Some.
      rewrite Ha. cbn [bind value right insert_at insert_depth].
      destruct (shaped_attach_left h a x or r fr v Ha Hr ltac:(set_solver)) as [Hs' Hf'].
      eexists _, _. split_and!; [apply ok_pair_eq; lia|exact Hs'|set_unfold; tauto|].
      destruct Hf' as [? Hf']. split; [done|]. intros b ? ?. apply Hf'; [done|set_solver].
    + inversion Hl.
    + destruct (IHl fuel ol fl (depth + 1) h Hl ltac:(done) ltac:(lia))
        as (h' & fp' & -> & Hs' & -> & Hf').
      destruct (shaped_descend_left h h' a x ol or _ r fl fr Ha Hr Hnin Hdisj
                  (λ b Hb, shaped_bound _ _ _ _ b Hl Hb) Hs' Hf') as [Hs'' Hf''].
      eexists _, _. split_and!; [apply ok_pair_eq; lia|exact Hs''|set_unfold; tauto|done].
  - rewrite (shaped_root_null _ _ _ _ Hr).
    destruct (Hk 1%nat r) as [-> ->].
    destruct r as [| |rv rl rr].
    + inversion Hr; subst. cbn [_new_node _add_right].
      rewrite lookup_app_l by by eapply lookup_lt_Some.
      rewrite Ha. cbn [bind value left insert_at insert_depth].
      destruct (shaped_attach_right h a x ol l fl v Ha Hl ltac:(set_solver)) as [Hs' Hf'].
      eexists _, _. split_and!; [apply ok_pair_eq; lia|exact Hs'|set_unfold; tauto|].
      destruct Hf' as [? Hf']. split; [done|]. intros b ? ?. apply Hf'; [done|set_solver].
    + inversion Hr.
    + destruct (IHr fuel or fr (depth + 1) h Hr ltac:(done) ltac:(lia))
        as (h' & fp' & -> & Hs' & -> & Hf').
      destruct (shaped_descend_right h h' a x ol or l _ fl fr Ha Hl Hnin Hdisj
                  (λ b Hb, shaped_bound _ _ _ _ b Hr Hb) Hs' Hf') as [Hs'' Hf''].
      eexists _, _. split_and!; [apply ok_pair_eq; lia|exact Hs''|set_unfold; tauto|done].
Qed.

Lemma ok_triple_eq {A} (d d' : Z) (k k' : nat) (x : A) :
  d = d' → k = k' → Ok (d, k, x) = Ok (d', k', x).
Proof. by intros -> ->. Qed.

Lemma random_insert_loop_spec coin v : ∀ t fuel o fp depth k h,
  shaped h o t fp → t ≠ Nil → (levels t ≤ fuel)%nat →
  ∃ h' fp',
    random_insert_loop coin fuel o v depth k h =
      Ok (depth + Z.of_nat (insert_depth (λ j _, coin j) k t) - 1,
          (k + insert_depth (λ j _, coin j) k t)%nat, h') ∧
    shaped h' o (insert_at (λ j _, coin j) k t v) fp' ∧
    fp' = {[length h]} ∪ fp ∧
    frame h h' fp.
Proof.
  induction t as [| |w l IHl r IHr]; intros fuel o fp depth k h Hs Hne Hfuel;
    [done|by inversion Hs|].
  inversion Hs as [|a x ol or l0 r0 fl fr Ha Hl Hr Hnin Hdisj]; subst.
  destruct fuel as [|fuel]; [simpl in Hfuel; lia|]. simpl in Hfuel.
  cbn [random_insert_loop _left_of _right_of store_ops store_attr].
  rewrite Ha. cbn [bind left right insert_at insert_depth].
  destruct (coin k) eqn:Hck.
  - rewrite (shaped_root_null _ _ _ _ Hl).
    destruct l as [| |lv ll lr].
    + inversion Hl; subst. cbn [_new_node _add_left].
      rewrite lookup_app_l by by eapply lookup_lt_Some.
      rewrite Ha. cbn [bind value right insert_at insert_depth].
      destruct (shaped_attach_left h a x or r fr v Ha Hr ltac:(set_solver)) as [Hs' Hf'].
      eexists _, _. split_and!; [apply ok_triple_eq; lia|exact Hs'|set_unfold; tauto|].
      destruct Hf' as [? Hf']. split; [done|]. intros b ? ?. apply Hf'; [done|set_solver].
    + inversion Hl.
    + destruct (IHl fuel ol fl (depth + 1) (S k) h Hl ltac:(done) ltac:(lia))
        as (h' & fp' & -> & Hs' & -> & Hf').
      destruct (shaped_descend_left h h' a x ol or _ r fl fr Ha Hr Hnin Hdisj
                  (λ b Hb, shaped_bound _ _ _ _ b Hl Hb) Hs' Hf') as [Hs'' Hf''].
      eexists _, _.
      split_and!; [apply ok_triple_eq; lia|exact Hs''|set_unfold; tauto|done].
  - rewrite (shaped_root_null _ _ _ _ Hr).
    destruct r as [| |rv rl rr].
    + inversion Hr; subst. cbn [_new_node _add_right].
      rewrite lookup_app_l by by eapply lookup_lt_Some.
      rewrite Ha. cbn [bind value left insert_at insert_depth].
      destruct (shaped_attach_right h a x ol l fl v Ha Hl ltac:(set_solver)) as [Hs' Hf'].
      eexists _, _. split_and!; [apply ok_triple_eq; lia|exact Hs'|set_unfold; tauto|].
      destruct Hf' as [? Hf']. split; [done|]. intros b ? ?. apply Hf'; [done|set_solver].
    + inversion Hr.
    + destruct (IHr fuel or fr (depth + 1) (S k) h Hr ltac:(done) ltac:(lia))
        as (h' & fp' & -> & Hs' & -> & Hf').
      destruct (shaped_descend_right h h' a x ol or l _ fl fr Ha Hl Hnin Hdisj
                  (λ b Hb, shaped_bound _ _ _ _ b Hr Hb) Hs' Hf') as [Hs'' Hf''].
      eexists _, _.
      split_and!; [apply ok_triple_eq; lia|exact Hs''|set_unfold; tauto|done].
Qed.

(** Insertion adds a level at most, and only when the leaf lands below
    every node. *)
Lemma insert_at_levels gl v : ∀ t k, valid t →
  levels (insert_at gl k t v) = Nat.max (levels t) (S (insert_depth gl k t)).
Proof.
  induction t as [| |[x|] l IHl r IHr]; intros k; simpl; try done.
  - intros (_ & Hl & Hr).
    destruct (gl k x); simpl; [rewrite IHl by done|rewrite IHr by done]; lia.
  - by intros [? _].
Qed.

Lemma insert_depth_le gl : ∀ t k, (insert_depth gl k t ≤ levels t)%nat.
Proof.
  induction t as [| |[x|] l IHl r IHr]; intros k; simpl; try lia.
  destruct (gl k x); [specialize (IHl (S k))|specialize (IHr (S k))]; lia.
Qed.

Lemma insert_at_valid gl v : ∀ t k, valid t → valid (insert_at gl k t v).
Proof.
  induction t as [| |[x|] l IHl r IHr]; intros k; simpl; try done.
  intros (_ & Hl & Hr). destruct (gl k x); simpl; split_and!; auto.
Qed.

Lemma insert_at_bst_step v : ∀ t k,
  insert_at (λ _ x, v <? x) k t v = insert_at (λ _ x, v <? x) 0 t v.
Proof.
  induction t as [| |[x|] l IHl r IHr]; intros k; simpl; try done.
  destruct (v <? x); [by rewrite (IHl (S k)), (IHl 1%nat)
                     |by rewrite (IHr (S k)), (IHr 1%nat)].
Qed.

Lemma insert_at_all_values P v : ∀ t, valid t →
  all_values P (insert_at (λ _ x, v <? x) 0 t v) ↔ all_values P t ∧ P v.
Proof.
  pose proof (insert_at_bst_step v) as Hk.
  induction t as [| |[x|] l IHl r IHr]; simpl.
  - intros _. split; [intros (Hv & _); by split; [|apply Hv]|].
    intros [_ Hv]. split_and!; [by intros ? [= <-]|done..].
  - done.
  - intros (_ & Hl & Hr). destruct (v <? x); simpl; rewrite Hk.
    + rewrite (IHl Hl). tauto.
    + rewrite (IHr Hr). tauto.
  - by intros [? _].
Qed.

(** [_bst_insert] keeps a search tree a search tree. *)
Lemma bst_insert_tree_search t v :
  valid t → search_tree_ties t → search_tree_ties (bst_insert_tree t v).
Proof.
  unfold bst_insert_tree.
  pose proof (insert_at_bst_step v) as Hk.
  induction t as [| |[x|] l IHl r IHr]; simpl; try done.
  intros (_ & Hvl & Hvr) (Hx & Hl & Hr).
  destruct (Hx x eq_refl) as [Hlt Hge].
  destruct (Z.ltb_spec v x); simpl; rewrite Hk.
  - split_and!; [|by apply IHl|done].
    intros ? [= <-]. split; [|done]. by apply insert_at_all_values.
  - split_and!; [|done|by apply IHr].
    intros ? [= <-]. split; [done|]. by apply insert_at_all_values.
Qed.

Lemma insert_at_not_nil gl k t v : insert_at gl k t v ≠ Nil.
Proof. destruct t as [| |[x|] l r]; simpl; try done. by destruct (gl k x). Qed.

(** [_bst_insert] on a tree that owns its nodes: the new tree is
    [bst_insert_tree], the depth returned is the depth of the new leaf. *)
Lemma bst_insert_spec h root t fp v :
  shaped h root t fp → t ≠ Nil →
  ∃ h' fp',
    _bst_insert root v h = Ok (Z.of_nat (insert_depth (λ _ x, v <? x) 0 t), h') ∧
    shaped h' root (bst_insert_tree t v) fp'.
Proof.
  intros Hs Hne. unfold _bst_insert.
  destruct (bst_insert_loop_spec v t (fuel_of h) root fp 1 h Hs Hne)
    as (h' & fp' & Heq & Hs' & _ & _).
  { pose proof (fuel_of_levels _ _ _ (shaped_repr _ _ _ _ Hs)). lia. }
  exists h', fp'. split; [|done]. rewrite Heq. apply ok_pair_eq. lia.
Qed.

Lemma random_insert_spec coin h root t fp v k :
  shaped h root t fp → t ≠ Nil →
  ∃ h' fp' k',
    _random_insert coin root v k h =
      Ok (Z.of_nat (insert_depth (λ j _, coin j) k t), k', h') ∧
    shaped h' root (insert_at (λ j _, coin j) k t v) fp'.
Proof.
  intros Hs Hne. unfold _random_insert.
  destruct (random_insert_loop_spec coin v t (fuel_of h) root fp 1 k h Hs Hne)
    as (h' & fp' & Heq & Hs' & _ & _).
  { pose proof (fuel_of_levels _ _ _ (shaped_repr _ _ _ _ Hs)). lia. }
  exists h', fp', (k + insert_depth (λ j _, coin j) k t)%nat.
  split; [|done]. rewrite Heq. apply ok_triple_eq; lia.
Qed.

(** One insertion under the stopping rule of the generators: either the
    new leaf is at depth [height] and the loop stops, or the tree still has
    fewer than [height + 1] levels. *)
Lemma insert_stop_rule gl k t v (height : Z) :
  valid t → Z.of_nat (levels t) ≤ height →
  let d := Z.of_nat (insert_depth gl k t) in
  let t' := insert_at gl k t v in
  Z.of_nat (levels t') - 1 ≤ height ∧
  ((d =? height) = false → Z.of_nat (levels t') ≤ height).
Proof.
  intros Hv Hl d t'. unfold d, t'. rewrite insert_at_levels by done.
  pose proof (insert_depth_le gl t k).
  split; [lia|]. intros Hd%Z.eqb_neq. lia.
Qed.

Lemma bst_insert_all_spec root height : ∀ rest h t fp,
  shaped h root t fp → t ≠ Nil → search_tree_ties t →
  Z.of_nat (levels t) - 1 ≤ height →
  (rest ≠ [] → Z.of_nat (levels t) ≤ height) →
  ∃ h' t' fp',
    bst_insert_all root height rest h = Ok h' ∧
    shaped h' root t' fp' ∧ t' ≠ Nil ∧ search_tree_ties t' ∧
    Z.of_nat (levels t') - 1 ≤ height.
Proof.
  induction rest as [|v rest IH]; intros h t fp Hs Hne Hst Hl Hl'.
  - exists h, t, fp. done.
  - cbn [bst_insert_all].
    destruct (bst_insert_spec h root t fp v Hs Hne) as (h' & fp' & -> & Hs').
    cbn [bind].
    pose proof (shaped_valid _ _ _ _ Hs) as Hv.
    destruct (insert_stop_rule (λ _ x, v <? x) 0 t v height Hv (Hl' ltac:(done)))
      as [Hle Hlt].
    pose proof (bst_insert_tree_search t v Hv Hst) as Hst'.
    destruct (_ =? height) eqn:Hd.
    + exists h', (bst_insert_tree t v), fp'.
      split_and!; [done|done|apply insert_at_not_nil|done|done].
    + apply (IH h' (bst_insert_tree t v) fp'); [done|apply insert_at_not_nil|done|done|].
      intros _. by apply Hlt.
Qed.

Lemma random_insert_all_spec coin root height : ∀ rest k h t fp,
  shaped h root t fp → t ≠ Nil →
  Z.of_nat (levels t) - 1 ≤ height →
  (rest ≠ [] → Z.of_nat (levels t) ≤ height) →
  ∃ h' t' fp',
    random_insert_all coin root height rest k h = Ok h' ∧
    shaped h' root t' fp' ∧ t' ≠ Nil ∧
    Z.of_nat (levels t') - 1 ≤ height.
Proof.
  induction rest as [|v rest IH]; intros k h t fp Hs Hne Hl Hl'.
  - exists h, t, fp. done.
  - cbn [random_insert_all].
    destruct (random_insert_spec coin h root t fp v k Hs Hne)
      as (h' & fp' & k' & -> & Hs').
    cbn [bind].
    pose proof (shaped_valid _ _ _ _ Hs) as Hv.
    destruct (insert_stop_rule (λ j _, coin j) k t v height Hv (Hl' ltac:(done)))
      as [Hle Hlt].
    destruct (_ =? height) eqn:Hd.
    + exists h', (insert_at (λ j _, coin j) k t v), fp'.
      split_and!; [done|done|apply insert_at_not_nil|done].
    + apply (IH k' h' (insert_at (λ j _, coin j) k t v) fp');
        [done|apply insert_at_not_nil|done|].
      intros _. by apply Hlt.
Qed.

(** What [inspect] reports for a node that unfolds to a valid tree. *)
Lemma inspect_node_summary h a t :
  repr h (ORef a) t → valid t →
  ∃ p, inspect (AObj (ORef a)) h = Ok (p, h) ∧
    height p = Z.of_nat (levels t) - 1 ∧
    is_bst p = deep bst_ok t.
Proof.
  intros Hr Hv. eexists. split; [by apply inspect_node|].
  assert (Hne : t ≠ Nil) by by inversion Hr.
  pose proof (fuel_of_levels _ _ _ Hr) as Hfuel.
  assert (Hf : Forall (λ c, valid c ∧ c ≠ Nil) [t]) by by repeat constructor.
  assert (Hn : (forest_levels [t] ≤ fuel_of h)%nat).
  { unfold forest_levels. simpl. lia. }
  cbn [properties_of height is_bst]. split.
  - rewrite scan_levels_depth by done. unfold forest_levels. simpl. lia.
  - destruct (scan_levels_flags (fuel_of h) scan_init [t] Hf Hn) as (-> & _).
    simpl. by rewrite andb_true_r.
Qed.

Lemma sample_cons height sampled :
  0 ≤ height → is_sample (count height) sampled →
  ∃ v0 rest, sampled = v0 :: rest ∧ (rest ≠ [] → 1 ≤ height).
Proof.
  intros Hh (Hlen & _ & _). unfold count in Hlen.
  destruct sampled as [|v0 rest].
  - simpl in Hlen. rewrite Z.pow_add_r in Hlen by lia.
    assert (0 < 2 ^ height) by (apply Z.pow_pos_nonneg; lia). lia.
  - exists v0, rest. split; [done|]. intros Hne.
    destruct (decide (height = 0)) as [->|]; [|lia].
    destruct rest; [done|]. simpl in Hlen. lia.
Qed.

(** The tree of [bst(height)]: a search tree of at most [height + 1]
    levels, owned by its root. *)
Lemma bst_spec sampled height h :
  0 ≤ height → is_sample (count height) sampled →
  ∃ a h' t fp,
    bst sampled height h = Ok (ORef a, h') ∧
    shaped h' (ORef a) t fp ∧ t ≠ Nil ∧ search_tree_ties t ∧
    Z.of_nat (levels t) - 1 ≤ height.
Proof.
  intros Hh Hs. destruct (sample_cons _ _ Hh Hs) as (v0 & rest & -> & Hrest).
  unfold bst, _generate_values. destruct (Z.ltb_spec height 0); [lia|].
  cbn [bind _new_node].
  destruct (bst_insert_all_spec (ORef (length h)) height rest
              (h ++ [mkNode (Some v0) ONull ONull]) (Nd (Some v0) Nil Nil)
              {[length h]}) as (h' & t' & fp' & -> & Hs' & Hne & Hst & Hl).
  - apply shaped_new_leaf.
  - done.
  - simpl. split_and!; done.
  - simpl. lia.
  - intros Hne. simpl. specialize (Hrest Hne). lia.
  - exists (length h), h', t', fp'. done.
Qed.

Lemma tree_random_spec coin sampled height h :
  0 ≤ height → is_sample (count height) sampled →
  ∃ a h' t fp,
    tree coin sampled height false h = Ok (ORef a, h') ∧
    shaped h' (ORef a) t fp ∧ t ≠ Nil ∧
    Z.of_nat (levels t) - 1 ≤ height.
Proof.
  intros Hh Hs. destruct (sample_cons _ _ Hh Hs) as (v0 & rest & -> & Hrest).
  unfold tree, _generate_values. destruct (Z.ltb_spec height 0); [lia|].
  cbn [bind _new_node].
  destruct (random_insert_all_spec coin (ORef (length h)) height rest 0
              (h ++ [mkNode (Some v0) ONull ONull]) (Nd (Some v0) Nil Nil)
              {[length h]}) as (h' & t' & fp' & -> & Hs' & Hne & Hl).
  - apply shaped_new_leaf.
  - done.
  - simpl. lia.
  - intros Hne. simpl. specialize (Hrest Hne). lia.
  - exists (length h), h', t', fp'. done.
Qed.

(* ------------------------------------------------------------------ *)
(** ** The generators *)

(** C7: the tree of [bst(height)] has [is_bst] true for [inspect] (it is a
    search tree); [_bst_insert] hangs the new value where the descent
    "left if the value is less than the node's value, else right" ends. *)
Theorem bst_is_bst (sampled : list Z) (hgt : Z) (h : store) :
  0 ≤ hgt → is_sample (count hgt) sampled →
  (∃ root h' p t,
     bst sampled hgt h = Ok (root, h') ∧
     inspect (AObj root) h' = Ok (p, h') ∧ is_bst p = true ∧
     repr h' root t ∧ search_tree_ties t) ∧
  (∀ x l r v,
     bst_insert_tree (Nd (Some x) l r) v =
     if v <? x then Nd (Some x) (bst_insert_tree l v) r
     else Nd (Some x) l (bst_insert_tree r v)) ∧
  (∀ v, bst_insert_tree Nil v = Nd (Some v) Nil Nil) ∧
  (∀ h0 root t fp v, shaped h0 root t fp → t ≠ Nil →
     ∃ depth h1 fp1,
       _bst_insert root v h0 = Ok (depth, h1) ∧
       shaped h1 root (bst_insert_tree t v) fp1).
Proof.
  intros Hh Hs. split_and!.
  - destruct (bst_spec sampled hgt h Hh Hs) as (a & h' & t & fp & Hb & Hsh & Hne & Hst & _).
    pose proof (shaped_repr _ _ _ _ Hsh) as Hr.
    pose proof (shaped_valid _ _ _ _ Hsh) as Hv.
    destruct (inspect_node_summary h' a t Hr Hv) as (p & Hi & _ & Hbst).
    exists (ORef a), h', p, t. split_and!; [done..| |done|done].
    rewrite Hbst. by apply search_tree_ties_deep_bst_ok.
  - intros x l r v. unfold bst_insert_tree. cbn [insert_at].
    by rewrite !(insert_at_bst_step v _ 1%nat).
  - done.
  - intros h0 root t fp v Hsh Hne.
    destruct (bst_insert_spec h0 root t fp v Hsh Hne) as (h1 & fp1 & Hi & Hsh').
    eauto.
Qed.

Lemma bst_is_bst_witness :
  (∃ root h' p t,
     bst [1; 2; 0] 1 [] = Ok (root, h') ∧
     inspect (AObj root) h' = Ok (p, h') ∧ is_bst p = true ∧
     repr h' root t ∧ search_tree_ties t) ∧
  (∀ x l r v,
     bst_insert_tree (Nd (Some x) l r) v =
     if v <? x then Nd (Some x) (bst_insert_tree l v) r
     else Nd (Some x) l (bst_insert_tree r v)) ∧
  (∀ v, bst_insert_tree Nil v = Nd (Some v) Nil Nil) ∧
  (∀ h0 root t fp v, shaped h0 root t fp → t ≠ Nil →
     ∃ depth h1 fp1,
       _bst_insert root v h0 = Ok (depth, h1) ∧
       shaped h1 root (bst_insert_tree t v) fp1).
Proof.
  apply (bst_is_bst [1; 2; 0] 1 []).
  - lia.
  - split_and!; [reflexivity|apply (bool_decide_unpack _); by vm_compute|].
    repeat constructor; lia.
Defined.

(** C6: the trees of [tree(h)] and [bst(h)] have height at most [h]; the
    trees of [tree(h, balanced=True)], [heap(h)] and [heap(h, max=True)]
    have height [h]. *)
Theorem generated_height (coin : nat → bool) (heapify : list Z → list Z)
    (sampled : list Z) (hgt : Z) (h : store) :
  heapify_contract heapify → 0 ≤ hgt → is_sample (count hgt) sampled →
  (∃ root h' p, tree coin sampled hgt false h = Ok (root, h') ∧
     inspect (AObj root) h' = Ok (p, h') ∧ height p ≤ hgt) ∧
  (∃ root h' p, tree coin sampled hgt true h = Ok (root, h') ∧
     inspect (AObj root) h' = Ok (p, h') ∧ height p = hgt) ∧
  (∃ root h' p, bst sampled hgt h = Ok (root, h') ∧
     inspect (AObj root) h' = Ok (p, h') ∧ height p ≤ hgt) ∧
  (∃ root h' p, heap heapify sampled hgt false h = Ok (root, h') ∧
     inspect (AObj root) h' = Ok (p, h') ∧ height p = hgt) ∧
  (∃ root h' p, heap heapify sampled hgt true h = Ok (root, h') ∧
     inspect (AObj root) h' = Ok (p, h') ∧ height p = hgt).
Proof.
  intros Hheap Hh Hs.
  pose proof Hs as (Hlen & _ & _). apply count_nat in Hlen; [|done].
  assert (Hfull : ∀ v : list Z, length v = length sampled →
            ∃ root h' p, _build_tree (Some <$> v) h = Ok (root, h') ∧
              inspect (AObj root) h' = Ok (p, h') ∧ height p = hgt).
  { intros v Hv.
    destruct (build_full_list (Z.to_nat hgt) (Some <$> v) h)
      as (a & h' & p & Hb & _ & Hi & Hp & _).
    { apply full_fmap_Some. by rewrite Hv. }
    exists (ORef a), h', p. split_and!; [done..|]. rewrite Hp. lia. }
  split_and!.
  - destruct (tree_random_spec coin sampled hgt h Hh Hs)
      as (a & h' & t & fp & Hb & Hsh & Hne & Hl).
    destruct (inspect_node_summary h' a t (shaped_repr _ _ _ _ Hsh)
                (shaped_valid _ _ _ _ Hsh)) as (p & Hi & Hp & _).
    exists (ORef a), h', p. split_and!; [done..|]. by rewrite Hp.
  - unfold tree, _generate_values. destruct (Z.ltb_spec hgt 0); [lia|].
    cbn [bind]. by apply Hfull.
  - destruct (bst_spec sampled hgt h Hh Hs)
      as (a & h' & t & fp & Hb & Hsh & Hne & _ & Hl).
    destruct (inspect_node_summary h' a t (shaped_repr _ _ _ _ Hsh)
                (shaped_valid _ _ _ _ Hsh)) as (p & Hi & Hp & _).
    exists (ORef a), h', p. split_and!; [done..|]. by rewrite Hp.
  - unfold heap, _generate_values. destruct (Z.ltb_spec hgt 0); [lia|].
    cbn [bind]. apply Hfull. destruct (Hheap sampled) as [_ Hperm]. by rewrite Hperm.
  - unfold heap, _generate_values. destruct (Z.ltb_spec hgt 0); [lia|].
    cbn [bind]. apply Hfull. destruct (Hheap (Z.opp <$> sampled)) as [_ Hperm].
    by rewrite length_fmap, Hperm, length_fmap.
Qed.

Lemma generated_height_witness :
  (∃ root h' p, tree Nat.even [2; 0; 1] 1 false [] = Ok (root, h') ∧
     inspect (AObj root) h' = Ok (p, h') ∧ height p ≤ 1) ∧
  (∃ root h' p, tree Nat.even [2; 0; 1] 1 true [] = Ok (root, h') ∧
     inspect (AObj root) h' = Ok (p, h') ∧ height p = 1) ∧
  (∃ root h' p, bst [2; 0; 1] 1 [] = Ok (root, h') ∧
     inspect (AObj root) h' = Ok (p, h') ∧ height p ≤ 1) ∧
  (∃ root h' p, heap (merge_sort Z.le) [2; 0; 1] 1 false [] = Ok (root, h') ∧
     inspect (AObj root) h' = Ok (p, h') ∧ height p = 1) ∧
  (∃ root h' p, heap (merge_sort Z.le) [2; 0; 1] 1 true [] = Ok (root, h') ∧
     inspect (AObj root) h' = Ok (p, h') ∧ height p = 1).
Proof.
  apply (generated_height Nat.even (merge_sort Z.le) [2; 0; 1] 1 []).
  - apply merge_sort_contract.
  - lia.
  - split_and!; [reflexivity|apply (bool_decide_unpack _); by vm_compute|].
    repeat constructor; lia.
Defined.

(* ------------------------------------------------------------------ *)
(** ** [_build_list] in closed form *)

Lemma for_each_build_list ts : ∀ res nn b,
  Forall valid ts →
  for_each build_list_body ts (res, nn, b) =
  Ok (res ++ map root_value ts, nn ++ flat_map slots ts, b || existsb has_child ts).
Proof.
  induction ts as [|t ts IH]; intros res nn b Hts; cbn [for_each map flat_map existsb].
  - by rewrite !app_nil_r, orb_false_r.
  - inversion Hts as [|? ? Ht Hts']; subst.
    destruct t as [| |v l r]; [|done|].
    + cbn [build_list_body is_null btree_ops bind null].
      rewrite IH by done. unfold has_child. simpl.
      by rewrite <- !app_assoc.
    + cbn [build_list_body is_null btree_ops bind _value_of _left_of _right_of].
      rewrite IH by done. unfold has_child. cbn [child slots root_value].
      rewrite <- !app_assoc. cbn [app].
      by destruct l, r, b.
Qed.

Lemma forest_levels_slots ts :
  forest_levels (flat_map slots ts) = pred (forest_levels ts).
Proof.
  induction ts as [|t ts IH]; simpl; [done|].
  change (forest_levels (child t false :: child t true :: flat_map slots ts))
    with (Nat.max (levels (child t false))
            (Nat.max (levels (child t true)) (forest_levels (flat_map slots ts)))).
  rewrite IH. unfold forest_levels. destruct t; simpl; lia.
Qed.

Lemma valid_slots ts : Forall valid ts → Forall valid (flat_map slots ts).
Proof.
  induction 1 as [|t ts Ht _ IH]; simpl; [constructor|].
  destruct t as [| |v l r]; simpl in *; [by repeat constructor|done|].
  destruct Ht as (_ & Hl & Hr). by repeat constructor.
Qed.

Lemma has_child_levels ts :
  Forall valid ts → existsb has_child ts = true ↔ (2 ≤ forest_levels ts)%nat.
Proof.
  unfold forest_levels.
  induction 1 as [|t ts Ht _ IH]; simpl; [split; [done|lia]|].
  rewrite orb_true_iff, IH.
  assert (has_child t = true ↔ (2 ≤ levels t)%nat) as ->; [|lia].
  destruct t as [| |v l r]; simpl in *; [split; [done|lia]|done|].
  destruct Ht as (_ & Hl & Hr). unfold has_child. simpl.
  destruct l, r; simpl in *; try done; split; (done || lia).
Qed.

(** With one unit of fuel per level [_build_list]'s loop returns the
    values of all levels. *)
Lemma build_list_levels_valid fuel : ∀ res ts,
  Forall valid ts → (1 ≤ fuel)%nat → (forest_levels ts ≤ fuel)%nat →
  build_list_levels fuel res ts =
  Ok (res ++ level_values (pred (forest_levels ts)) ts).
Proof.
  induction fuel as [|fuel IH]; intros res ts Hv H1 Hl; [lia|].
  cbn [build_list_levels]. rewrite for_each_build_list by done.
  cbn [bind orb app].
  pose proof (has_child_levels ts Hv) as Hc.
  destruct (existsb has_child ts).
  - assert (2 ≤ forest_levels ts)%nat by by apply Hc.
    rewrite IH; [|by apply valid_slots|lia|rewrite forest_levels_slots; lia].
    rewrite forest_levels_slots.
    destruct (forest_levels ts) as [|[|n]]; [lia|lia|].
    cbn [pred level_values]. by rewrite <- app_assoc.
  - assert (¬ 2 ≤ forest_levels ts)%nat by (intros ?%Hc; done).
    destruct (forest_levels ts) as [|[|n]]; [| |lia]; cbn [pred level_values];
      by rewrite app_nil_r.
Qed.

Lemma build_list_valid fuel t :
  valid t → (levels t < fuel)%nat → build_list fuel t = Ok (flat t).
Proof.
  intros Hv Hl. unfold build_list.
  rewrite build_list_levels_valid; [|by repeat constructor|lia|].
  - cbn [bind app]. unfold flat, forest_levels. simpl. by rewrite Nat.max_0_r.
  - unfold forest_levels. simpl. lia.
Qed.

Lemma build_list_store h root t :
  repr h root t → valid t → _build_list root h = Ok (flat t).
Proof.
  intros Hr Hv. unfold _build_list.
  rewrite (build_list_repr h _ root t Hr).
  apply build_list_valid; [done|by eapply fuel_of_levels].
Qed.

(* ------------------------------------------------------------------ *)
(** ** Positions and paths *)

Lemma pos_from_app i p q : pos_from i (p ++ q) = pos_from (pos_from i p) q.
Proof. revert i. induction p as [|d p IH]; intros i; simpl; [done|]. apply IH. Qed.

Lemma tsub_app t p q : tsub t (p ++ q) = tsub (tsub t p) q.
Proof. revert t. induction p as [|d p IH]; intros t; simpl; [done|]. apply IH. Qed.

Lemma tsub_nil p : tsub Nil p = Nil.
Proof. induction p as [|d p IH]; simpl; done. Qed.

Lemma tsub_valid t p : valid t → valid (tsub t p).
Proof.
  revert t. induction p as [|d p IH]; intros t Hv; simpl; [done|].
  apply IH. destruct t as [| |v l r]; simpl in *; [done|done|].
  destruct Hv as (_ & Hl & Hr). by destruct d.
Qed.

Lemma tsub_levels t p : tsub t p ≠ Nil → valid t → (length p < levels t)%nat.
Proof.
  revert t. induction p as [|d p IH]; intros t Hne Hv; simpl in *.
  - destruct t; simpl in *; [done|done|lia].
  - destruct t as [| |v l r]; simpl in *.
    + by rewrite tsub_nil in Hne.
    + done.
    + destruct Hv as (_ & Hl & Hr).
      destruct d; [specialize (IH r Hne Hr)|specialize (IH l Hne Hl)]; lia.
Qed.

Lemma pos_from_ge i p : (i ≤ pos_from i p)%nat.
Proof.
  revert i. induction p as [|d p IH]; intros i; simpl; [done|].
  specialize (IH (step i d)). unfold step in *. destruct d; lia.
Qed.

Lemma pos_from_bounds p : ∀ i,
  ((i + 1) * 2 ^ length p ≤ pos_from i p + 1 < (i + 2) * 2 ^ length p)%nat.
Proof.
  induction p as [|d p IH]; intros i; simpl; [lia|].
  specialize (IH (step i d)). unfold step in *.
  pose proof (pow2_pos (length p)). destruct d; nia.
Qed.

(** Every position is reached by a path. *)
Lemma path_to i : ∃ p, pos_from 0 p = i.
Proof.
  induction (lt_wf i) as [i _ IH].
  destruct (decide (i = 0%nat)) as [->|Hi]; [by exists []|].
  destruct (IH ((i + 1) / 2 - 1)%nat) as [p Hp]; [apply parent_lt; lia|].
  destruct (Nat.odd i) eqn:Ho.
  - exists (p ++ [false]). rewrite pos_from_app, Hp. cbn [pos_from step].
    pose proof (parent_odd i Ho). lia.
  - exists (p ++ [true]). rewrite pos_from_app, Hp. cbn [pos_from step].
    pose proof (parent_even i ltac:(lia) Ho). lia.
Qed.

Lemma parent_step i d : ((step i d + 1) / 2 - 1)%nat = i.
Proof.
  unfold step. destruct d.
  - replace (2 * i + 2 + 1)%nat with (1 + (i + 1) * 2)%nat by lia.
    rewrite Nat.div_add by done. simpl. lia.
  - replace (2 * i + 1 + 1)%nat with ((i + 1) * 2)%nat by lia.
    rewrite Nat.div_mul by done. lia.
Qed.

Lemma slots_tsub t ps :
  flat_map slots (map (tsub t) ps) = map (tsub t) (flat_map extend ps).
Proof.
  induction ps as [|p ps IH]; simpl; [done|].
  rewrite IH, !tsub_app. done.
Qed.

Lemma level_values_paths t n : ∀ ps,
  level_values n (map (tsub t) ps) =
  map (λ p, root_value (tsub t p)) (paths_from n ps).
Proof.
  induction n as [|n IH]; intros ps; simpl.
  - by rewrite !app_nil_r, map_map.
  - by rewrite slots_tsub, IH, map_app, map_map.
Qed.

Lemma seq_double m : ∀ a,
  flat_map (λ i, [2 * i + 1; 2 * i + 2])%nat (seq a m) = seq (2 * a + 1) (2 * m).
Proof.
  induction m as [|m IH]; intros a; simpl; [done|].
  rewrite IH. replace (m + S (m + 0))%nat with (S (2 * m)) by lia. simpl.
  do 3 f_equal; lia.
Qed.

Lemma pos_extend ps :
  map (pos_from 0) (flat_map extend ps) =
  flat_map (λ i, [2 * i + 1; 2 * i + 2])%nat (map (pos_from 0) ps).
Proof.
  induction ps as [|p ps IH]; simpl; [done|].
  rewrite IH, !pos_from_app. done.
Qed.

(** Breadth-first order lists the positions in increasing order. *)
Lemma pos_paths_from n : ∀ ps m,
  (1 ≤ m)%nat → map (pos_from 0) ps = seq (m - 1) m →
  map (pos_from 0) (paths_from n ps) = seq (m - 1) (m * (2 ^ S n - 1)).
Proof.
  induction n as [|n IH]; intros ps m Hm Hps; cbn [paths_from].
  - rewrite app_nil_r, Hps. f_equal. simpl. lia.
  - rewrite map_app, Hps.
    rewrite (IH (flat_map extend ps) (2 * m)%nat); [|lia|].
    + replace (2 * m - 1)%nat with (m - 1 + m)%nat by lia.
      rewrite <- seq_app. f_equal.
      rewrite !Nat.pow_succ_r'. pose proof (pow2_pos n). nia.
    + rewrite pos_extend, Hps, seq_double. f_equal. lia.
Qed.

Lemma paths_from_complete n : ∀ ps q r,
  q ∈ ps → (length r ≤ n)%nat → q ++ r ∈ paths_from n ps.
Proof.
  induction n as [|n IH]; intros ps q r Hq Hr; cbn [paths_from].
  - destruct r; [|simpl in Hr; lia]. rewrite !app_nil_r. done.
  - apply elem_of_app. destruct r as [|d r]; [left; by rewrite app_nil_r|].
    right. replace (q ++ d :: r) with ((q ++ [d]) ++ r) by by rewrite <- app_assoc.
    apply IH; [|simpl in Hr; lia].
    apply list_elem_of_In, in_flat_map. exists q. split; [by apply list_elem_of_In|].
    destruct d; simpl; auto.
Qed.

(** The values of the first [n + 1] levels of [t], by position. *)
Lemma level_values_at t n p :
  (length p ≤ n)%nat →
  at0 (level_values n [t]) (pos_from 0 p) = root_value (tsub t p).
Proof.
  intros Hp.
  change [t] with (map (tsub t) [[]]). rewrite level_values_paths.
  pose proof (paths_from_complete n [[]] [] p ltac:(by apply list_elem_of_here) Hp) as Hin.
  simpl in Hin. apply list_elem_of_lookup in Hin as [i Hi].
  pose proof (pos_paths_from n [[]] 1 ltac:(lia) eq_refl) as Hpos.
  assert (Hpi : map (pos_from 0) (paths_from n [[]]) !! i = Some (pos_from 0 p)).
  { change (map (pos_from 0) (paths_from n [[]])) with (pos_from 0 <$> paths_from n [[]]).
    by rewrite list_lookup_fmap, Hi. }
  rewrite Hpos in Hpi. apply lookup_seq in Hpi as [-> _]. simpl.
  unfold at0.
  change (map (λ p0, root_value (tsub t p0)) (paths_from n [[]]))
    with ((λ p0, root_value (tsub t p0)) <$> paths_from n [[]]).
  rewrite list_lookup_fmap, Hi. done.
Qed.

Lemma level_values_length n : ∀ ts,
  length (level_values n ts) = (length ts * (2 ^ S n - 1))%nat.
Proof.
  induction n as [|n IH]; intros ts; cbn [level_values].
  - rewrite app_nil_r, length_map. simpl. lia.
  - rewrite length_app, length_map, IH.
    assert (length (flat_map slots ts) = 2 * length ts)%nat as ->.
    { induction ts; simpl; lia. }
    rewrite !Nat.pow_succ_r'. pose proof (pow2_pos n). nia.
Qed.

(* ------------------------------------------------------------------ *)
(** ** Trimming *)

Lemma trim_snoc_none l : trim (l ++ [None]) = trim l.
Proof. unfold trim. by rewrite rev_app_distr. Qed.

Lemma trim_trimmed l : trimmed l → trim l = l.
Proof.
  unfold trimmed, trim. intros Hl.
  destruct l as [|x l _] using rev_ind; [done|].
  rewrite last_snoc in Hl. rewrite rev_app_distr. simpl.
  destruct x as [x|]; [|done]. simpl. by rewrite rev_involutive.
Qed.

Lemma pop_nulls_pad r :
  ∃ pad, r = pad ++ pop_nulls r ∧ Forall (λ x, x = None) pad.
Proof.
  induction r as [|[x|] r (pad & Hr & Hpad)]; simpl.
  - by exists [].
  - by exists [].
  - exists (None :: pad). split; [simpl; by f_equal|by constructor].
Qed.

Lemma trim_pad l : ∃ pad, l = trim l ++ pad ∧ Forall (λ x, x = None) pad.
Proof.
  destruct (pop_nulls_pad (rev l)) as (pad & Hr & Hpad).
  exists (rev pad). split.
  - unfold trim. rewrite <- rev_app_distr, <- Hr. by rewrite rev_involutive.
  - apply list.Forall_forall. intros x Hx%list_elem_of_In%in_rev%list_elem_of_In.
    by eapply list.Forall_forall in Hpad.
Qed.

Lemma pop_nulls_head r : head (pop_nulls r) ≠ Some None.
Proof. induction r as [|[x|] r IH]; simpl; done. Qed.

Lemma trim_is_trimmed l : trimmed (trim l).
Proof.
  unfold trimmed, trim. pose proof (pop_nulls_head (rev l)) as Hh.
  destruct (pop_nulls (rev l)) as [|x r]; [done|].
  simpl. by rewrite last_snoc.
Qed.

Lemma at0_app_pad l pad i :
  Forall (λ x, x = None) pad → at0 (l ++ pad) i = at0 l i.
Proof.
  intros Hpad. unfold at0.
  destruct (decide (i < length l)%nat).
  - by rewrite lookup_app_l.
  - rewrite lookup_app_r by lia. rewrite (lookup_ge_None_2 l) by lia.
    destruct (pad !! (i - length l)%nat) as [x|] eqn:Hx; [|done].
    eapply Forall_lookup_1 in Hpad; [|done]. by subst.
Qed.

Lemma at0_trim l i : at0 (trim l) i = at0 l i.
Proof.
  destruct (trim_pad l) as (pad & Hl & Hpad).
  rewrite Hl at 2. by rewrite at0_app_pad.
Qed.

Lemma map_at0_seq v : map (at0 v) (seq 0 (length v)) = v.
Proof.
  apply list_eq. intros i.
  change (map (at0 v) (seq 0 (length v))) with (at0 v <$> seq 0 (length v)).
  rewrite list_lookup_fmap.
  destruct (decide (i < length v)%nat) as [Hi|Hi].
  - rewrite lookup_seq_lt by done. simpl. unfold at0.
    by destruct (lookup_lt_is_Some_2 v i Hi) as [x ->].
  - rewrite lookup_seq_ge by lia. by rewrite lookup_ge_None_2 by lia.
Qed.

Lemma trim_map_at0 v m :
  (length v ≤ m)%nat → trim (map (at0 v) (seq 0 m)) = trim v.
Proof.
  induction m as [|m IH]; intros Hm.
  - destruct v; [done|simpl in Hm; lia].
  - destruct (decide (length v = S m)) as [<-|Hne].
    + by rewrite map_at0_seq.
    + rewrite seq_S, map_app. simpl. rewrite at0_ge by lia.
      rewrite trim_snoc_none. apply IH. lia.
Qed.

(* ------------------------------------------------------------------ *)
(** ** Round trips *)

Lemma null_descendants v i :
  (∀ j, ¬ orphan v j) → at0 v i = None → ∀ p, at0 v (pos_from i p) = None.
Proof.
  intros Hno Hi p. revert i Hi. induction p as [|d p IH]; intros i Hi; simpl; [done|].
  apply IH. destruct (at0 v (step i d)) eqn:Hs; [|done].
  exfalso. apply (Hno (step i d)). split_and!.
  - unfold step. destruct d; lia.
  - congruence.
  - by rewrite parent_step.
Qed.

(** The tree a well-formed list denotes holds, along every path, the
    value the list holds at the position the path leads to. *)
Lemma subtree_tsub v :
  (∀ j, ¬ orphan v j) →
  ∀ p n i, (length v ≤ i + n)%nat →
    root_value (tsub (subtree n v i) p) = at0 v (pos_from i p).
Proof.
  intros Hno. induction p as [|d p IH]; intros n i Hn.
  - destruct n; simpl; [by rewrite at0_ge by lia|]. by destruct (at0 v i).
  - cbn [tsub pos_from]. destruct n as [|n]; cbn [subtree].
    + simpl. rewrite tsub_nil. simpl. rewrite at0_ge; [done|].
      pose proof (pos_from_ge (step i d) p). unfold step in *. destruct d; lia.
    + destruct (at0 v i) as [x|] eqn:Hx.
      * assert (i < length v)%nat by (apply at0_lt; congruence).
        assert (child (Nd (Some x) (subtree n v (2 * i + 1)) (subtree n v (2 * i + 2))) d
                = subtree n v (step i d)) as -> by by destruct d.
        apply IH. unfold step. destruct d; lia.
      * simpl. rewrite tsub_nil. simpl.
        symmetry. apply (null_descendants v i Hno Hx (d :: p)).
Qed.

Lemma flat_tree_of_list v :
  well_formed v → trimmed v → flat (tree_of_list v) = v.
Proof.
  intros [Hroot Hno] Htr. unfold flat.
  set (t := tree_of_list v). set (n := pred (levels t)).
  change [t] with (map (tsub t) [[]]). rewrite level_values_paths.
  assert (Heq : map (λ p, root_value (tsub t p)) (paths_from n [[]]) =
                map (at0 v) (map (pos_from 0) (paths_from n [[]]))).
  { rewrite map_map. apply map_ext. intros p. unfold t, tree_of_list.
    apply subtree_tsub; [done|lia]. }
  rewrite Heq, (pos_paths_from n [[]] 1) by (done || lia).
  cbn [Nat.sub]. rewrite Nat.mul_1_l.
  rewrite trim_map_at0; [by apply trim_trimmed|].
  destruct (decide (v = [])) as [->|Hne]; [simpl; lia|].
  destruct (path_to (length v - 1)) as [p Hp].
  assert (Hlast : at0 v (length v - 1) ≠ None).
  { unfold trimmed in Htr. rewrite last_lookup in Htr. unfold at0.
    replace (pred (length v)) with (length v - 1)%nat in Htr by lia.
    destruct (v !! (length v - 1)%nat) as [[x|]|] eqn:Hl; [done|done|].
    apply lookup_ge_None in Hl. destruct v; [done|simpl in Hl; lia]. }
  assert (Hsub : tsub t p ≠ Nil).
  { intros Hnil. apply Hlast. rewrite <- Hp.
    rewrite <- (subtree_tsub v Hno p (length v) 0) by lia.
    fold (tree_of_list v). fold t. by rewrite Hnil. }
  apply tsub_levels in Hsub; [|apply subtree_valid].
  pose proof (pos_from_bounds p 0) as [_ Hub]. rewrite Hp in Hub.
  assert (2 ^ S (length p) ≤ 2 ^ S n)%nat.
  { apply Nat.pow_le_mono_r; [done|]. unfold n. lia. }
  rewrite Nat.pow_succ_r' in H. lia.
Qed.

(** C3: building a tree from a well-formed, trimmed list and listing it
    again gives the list back. *)
Theorem build_list_build_tree (v : list (option Z)) (h : store) :
  well_formed v → trimmed v →
  ∃ root h',
    _build_tree v h = Ok (root, h') ∧
    _build_list root h' = Ok v ∧
    convert (AList v) h = Ok (AObj root, h') ∧
    convert (AObj root) h' = Ok (AList v, h').
Proof.
  intros Hwf Htr.
  destruct (build_tree_repr v h Hwf) as (root & h' & Hb & Hr & Hroot & _).
  exists root, h'.
  assert (Hl : _build_list root h' = Ok v).
  { rewrite (build_list_store h' root _ Hr (subtree_valid _ _ _)).
    by rewrite flat_tree_of_list. }
  split_and!; [done|done|by unfold convert; rewrite Hb|].
  unfold convert. destruct (decide (v = [])) as [->|Hne].
  - simpl in Hb. by injection Hb as <- <-.
  - rewrite (Hroot Hne) in *.
    rewrite (validate_tree_store h' _ _ Hr).
    assert (first_offender (tree_of_list v) = None) as ->.
    { apply first_offender_valid, subtree_valid. }
    cbn [verdict bind]. by rewrite Hl.
Qed.

Lemma build_list_build_tree_witness :
  ∃ root h',
    _build_tree [Some 1; Some 2; Some 3; None; Some 4] [] = Ok (root, h') ∧
    _build_list root h' = Ok [Some 1; Some 2; Some 3; None; Some 4] ∧
    convert (AList [Some 1; Some 2; Some 3; None; Some 4]) [] = Ok (AObj root, h') ∧
    convert (AObj root) h' = Ok (AList [Some 1; Some 2; Some 3; None; Some 4], h').
Proof.
  apply build_list_build_tree.
  - split; [done|].
    intros [|[|[|[|[|i]]]]] (Hi & Hx & Hp); vm_compute in Hx, Hp; (done || lia).
  - done.
Defined.

(** The flat list of a valid tree holds, at the position a path leads to,
    the value the tree holds along that path. *)
Lemma flat_at t p : valid t → at0 (flat t) (pos_from 0 p) = root_value (tsub t p).
Proof.
  intros Hv. unfold flat. rewrite at0_trim.
  destruct (decide (length p ≤ pred (levels t))%nat) as [Hp|Hp].
  - by apply level_values_at.
  - assert (tsub t p = Nil) as ->.
    { destruct (tsub t p) eqn:Hs; [done| |].
      - assert (tsub t p ≠ Nil) as Hne by congruence.
        apply tsub_levels in Hne; [lia|done].
      - assert (tsub t p ≠ Nil) as Hne by congruence.
        apply tsub_levels in Hne; [lia|done]. }
    simpl. apply at0_ge. rewrite level_values_length. simpl length.
    pose proof (pos_from_bounds p 0) as [Hlb _].
    assert (2 ^ S (pred (levels t)) ≤ 2 ^ length p)%nat.
    { apply Nat.pow_le_mono_r; [done|lia]. }
    lia.
Qed.

Lemma subtree_embed v : ∀ s n i,
  valid s → (length v ≤ i + n)%nat →
  (∀ p, at0 v (pos_from i p) = root_value (tsub s p)) →
  subtree n v i = s.
Proof.
  induction s as [| |w l IHl r IHr]; intros n i Hv Hn Hat; [|done|].
  - specialize (Hat []). simpl in Hat. destruct n; simpl; [done|]. by rewrite Hat.
  - destruct Hv as (Hw & Hvl & Hvr). destruct w as [x|]; [|done].
    pose proof (Hat []) as Hx. simpl in Hx.
    assert (i < length v)%nat by (apply at0_lt; congruence).
    destruct n as [|n]; [lia|]. simpl. rewrite Hx. f_equal.
    + apply IHl; [done|lia|]. intros p. apply (Hat (false :: p)).
    + apply IHr; [done|lia|]. intros p. apply (Hat (true :: p)).
Qed.

Lemma flat_well_formed t : valid t → t ≠ Nil → well_formed (flat t) ∧ flat t ≠ [].
Proof.
  intros Hv Hne.
  assert (Hroot : at0 (flat t) 0 ≠ None).
  { pose proof (flat_at t [] Hv) as H0. cbn [pos_from tsub] in H0. rewrite H0.
    destruct t as [| |[x|] l r]; simpl in *; try done. by destruct Hv. }
  split; [split; [done|]|].
  - intros i (Hi & Hx & Hp).
    destruct (path_to i) as [p <-].
    destruct p as [|d p _] using rev_ind; [simpl in Hi; lia|].
    rewrite pos_from_app in Hp. cbn [pos_from] in Hp.
    rewrite parent_step in Hp.
    rewrite flat_at in Hx, Hp by done.
    rewrite tsub_app in Hx. cbn [tsub] in Hx.
    pose proof (tsub_valid t p Hv) as Hvp.
    destruct (tsub t p) as [| |[x|] l r]; simpl in *; try done.
    by destruct Hvp.
  - intros Hnil. rewrite Hnil in Hroot. done.
Qed.

Lemma tree_of_flat t : valid t → tree_of_list (flat t) = t.
Proof.
  intros Hv. unfold tree_of_list. apply subtree_embed; [done|lia|].
  intros p. by apply flat_at.
Qed.

(** C10: listing a tree that passes validation and building a tree from
    the list gives a tree of the same shape with the same values. *)
Theorem build_tree_build_list (h : store) (a : nat) (t : btree) :
  repr h (ORef a) t → _validate_tree (ORef a) h = Ok (tt, h) →
  ∃ values root' h',
    convert (AObj (ORef a)) h = Ok (AList values, h) ∧
    _build_list (ORef a) h = Ok values ∧
    convert (AList values) h = Ok (AObj root', h') ∧
    _build_tree values h = Ok (root', h') ∧
    repr h' root' t ∧
    repr h' (ORef a) t.
Proof.
  intros Hr Hval.
  assert (Hv : valid t).
  { apply first_offender_valid.
    rewrite (validate_tree_store h _ t Hr) in Hval.
    destruct (first_offender t) as [o|] eqn:Hf; [|done].
    apply first_offender_offending in Hf.
    by destruct o as [| |[x|] ? ?]. }
  assert (Hne : t ≠ Nil) by by inversion Hr.
  destruct (flat_well_formed t Hv Hne) as [Hwf Hnil].
  destruct (build_tree_repr (flat t) h Hwf) as (root' & h' & Hb & Hr' & _ & Hpre).
  rewrite tree_of_flat in Hr' by done.
  pose proof (build_list_store h _ t Hr Hv) as Hl.
  exists (flat t), root', h'. split_and!; [|done| |done|done|].
  - unfold convert. rewrite Hval. cbn [bind]. by rewrite Hl.
  - unfold convert. by rewrite Hb.
  - by eapply repr_weaken.
Qed.

Lemma build_tree_build_list_witness :
  let h := [mkNode (Some 3) ONull (ORef 1); mkNode (Some 9) ONull ONull] in
  ∃ values root' h',
    convert (AObj (ORef 0)) h = Ok (AList values, h) ∧
    _build_list (ORef 0) h = Ok values ∧
    convert (AList values) h = Ok (AObj root', h') ∧
    _build_tree values h = Ok (root', h') ∧
    repr h' root' (Nd (Some 3) Nil (Nd (Some 9) Nil Nil)) ∧
    repr h' (ORef 0) (Nd (Some 3) Nil (Nd (Some 9) Nil Nil)).
Proof.
  intros h. apply build_tree_build_list.
  - econstructor; [reflexivity|constructor|].
    econstructor; [reflexivity|constructor|constructor].
  - reflexivity.
Defined.

(* ------------------------------------------------------------------ *)
(** ** The first leaf met by [inspect] *)

Lemma fold_scan_node_mld ts : ∀ s,
  Forall (λ c, valid c ∧ c ≠ Nil) ts →
  s_min_leaf_depth (fold_left scan_node ts s) =
  if (s_min_leaf_depth s =? 0) && existsb is_leaf ts then s_current_depth s
  else s_min_leaf_depth s.
Proof.
  induction ts as [|t ts IH]; intros s Hts; cbn [fold_left existsb].
  - by rewrite andb_false_r.
  - inversion Hts as [|? ? [Hv Hne] Hts']; subst. rewrite IH by done.
    destruct t as [| |[x|] l r]; [done|done| |by destruct Hv].
    destruct Hv as (_ & Hl & Hr).
    assert (is_null l && is_null r = is_leaf (Nd (Some x) l r)) as Hleaf.
    { destruct l, r; simpl in *; done. }
    cbn [scan_node s_min_leaf_depth s_current_depth]. rewrite Hleaf.
    destruct (is_leaf (Nd (Some x) l r)); cbn [andb orb].
    + destruct (Z.eqb_spec (s_min_leaf_depth s) 0) as [Hz|Hz]; cbn [andb].
      * destruct (Z.eqb_spec (s_current_depth s) 0) as [Hd|Hd]; [|done].
        by destruct (existsb is_leaf ts).
      * by destruct (Z.eqb_spec (s_min_leaf_depth s) 0).
    + done.
Qed.

(** Once set, [min_leaf_depth] stays. *)
Lemma scan_levels_mld_kept n : ∀ s ts,
  Forall (λ c, valid c ∧ c ≠ Nil) ts → s_min_leaf_depth s ≠ 0 →
  s_min_leaf_depth (scan_levels n s ts) = s_min_leaf_depth s.
Proof.
  induction n as [|n IH]; intros s ts Hts Hm; [by destruct ts|].
  destruct ts as [|t ts]; [done|]. cbn [scan_levels].
  assert (Hstep : s_min_leaf_depth (fold_left scan_node (t :: ts) (next_level s))
                  = s_min_leaf_depth s).
  { rewrite fold_scan_node_mld by done. simpl.
    by destruct (Z.eqb_spec (s_min_leaf_depth s) 0). }
  rewrite IH; [done|by apply flat_map_kids_valid|by rewrite Hstep].
Qed.

Lemma kids_nonempty t : valid t → t ≠ Nil → is_leaf t = false → kids t ≠ [].
Proof.
  destruct t as [| |v l r]; [done|done|]. intros (_ & Hl & Hr) _.
  destruct l, r; simpl in *; done.
Qed.

Lemma kids_shallow t c : valid t → c ∈ kids t → (shallow t ≤ S (shallow c))%nat.
Proof.
  destruct t as [| |v l r]; simpl; [by intros _ ?%elem_of_nil..|].
  intros (_ & Hl & Hr) [Hc|Hc]%elem_of_app.
  - destruct l; simpl in Hc; [by apply elem_of_nil in Hc|done|].
    apply list_elem_of_singleton in Hc as ->. destruct r; simpl in *; lia.
  - destruct r; simpl in Hc; [by apply elem_of_nil in Hc|done|].
    apply list_elem_of_singleton in Hc as ->. destruct l; simpl in *; lia.
Qed.

Lemma is_leaf_shallow t : is_leaf t = true → shallow t = 1%nat.
Proof. destruct t as [| |v [] []]; simpl; done. Qed.

Lemma shallow_lower w l r m :
  l ≠ Nil ∨ r ≠ Nil →
  (l ≠ Nil → (m ≤ shallow l)%nat) → (r ≠ Nil → (m ≤ shallow r)%nat) →
  (S m ≤ shallow (Nd w l r))%nat.
Proof.
  intros Hne Hl Hr. destruct l, r; simpl in *;
    try (specialize (Hl ltac:(done))); try (specialize (Hr ltac:(done)));
    try lia.
  by destruct Hne.
Qed.

Lemma shallow_pos t : valid t → t ≠ Nil → (1 ≤ shallow t)%nat.
Proof. destruct t; simpl; (done || lia). Qed.

(** Below the root, [min_leaf_depth] ends no smaller than the depth of
    the nearest leaf. *)
Lemma scan_levels_mld n : ∀ s ts m,
  Forall (λ c, valid c ∧ c ≠ Nil) ts → ts ≠ [] → (forest_levels ts ≤ n)%nat →
  s_min_leaf_depth s = 0 → 0 ≤ s_current_depth s →
  (∀ t, t ∈ ts → (m ≤ shallow t)%nat) → (1 ≤ m)%nat →
  s_current_depth s + Z.of_nat m ≤ s_min_leaf_depth (scan_levels n s ts).
Proof.
  induction n as [|n IH]; intros s ts m Hts Hne Hn Hm Hd Hsh Hm1.
  - destruct ts as [|t ts]; [done|]. exfalso.
    inversion Hts as [|? ? [Htv Htn] _]; subst.
    unfold forest_levels in Hn. destruct t; simpl in *; try done; lia.
  - destruct ts as [|t ts]; [done|]. cbn [scan_levels].
    set (s1 := fold_left scan_node (t :: ts) (next_level s)).
    assert (Hd1 : s_current_depth s1 = s_current_depth s + 1).
    { unfold s1. by rewrite fold_scan_node_depth. }
    assert (Hmld : s_min_leaf_depth s1 =
                   if existsb is_leaf (t :: ts) then s_current_depth s + 1 else 0).
    { unfold s1. rewrite fold_scan_node_mld by done.
      cbn [next_level s_min_leaf_depth s_current_depth]. rewrite Hm. done. }
    pose proof (flat_map_kids_valid _ Hts) as Hk.
    destruct (existsb is_leaf (t :: ts)) eqn:Hex.
    + rewrite scan_levels_mld_kept; [|done|lia].
      apply existsb_exists in Hex as (u & Hu%list_elem_of_In & Hleaf).
      specialize (Hsh u Hu). rewrite (is_leaf_shallow u Hleaf) in Hsh. lia.
    + assert (Hnl : ∀ u, u ∈ t :: ts → is_leaf u = false).
      { intros u Hu. destruct (is_leaf u) eqn:Hl; [|done].
        assert (existsb is_leaf (t :: ts) = true); [|congruence].
        apply existsb_exists. exists u. by split; [apply list_elem_of_In|]. }
      specialize (IH s1 (flat_map kids (t :: ts)) (Nat.max (pred m) 1) Hk).
      rewrite Hd1 in IH. etrans; [|apply IH].
      * lia.
      * inversion Hts as [|? ? [Htv Htn] _]; subst.
        pose proof (kids_nonempty t Htv Htn (Hnl t ltac:(left))) as Hkt.
        simpl. by destruct (kids t).
      * rewrite forest_levels_flat_map_kids. lia.
      * done.
      * lia.
      * intros c Hc. pose proof Hc as Hc'.
        eapply list.Forall_forall in Hk as [Hcv Hcn]; [|exact Hc].
        pose proof (shallow_pos c Hcv Hcn).
        apply list_elem_of_In, in_flat_map in Hc'.
        destruct Hc' as (u & Hu%list_elem_of_In & Hcu%list_elem_of_In).
        pose proof (Hsh u Hu).
        eapply list.Forall_forall in Hts as [Huv _]; [|exact Hu].
        pose proof (kids_shallow u c Huv Hcu). lia.
      * lia.
Qed.

(** A tree whose nearest leaf is at most one level above its last level
    is height-balanced for [inspect]. *)
Lemma scan_levels_height_balanced n t :
  valid t → t ≠ Nil → (levels t ≤ n)%nat → (levels t ≤ S (shallow t))%nat →
  let s := scan_levels n scan_init [t] in
  (s_current_depth s - s_min_leaf_depth s <? 2) = true.
Proof.
  intros Hv Hne Hn Hsh s. apply Z.ltb_lt.
  assert (Hf : Forall (λ c, valid c ∧ c ≠ Nil) [t]) by by repeat constructor.
  assert (Hd : s_current_depth s = Z.of_nat (levels t) - 1).
  { unfold s. rewrite scan_levels_depth; [|done|unfold forest_levels; simpl; lia].
    unfold forest_levels. simpl. lia. }
  destruct n as [|n]; [destruct t; simpl in *; try done; lia|].
  unfold s in *. cbn [scan_levels] in *.
  set (s1 := fold_left scan_node [t] (next_level scan_init)) in *.
  assert (Hd1 : s_current_depth s1 = 0) by (unfold s1; by rewrite fold_scan_node_depth).
  assert (Hm1 : s_min_leaf_depth s1 = 0).
  { unfold s1. rewrite fold_scan_node_mld by done. simpl. by destruct (is_leaf t). }
  destruct (is_leaf t) eqn:Hleaf.
  - pose proof (is_leaf_shallow t Hleaf) as Hs1. rewrite Hs1 in Hsh.
    assert (s_min_leaf_depth (scan_levels n s1 (flat_map kids [t])) = 0) as ->.
    { destruct t as [| |v [] []]; try done. simpl. by destruct n. }
    pose proof (shallow_pos t Hv Hne). destruct t; simpl in *; try done; lia.
  - pose proof (flat_map_kids_valid _ Hf) as Hk.
    pose proof (scan_levels_mld n s1 (flat_map kids [t]) (Nat.max (pred (shallow t)) 1) Hk)
      as Hmld.
    rewrite Hd1 in Hmld. rewrite Hd.
    assert (0 + Z.of_nat (Nat.max (pred (shallow t)) 1)
            ≤ s_min_leaf_depth (scan_levels n s1 (flat_map kids [t]))); [|lia].
    apply Hmld; [| |done|lia| |lia].
    + pose proof (kids_nonempty t Hv Hne Hleaf). simpl. by destruct (kids t).
    + rewrite forest_levels_flat_map_kids. unfold forest_levels. simpl. lia.
    + intros c Hc. pose proof Hc as Hc'.
      eapply list.Forall_forall in Hk as [Hcv Hcn]; [|exact Hc].
      pose proof (shallow_pos c Hcv Hcn).
      simpl in Hc'. rewrite app_nil_r in Hc'.
      pose proof (kids_shallow t c Hv Hc'). lia.
Qed.

(* ------------------------------------------------------------------ *)
(** ** Lists without [None] *)

Lemma sentinel_free_well_formed v : sentinel_free v → well_formed v.
Proof.
  intros Hfree. split.
  - intros Hne. apply Hfree. destruct v; [done|simpl; lia].
  - intros i (Hi & Hx & Hp). apply at0_lt in Hx.
    apply (Hfree ((i + 1) / 2 - 1)%nat); [|done].
    pose proof (parent_lt i Hi). lia.
Qed.

Section Complete.

Variable v : list (option Z).

Hypothesis Hfree : sentinel_free v.

Lemma under_out i : (length v ≤ i)%nat → under v i = Nil.
Proof.
  intros Hi. unfold under. destruct (length v) eqn:Hl; simpl; [done|].
  by rewrite at0_ge by lia.
Qed.

Lemma under_in i :
  (i < length v)%nat →
  ∃ x, under v i = Nd (Some x) (under v (2 * i + 1)) (under v (2 * i + 2)).
Proof.
  intros Hi. unfold under.
  rewrite (subtree_fuel (length v) (S (length v)) v i) by lia.
  cbn [subtree]. destruct (at0 v i) as [x|] eqn:Hx.
  - by exists x.
  - exfalso. by apply (Hfree i).
Qed.

(** Later positions carry shorter trees... *)
Lemma under_levels_mono k : ∀ i j,
  (length v - i ≤ k)%nat → (i ≤ j)%nat → (levels (under v j) ≤ levels (under v i))%nat.
Proof.
  induction k as [|k IH]; intros i j Hk Hij.
  - rewrite (under_out j) by lia. cbn [levels]. lia.
  - destruct (decide (j < length v)%nat) as [Hj|Hj].
    + destruct (under_in i ltac:(lia)) as [x ->].
      destruct (under_in j Hj) as [y ->]. cbn [levels].
      pose proof (IH (2 * i + 1)%nat (2 * j + 1)%nat ltac:(lia) ltac:(lia)).
      pose proof (IH (2 * i + 2)%nat (2 * j + 2)%nat ltac:(lia) ltac:(lia)).
      lia.
    + rewrite (under_out j) by lia. cbn [levels]. lia.
Qed.

(** ... but only by one level up to the left child's position. *)
Lemma under_levels_near i j :
  (j ≤ 2 * i + 1)%nat → (levels (under v i) ≤ S (levels (under v j)))%nat.
Proof.
  intros Hj. destruct (decide (i < length v)%nat) as [Hi|Hi].
  - destruct (under_in i Hi) as [x ->]. cbn [levels].
    pose proof (under_levels_mono (length v) j (2 * i + 1)%nat ltac:(lia) Hj).
    pose proof (under_levels_mono (length v) j (2 * i + 2)%nat ltac:(lia) ltac:(lia)).
    lia.
  - rewrite (under_out i) by lia. cbn [levels]. lia.
Qed.

Lemma under_balanced k : ∀ i,
  (length v - i ≤ k)%nat → balanced_depth (under v i) = Z.of_nat (levels (under v i)).
Proof.
  induction k as [|k IH]; intros i Hk.
  - by rewrite (under_out i) by lia.
  - destruct (decide (i < length v)%nat) as [Hi|Hi].
    + destruct (under_in i Hi) as [x ->]. cbn [balanced_depth levels].
      rewrite !IH by lia.
      pose proof (under_levels_mono (length v) (2 * i + 1)%nat (2 * i + 2)%nat
                    ltac:(lia) ltac:(lia)).
      pose proof (under_levels_near (2 * i + 1)%nat (2 * i + 2)%nat ltac:(lia)).
      destruct (Z.ltb_spec (Z.of_nat (levels (under v (2 * i + 1)))) 0); [lia|].
      destruct (Z.ltb_spec (Z.of_nat (levels (under v (2 * i + 2)))) 0); [lia|].
      destruct (Z.ltb_spec 1 (Z.abs (Z.of_nat (levels (under v (2 * i + 1)))
                                     - Z.of_nat (levels (under v (2 * i + 2)))))); [lia|].
      simpl. lia.
    + by rewrite (under_out i) by lia.
Qed.

(** The nearest leaf under [j] is at most one level above the last level
    under any [i] with [i ≤ j ≤ 2 i]. *)
Lemma under_shallow k : ∀ i j,
  (length v - j ≤ k)%nat → (i ≤ j ≤ 2 * i)%nat → (j < length v)%nat →
  (levels (under v i) ≤ S (shallow (under v j)))%nat.
Proof.
  induction k as [|k IH]; intros i j Hk Hij Hj; [lia|].
  destruct (under_in j Hj) as [y Hy].
  destruct (decide (2 * j + 1 < length v)%nat) as [Hl|Hl].
  - destruct (under_in i ltac:(lia)) as [x Hx].
    pose proof (under_levels_mono (length v) (2 * i + 1)%nat (2 * i + 2)%nat
                  ltac:(lia) ltac:(lia)) as Hmono.
    assert (Hlev : levels (under v i) = S (levels (under v (2 * i + 1)))).
    { rewrite Hx. cbn [levels]. lia. }
    rewrite Hlev, Hy. apply le_n_S.
    etrans; [|apply (shallow_lower _ _ _ (pred (levels (under v (2 * i + 1)))))].
    + lia.
    + left. destruct (under_in (2 * j + 1)%nat Hl) as [yl ->]. done.
    + intros _.
      pose proof (IH (2 * i + 1)%nat (2 * j + 1)%nat ltac:(lia) ltac:(lia) Hl). lia.
    + intros Hne.
      assert (2 * j + 2 < length v)%nat as Hr.
      { destruct (decide (2 * j + 2 < length v)%nat); [done|].
        exfalso. apply Hne, under_out. lia. }
      pose proof (IH (2 * i + 1)%nat (2 * j + 2)%nat ltac:(lia) ltac:(lia) Hr). lia.
  - pose proof (under_levels_near i j ltac:(lia)) as Hnear.
    rewrite Hy in Hnear |- *.
    rewrite (under_out (2 * j + 1)%nat), (under_out (2 * j + 2)%nat) in * by lia.
    cbn [levels shallow] in *. lia.
Qed.

End Complete.

(** C8: a non-empty list without [None] builds a tree that [inspect]
    reports as weight-balanced and height-balanced, the latter being
    [height - min_leaf_depth < 2]; [tree(height, balanced=True)] builds its
    tree from such a list. *)
Theorem complete_build_balanced (values : list (option Z)) (h : store) :
  values ≠ [] → sentinel_free values →
  (∃ root h' p, _build_tree values h = Ok (root, h') ∧
     inspect (AObj root) h' = Ok (p, h') ∧
     is_weight_balanced p = true ∧
     is_height_balanced p = true ∧
     is_height_balanced p = (height p - min_leaf_depth p <? 2)) ∧
  (∀ coin sampled hgt, 0 ≤ hgt →
     tree coin sampled hgt true h = _build_tree (Some <$> sampled) h).
Proof.
  intros Hne Hfree. split.
  - destruct (build_tree_repr values h (sentinel_free_well_formed _ Hfree))
      as (root & h' & Hb & Hr & Hroot & _).
    rewrite (Hroot Hne) in *.
    set (t := tree_of_list values) in *.
    pose proof (subtree_valid (length values) values 0) as Hv. fold (tree_of_list values) in Hv.
    fold t in Hv.
    assert (Hlen : (0 < length values)%nat) by (destruct values; [done|simpl; lia]).
    assert (Htn : t ≠ Nil).
    { unfold t, tree_of_list. fold (under values 0).
      by destruct (under_in values Hfree 0 Hlen) as [x ->]. }
    exists (ORef (length h)), h'. eexists. split; [done|].
    split; [by apply inspect_node|].
    cbn [properties_of is_weight_balanced is_height_balanced height min_leaf_depth].
    split_and!; [| |done].
    + unfold t, tree_of_list. fold (under values 0).
      rewrite (under_balanced values Hfree (length values)) by lia.
      apply Z.leb_le. lia.
    + apply scan_levels_height_balanced; [done|done| |].
      * pose proof (fuel_of_levels _ _ _ Hr). fold t in H. lia.
      * unfold t, tree_of_list. fold (under values 0).
        apply (under_shallow values Hfree (length values)); lia.
  - intros coin sampled hgt Hh. unfold tree, _generate_values.
    by destruct (Z.ltb_spec hgt 0); [lia|].
Qed.

Lemma complete_build_balanced_witness :
  (∃ root h' p, _build_tree [Some 4; Some 9; Some 1; Some 7] [] = Ok (root, h') ∧
     inspect (AObj root) h' = Ok (p, h') ∧
     is_weight_balanced p = true ∧
     is_height_balanced p = true ∧
     is_height_balanced p = (height p - min_leaf_depth p <? 2)) ∧
  (∀ coin sampled hgt, 0 ≤ hgt →
     tree coin sampled hgt true [] = _build_tree (Some <$> sampled) []).
Proof.
  apply complete_build_balanced.
  - done.
  - intros [|[|[|[|i]]]] Hi; simpl in *; (done || lia).
Defined.

(* ------------------------------------------------------------------ *)
(** ** What [inspect] counts *)

Lemma count_nodes_kids t :
  valid t → t ≠ Nil → count_nodes t = S (sum_list_with count_nodes (kids t)).
Proof.
  destruct t as [| |v l r]; [done|done|]. intros (_ & Hl & Hr) _.
  destruct l, r; simpl in *; try done; lia.
Qed.

Lemma count_leaves_kids t :
  valid t → t ≠ Nil →
  count_leaves t =
  ((if is_leaf t then 1 else 0) + sum_list_with count_leaves (kids t))%nat.
Proof.
  destruct t as [| |v l r]; [done|done|]. intros (_ & Hl & Hr) _.
  destruct l, r; simpl in *; try done; lia.
Qed.

Lemma fold_scan_node_count ts : ∀ s,
  Forall (λ c, valid c ∧ c ≠ Nil) ts →
  s_node_count (fold_left scan_node ts s) = s_node_count s + Z.of_nat (length ts) ∧
  s_leaf_count (fold_left scan_node ts s) =
    s_leaf_count s + Z.of_nat (sum_list_with (λ t, if is_leaf t then 1 else 0)%nat ts).
Proof.
  induction ts as [|t ts IH]; intros s Hts; cbn [fold_left length sum_list_with].
  - lia.
  - inversion Hts as [|? ? [Hv Hne] Hts']; subst.
    destruct (IH (scan_node s t) Hts') as [-> ->].
    destruct t as [| |[x|] l r]; [done|done| |by destruct Hv].
    destruct Hv as (_ & Hl & Hr).
    assert (is_null l && is_null r = is_leaf (Nd (Some x) l r)) as Hleaf.
    { destruct l, r; simpl in *; done. }
    cbn [scan_node s_node_count s_leaf_count]. rewrite Hleaf.
    destruct (is_leaf (Nd (Some x) l r)); lia.
Qed.

Lemma sum_list_with_flat_map {A B} (f : B → nat) (g : A → list B) (l : list A) :
  sum_list_with f (flat_map g l) = sum_list_with (λ a, sum_list_with f (g a)) l.
Proof.
  induction l as [|a l IH]; simpl; [done|].
  rewrite sum_list_with_app. lia.
Qed.

(** The pass counts every node once, and every leaf once. *)
Lemma scan_levels_count n : ∀ s ts,
  Forall (λ c, valid c ∧ c ≠ Nil) ts → (forest_levels ts ≤ n)%nat →
  s_node_count (scan_levels n s ts) =
    s_node_count s + Z.of_nat (sum_list_with count_nodes ts) ∧
  s_leaf_count (scan_levels n s ts) =
    s_leaf_count s + Z.of_nat (sum_list_with count_leaves ts).
Proof.
  induction n as [|n IH]; intros s ts Hv Hn.
  - destruct ts as [|t ts]; simpl; [lia|]. exfalso.
    inversion Hv as [|? ? [Htv Htn] _]; subst.
    unfold forest_levels in Hn. destruct t; simpl in *; try done; lia.
  - destruct ts as [|t ts]; [simpl; lia|].
    cbn [scan_levels].
    destruct (IH (fold_left scan_node (t :: ts) (next_level s))
                (flat_map kids (t :: ts))) as [-> ->].
    { by apply flat_map_kids_valid. }
    { rewrite forest_levels_flat_map_kids. lia. }
    destruct (fold_scan_node_count (t :: ts) (next_level s) Hv) as [-> ->].
    cbn [next_level s_node_count s_leaf_count].
    rewrite !sum_list_with_flat_map.
    assert (Hnodes : sum_list_with count_nodes (t :: ts) =
              (length (t :: ts) +
               sum_list_with (λ a, sum_list_with count_nodes (kids a)) (t :: ts))%nat).
    { clear -Hv. induction Hv as [|u us [Hu Hne] _ IHus]; [done|].
      cbn [sum_list_with length]. rewrite (count_nodes_kids u Hu Hne). lia. }
    assert (Hleaves : sum_list_with count_leaves (t :: ts) =
              (sum_list_with (λ t, if is_leaf t then 1 else 0) (t :: ts) +
               sum_list_with (λ a, sum_list_with count_leaves (kids a)) (t :: ts))%nat).
    { clear -Hv. induction Hv as [|u us [Hu Hne] _ IHus]; [done|].
      cbn [sum_list_with]. rewrite (count_leaves_kids u Hu Hne). lia. }
    rewrite Hnodes, Hleaves. lia.
Qed.

(** X1: on a validated tree [inspect] returns, leaves the store as it is,
    and reports as [node_count] the number of nodes of the tree and as
    [leaf_count] the number of its nodes that have no child. *)
Theorem inspect_counts (h : store) (a : nat) (t : btree) :
  repr h (ORef a) t → valid t →
  ∃ p, inspect (AObj (ORef a)) h = Ok (p, h) ∧
    node_count p = Z.of_nat (count_nodes t) ∧
    leaf_count p = Z.of_nat (count_leaves t).
Proof.
  intros Hr Hv. eexists. split; [by apply inspect_node|].
  assert (Hne : t ≠ Nil) by by inversion Hr.
  pose proof (fuel_of_levels _ _ _ Hr) as Hfuel.
  assert (Hf : Forall (λ c, valid c ∧ c ≠ Nil) [t]) by by repeat constructor.
  assert (Hn : (forest_levels [t] ≤ fuel_of h)%nat).
  { unfold forest_levels. simpl. lia. }
  cbn [properties_of node_count leaf_count].
  destruct (scan_levels_count (fuel_of h) scan_init [t] Hf Hn) as [-> ->].
  simpl. split; f_equal; lia.
Qed.

Lemma inspect_counts_witness :
  ∃ p, inspect (AObj (ORef 0))
         [mkNode (Some 3) (ORef 1) (ORef 2); mkNode (Some 1) ONull ONull;
          mkNode (Some 9) ONull ONull] =
       Ok (p, [mkNode (Some 3) (ORef 1) (ORef 2); mkNode (Some 1) ONull ONull;
               mkNode (Some 9) ONull ONull]) ∧
    node_count p = Z.of_nat (count_nodes (Nd (Some 3) (Nd (Some 1) Nil Nil)
                                            (Nd (Some 9) Nil Nil))) ∧
    leaf_count p = Z.of_nat (count_leaves (Nd (Some 3) (Nd (Some 1) Nil Nil)
                                             (Nd (Some 9) Nil Nil))).
Proof.
  apply inspect_counts.
  - repeat econstructor.
  - simpl. split_and!; done.
Defined.

(* ------------------------------------------------------------------ *)
(** ** The least and the greatest value met by [inspect] *)

Lemma least_of_iff (S S' : Z → Prop) m :
  (∀ y, S y ↔ S' y) → least_of S m → least_of S' m.
Proof.
  intros HS. destruct m as [|lo|]; simpl; [done| |].
  - intros [Hlo Hle]. split; [by apply HS|]. intros y Hy. by apply Hle, HS.
  - intros Hno y Hy. by apply (Hno y), HS.
Qed.

Lemma greatest_of_iff (S S' : Z → Prop) m :
  (∀ y, S y ↔ S' y) → greatest_of S m → greatest_of S' m.
Proof.
  intros HS. destruct m as [|hi|]; simpl; [| |done].
  - intros Hno y Hy. by apply (Hno y), HS.
  - intros [Hhi Hle]. split; [by apply HS|]. intros y Hy. by apply Hle, HS.
Qed.

Lemma ext_min_least (S : Z → Prop) m x :
  least_of S m → least_of (λ y, S y ∨ y = x) (ext_min x m).
Proof.
  destruct m as [|lo|]; simpl; [done| |].
  - intros [Hlo Hle]. destruct (Z.ltb_spec lo x); simpl.
    + split; [by left|]. intros y [Hy| ->]; [by apply Hle|lia].
    + split; [by right|]. intros y [Hy| ->]; [|lia]. specialize (Hle y Hy). lia.
  - intros Hno. split; [by right|]. intros y [Hy| ->]; [by destruct (Hno y)|lia].
Qed.

Lemma ext_max_greatest (S : Z → Prop) m x :
  greatest_of S m → greatest_of (λ y, S y ∨ y = x) (ext_max x m).
Proof.
  destruct m as [|hi|]; simpl; [| |done].
  - intros Hno. split; [by right|]. intros y [Hy| ->]; [by destruct (Hno y)|lia].
  - intros [Hhi Hle]. destruct (Z.ltb_spec x hi); simpl.
    + split; [by left|]. intros y [Hy| ->]; [by apply Hle|lia].
    + split; [by right|]. intros y [Hy| ->]; [|lia]. specialize (Hle y Hy). lia.
Qed.

Lemma fold_scan_node_extremes ts : ∀ s (S : Z → Prop),
  Forall (λ c, valid c ∧ c ≠ Nil) ts →
  least_of S (s_min_value s) → greatest_of S (s_max_value s) →
  let S' := λ y, S y ∨ ∃ t, t ∈ ts ∧ root_value t = Some y in
  least_of S' (s_min_value (fold_left scan_node ts s)) ∧
  greatest_of S' (s_max_value (fold_left scan_node ts s)).
Proof.
  induction ts as [|t ts IH]; intros s S Hts Hmin Hmax; cbn [fold_left].
  - split; [eapply least_of_iff; [|exact Hmin]|eapply greatest_of_iff; [|exact Hmax]];
      intros y; split; try tauto; by intros [?|(? & ?%elem_of_nil & _)].
  - inversion Hts as [|? ? [Hv Hne] Hts']; subst.
    destruct t as [| |[x|] l r]; [done|done| |by destruct Hv].
    destruct (IH (scan_node s (Nd (Some x) l r)) (λ y, S y ∨ y = x) Hts') as [Hmin' Hmax'].
    { by apply ext_min_least. }
    { by apply ext_max_greatest. }
    assert (Heq : ∀ y, ((S y ∨ y = x) ∨ ∃ t, t ∈ ts ∧ root_value t = Some y) ↔
                       (S y ∨ ∃ t, t ∈ Nd (Some x) l r :: ts ∧ root_value t = Some y)).
    { intros y. split.
      - intros [[?| ->]|(u & Hu & Hy)]; [by left| |].
        + right. exists (Nd (Some x) l r). split; [by left|done].
        + right. exists u. split; [by right|done].
      - intros [?|(u & Hu & Hy)]; [by left; left|].
        apply elem_of_cons in Hu as [->|Hu].
        + left. right. simpl in Hy. congruence.
        + right. by exists u. }
    cbv zeta in *.
    split; [exact (least_of_iff _ _ _ Heq Hmin')|exact (greatest_of_iff _ _ _ Heq Hmax')].
Qed.

Lemma elem_of_kids v l r c :
  c ∈ kids (Nd v l r) ↔ (c = l ∧ l ≠ Nil) ∨ (c = r ∧ r ≠ Nil).
Proof.
  destruct l, r; cbn; rewrite ?elem_of_cons, ?elem_of_nil; naive_solver.
Qed.

Lemma values_of_kids t y :
  valid t →
  y ∈ values_of t ↔ root_value t = Some y ∨ ∃ c, c ∈ kids t ∧ y ∈ values_of c.
Proof.
  destruct t as [| |v l r]; [| |intros (Hv & Hl & Hr)].
  - intros _. simpl. split; [by intros ?%elem_of_nil|].
    by intros [?|(? & ?%elem_of_nil & _)].
  - done.
  - destruct v as [x|]; [|done]. cbn [values_of root_value].
    change (option_list (Some x)) with [x].
    rewrite !elem_of_app, list_elem_of_singleton. split.
    + intros [->|[Hy|Hy]]; [by left| |]; right.
      * exists l. split; [|done]. apply elem_of_kids. left. split; [done|].
        intros ->. by apply elem_of_nil in Hy.
      * exists r. split; [|done]. apply elem_of_kids. right. split; [done|].
        intros ->. by apply elem_of_nil in Hy.
    + intros [[= ->]|(c & Hc & Hy)]; [by left|].
      apply elem_of_kids in Hc as [[-> _]|[-> _]]; auto.
Qed.

(** The pass ends with the least and the greatest of the values it met. *)
Lemma scan_levels_extremes n : ∀ s ts (S : Z → Prop),
  Forall (λ c, valid c ∧ c ≠ Nil) ts → (forest_levels ts ≤ n)%nat →
  least_of S (s_min_value s) → greatest_of S (s_max_value s) →
  let S' := λ y, S y ∨ ∃ t, t ∈ ts ∧ y ∈ values_of t in
  least_of S' (s_min_value (scan_levels n s ts)) ∧
  greatest_of S' (s_max_value (scan_levels n s ts)).
Proof.
  induction n as [|n IH]; intros s ts S Hv Hn Hmin Hmax.
  - destruct ts as [|t ts]; simpl.
    + split; [eapply least_of_iff; [|exact Hmin]|eapply greatest_of_iff; [|exact Hmax]];
        intros y; split; try tauto; by intros [?|(? & ?%elem_of_nil & _)].
    + exfalso. inversion Hv as [|? ? [Htv Htn] _]; subst.
      unfold forest_levels in Hn. destruct t; simpl in *; try done; lia.
  - destruct ts as [|t ts].
    { simpl. split; [eapply least_of_iff; [|exact Hmin]
                    |eapply greatest_of_iff; [|exact Hmax]];
        intros y; split; try tauto; by intros [?|(? & ?%elem_of_nil & _)]. }
    cbn [scan_levels].
    destruct (fold_scan_node_extremes (t :: ts) (next_level s) S Hv Hmin Hmax)
      as [Hmin1 Hmax1].
    destruct (IH _ (flat_map kids (t :: ts)) _ (flat_map_kids_valid _ Hv)
                ltac:(rewrite forest_levels_flat_map_kids; lia) Hmin1 Hmax1)
      as [Hmin2 Hmax2].
    assert (Heq : ∀ y,
      ((S y ∨ ∃ u, u ∈ t :: ts ∧ root_value u = Some y) ∨
       ∃ c, c ∈ flat_map kids (t :: ts) ∧ y ∈ values_of c) ↔
      (S y ∨ ∃ u, u ∈ t :: ts ∧ y ∈ values_of u)).
    { intros y. split.
      - intros [[?|(u & Hu & Hy)]|(c & Hc & Hy)]; [by left| |].
        + right. exists u. split; [done|]. apply values_of_kids; [|by left].
          by eapply list.Forall_forall in Hv as [? _].
        + right. apply list_elem_of_In, in_flat_map in Hc as (u & Hu & Hc).
          apply list_elem_of_In in Hu, Hc. exists u. split; [done|].
          apply values_of_kids; [by eapply list.Forall_forall in Hv as [? _]|].
          right. by exists c.
      - intros [?|(u & Hu & Hy)]; [by left; left|].
        apply values_of_kids in Hy as [Hy|(c & Hc & Hy)];
          [| |by eapply list.Forall_forall in Hv as [? _]].
        + left. right. by exists u.
        + right. exists c. split; [|done].
          apply list_elem_of_In, in_flat_map. exists u.
          by split; apply list_elem_of_In. }
    cbv zeta in *.
    split; [exact (least_of_iff _ _ _ Heq Hmin2)|exact (greatest_of_iff _ _ _ Heq Hmax2)].
Qed.

(* ------------------------------------------------------------------ *)
(** ** The depths [inspect] reports *)

Lemma kids_shallow_attained t :
  valid t → t ≠ Nil → is_leaf t = false →
  ∃ c, c ∈ kids t ∧ shallow t = S (shallow c).
Proof.
  destruct t as [| |v l r]; [done|done|]. intros (_ & Hl & Hr) _ Hleaf.
  destruct l as [| |lv ll lr], r as [| |rv rl rr]; try done.
  - exists (Nd rv rl rr). split; [apply elem_of_kids; by right|done].
  - exists (Nd lv ll lr). split; [apply elem_of_kids; by left|done].
  - destruct (Nat.min_spec (shallow (Nd lv ll lr)) (shallow (Nd rv rl rr)))
      as [[_ Hm]|[_ Hm]].
    + exists (Nd lv ll lr). split; [apply elem_of_kids; by left|].
      cbn [shallow] in *. by rewrite Hm.
    + exists (Nd rv rl rr). split; [apply elem_of_kids; by right|].
      cbn [shallow] in *. by rewrite Hm.
Qed.

(** Below the root, [min_leaf_depth] ends as the depth of the nearest
    leaf. *)
Lemma scan_levels_mld_exact n : ∀ s ts m,
  Forall (λ c, valid c ∧ c ≠ Nil) ts → (forest_levels ts ≤ n)%nat →
  s_min_leaf_depth s = 0 → 0 ≤ s_current_depth s →
  (∀ t, t ∈ ts → (m ≤ shallow t)%nat) → (∃ t, t ∈ ts ∧ shallow t = m) →
  s_min_leaf_depth (scan_levels n s ts) = s_current_depth s + Z.of_nat m.
Proof.
  induction n as [|n IH]; intros s ts m Hts Hn Hm Hd Hsh (w & Hw & Hwm).
  - destruct ts as [|t ts]; [by apply elem_of_nil in Hw|]. exfalso.
    inversion Hts as [|? ? [Htv Htn] _]; subst.
    unfold forest_levels in Hn. destruct t; simpl in *; try done; lia.
  - destruct ts as [|t ts]; [by apply elem_of_nil in Hw|]. cbn [scan_levels].
    set (s1 := fold_left scan_node (t :: ts) (next_level s)).
    assert (Hd1 : s_current_depth s1 = s_current_depth s + 1).
    { unfold s1. by rewrite fold_scan_node_depth. }
    assert (Hmld : s_min_leaf_depth s1 =
                   if existsb is_leaf (t :: ts) then s_current_depth s + 1 else 0).
    { unfold s1. rewrite fold_scan_node_mld by done.
      cbn [next_level s_min_leaf_depth s_current_depth]. rewrite Hm. done. }
    pose proof (flat_map_kids_valid _ Hts) as Hk.
    assert (Hwv : valid w ∧ w ≠ Nil) by by eapply list.Forall_forall in Hts.
    pose proof (shallow_pos w (proj1 Hwv) (proj2 Hwv)) as Hwpos.
    destruct (existsb is_leaf (t :: ts)) eqn:Hex.
    + rewrite scan_levels_mld_kept; [|done|lia]. rewrite Hmld.
      apply existsb_exists in Hex as (u & Hu%list_elem_of_In & Hleaf).
      specialize (Hsh u Hu). rewrite (is_leaf_shallow u Hleaf) in Hsh. lia.
    + assert (Hnl : ∀ u, u ∈ t :: ts → is_leaf u = false).
      { intros u Hu. destruct (is_leaf u) eqn:Hl; [|done].
        assert (existsb is_leaf (t :: ts) = true); [|congruence].
        apply existsb_exists. exists u. by split; [apply list_elem_of_In|]. }
      destruct (kids_shallow_attained w (proj1 Hwv) (proj2 Hwv) (Hnl w Hw))
        as (c & Hc & Hcs).
      rewrite (IH s1 (flat_map kids (t :: ts)) (shallow c) Hk).
      * lia.
      * rewrite forest_levels_flat_map_kids. lia.
      * done.
      * lia.
      * intros c' Hc'.
        apply list_elem_of_In, in_flat_map in Hc'.
        destruct Hc' as (u & Hu%list_elem_of_In & Hcu%list_elem_of_In).
        pose proof (Hsh u Hu).
        eapply list.Forall_forall in Hts as [Huv _]; [|exact Hu].
        pose proof (kids_shallow u c' Huv Hcu). lia.
      * exists c. split; [|done]. apply list_elem_of_In, in_flat_map.
        exists w. by split; apply list_elem_of_In.
Qed.

Lemma scan_levels_min_leaf_depth n t :
  valid t → t ≠ Nil → (levels t ≤ n)%nat →
  s_min_leaf_depth (scan_levels n scan_init [t]) = Z.of_nat (shallow t) - 1.
Proof.
  intros Hv Hne Hn.
  assert (Hf : Forall (λ c, valid c ∧ c ≠ Nil) [t]) by by repeat constructor.
  destruct n as [|n]; [destruct t; simpl in *; try done; lia|].
  cbn [scan_levels].
  set (s1 := fold_left scan_node [t] (next_level scan_init)).
  assert (Hd1 : s_current_depth s1 = 0) by (unfold s1; by rewrite fold_scan_node_depth).
  assert (Hm1 : s_min_leaf_depth s1 = 0).
  { unfold s1. rewrite fold_scan_node_mld by done. simpl. by destruct (is_leaf t). }
  destruct (is_leaf t) eqn:Hleaf.
  - rewrite (is_leaf_shallow t Hleaf).
    destruct t as [| |v [] []]; try done. simpl. by destruct n.
  - destruct (kids_shallow_attained t Hv Hne Hleaf) as (c & Hc & Hcs).
    pose proof (flat_map_kids_valid _ Hf) as Hk.
    assert (Hkt : flat_map kids [t] = kids t) by (simpl; by rewrite app_nil_r).
    rewrite (scan_levels_mld_exact n s1 (flat_map kids [t]) (shallow c) Hk).
    + lia.
    + rewrite forest_levels_flat_map_kids. unfold forest_levels. simpl. lia.
    + done.
    + lia.
    + intros c' Hc'. rewrite Hkt in Hc'.
      pose proof (kids_shallow t c' Hv Hc'). lia.
    + exists c. by rewrite Hkt.
Qed.

(* ------------------------------------------------------------------ *)
(** ** [_is_balanced] on trees *)

Lemma balanced_depth_level_balanced t :
  balanced_depth t = if level_balanced t then Z.of_nat (levels t) else -1.
Proof.
  induction t as [| |v l IHl r IHr]; [done|done|].
  cbn [balanced_depth level_balanced levels]. rewrite IHl, IHr.
  destruct (level_balanced l), (level_balanced r); cbn [andb];
    repeat match goal with
    | |- context [?a <? ?b] => destruct (Z.ltb_spec a b)
    | |- context [?a <=? ?b] => destruct (Z.leb_spec a b)
    end; cbn [orb]; lia.
Qed.

(* ------------------------------------------------------------------ *)
(** ** The report of [inspect] *)

Lemma deep_asc_root t :
  valid t → deep asc_ok t = true →
  ∀ x, root_value t = Some x → ∀ y, y ∈ values_of t → x ≤ y.
Proof.
  induction t as [| |v l IHl r IHr]; [done|done|].
  intros (Hv & Hl & Hr) Hd x [= ->] y.
  cbn [deep] in Hd. apply andb_prop in Hd as [[Hok Hdl]%andb_prop Hdr].
  cbn [asc_ok] in Hok. apply andb_prop in Hok as [Hgl Hgr].
  cbn [values_of]. change (option_list (Some x)) with [x].
  rewrite !elem_of_app, list_elem_of_singleton. intros [->|[Hy|Hy]]; [lia| |].
  - destruct l as [| |[xl|] ll lr]; [by apply elem_of_nil in Hy|done| |by destruct Hl].
    cbn [child_ge] in Hgl. apply Z.leb_le in Hgl.
    specialize (IHl Hl Hdl xl eq_refl y Hy). lia.
  - destruct r as [| |[xr|] rl rr]; [by apply elem_of_nil in Hy|done| |by destruct Hr].
    cbn [child_ge] in Hgr. apply Z.leb_le in Hgr.
    specialize (IHr Hr Hdr xr eq_refl y Hy). lia.
Qed.

Lemma deep_desc_root t :
  valid t → deep desc_ok t = true →
  ∀ x, root_value t = Some x → ∀ y, y ∈ values_of t → y ≤ x.
Proof.
  induction t as [| |v l IHl r IHr]; [done|done|].
  intros (Hv & Hl & Hr) Hd x [= ->] y.
  cbn [deep] in Hd. apply andb_prop in Hd as [[Hok Hdl]%andb_prop Hdr].
  cbn [desc_ok] in Hok. apply andb_prop in Hok as [Hgl Hgr].
  cbn [values_of]. change (option_list (Some x)) with [x].
  rewrite !elem_of_app, list_elem_of_singleton. intros [->|[Hy|Hy]]; [lia| |].
  - destruct l as [| |[xl|] ll lr]; [by apply elem_of_nil in Hy|done| |by destruct Hl].
    cbn [child_le] in Hgl. apply Z.leb_le in Hgl.
    specialize (IHl Hl Hdl xl eq_refl y Hy). lia.
  - destruct r as [| |[xr|] rl rr]; [by apply elem_of_nil in Hy|done| |by destruct Hr].
    cbn [child_le] in Hgr. apply Z.leb_le in Hgr.
    specialize (IHr Hr Hdr xr eq_refl y Hy). lia.
Qed.

(** Every entry of the report for a node that unfolds to a valid tree,
    but for [is_left_padded], read off the tree. *)
Lemma inspect_node_report h a t :
  repr h (ORef a) t → valid t →
  ∃ p, inspect (AObj (ORef a)) h = Ok (p, h) ∧
    height p = Z.of_nat (levels t) - 1 ∧
    max_leaf_depth p = Z.of_nat (levels t) - 1 ∧
    min_leaf_depth p = Z.of_nat (shallow t) - 1 ∧
    is_height_balanced p = (Z.of_nat (levels t) - Z.of_nat (shallow t) <? 2) ∧
    is_weight_balanced p = level_balanced t ∧
    is_bst p = deep bst_ok t ∧
    (is_min_heap p = true → deep asc_ok t = true) ∧
    (is_max_heap p = true → deep desc_ok t = true) ∧
    node_count p = Z.of_nat (count_nodes t) ∧
    leaf_count p = Z.of_nat (count_leaves t) ∧
    least_of (λ y, y ∈ values_of t) (min_value p) ∧
    greatest_of (λ y, y ∈ values_of t) (max_value p).
Proof.
  intros Hr Hv. eexists. split; [by apply inspect_node|].
  assert (Hne : t ≠ Nil) by by inversion Hr.
  pose proof (fuel_of_levels _ _ _ Hr) as Hfuel.
  assert (Hf : Forall (λ c, valid c ∧ c ≠ Nil) [t]) by by repeat constructor.
  assert (Hn : (forest_levels [t] ≤ fuel_of h)%nat).
  { unfold forest_levels. simpl. lia. }
  assert (Hlv : forest_levels [t] = levels t) by (unfold forest_levels; simpl; lia).
  cbn [properties_of height max_leaf_depth min_leaf_depth is_height_balanced
       is_weight_balanced is_bst is_min_heap is_max_heap node_count leaf_count
       min_value max_value].
  rewrite scan_levels_depth, Hlv by done.
  rewrite scan_levels_min_leaf_depth by (done || lia).
  destruct (scan_levels_flags (fuel_of h) scan_init [t] Hf Hn) as (-> & -> & ->).
  destruct (scan_levels_count (fuel_of h) scan_init [t] Hf Hn) as [-> ->].
  destruct (scan_levels_extremes (fuel_of h) scan_init [t] (λ _, False) Hf Hn)
    as [Hmin Hmax]; [by intros ? []|by intros ? []|].
  rewrite balanced_depth_level_balanced.
  cbn [scan_init s_current_depth s_is_bst s_is_descending s_is_ascending
       s_node_count s_leaf_count forallb sum_list_with].
  rewrite !andb_true_r. split_and!.
  - lia.
  - lia.
  - done.
  - f_equal. lia.
  - destruct (level_balanced t); [|done]. apply Z.leb_le. lia.
  - done.
  - by intros [[? _]%andb_prop _]%andb_prop.
  - by intros [[? _]%andb_prop _]%andb_prop.
  - f_equal. lia.
  - f_equal. lia.
  - eapply least_of_iff; [|exact Hmin]. intros y. split.
    + intros [[]|(u & Hu & Hy)]. by apply list_elem_of_singleton in Hu as ->.
    + intros Hy. right. exists t. split; [by left|done].
  - eapply greatest_of_iff; [|exact Hmax]. intros y. split.
    + intros [[]|(u & Hu & Hy)]. by apply list_elem_of_singleton in Hu as ->.
    + intros Hy. right. exists t. split; [by left|done].
Qed.

(** X2: on a validated tree [inspect] reports as [min_value] and
    [max_value] the least and the greatest of the values held by the nodes
    of the tree (never an infinity). *)
Theorem inspect_min_max (h : store) (a : nat) (t : btree) :
  repr h (ORef a) t → valid t →
  ∃ p lo hi, inspect (AObj (ORef a)) h = Ok (p, h) ∧
    min_value p = Fin lo ∧ max_value p = Fin hi ∧
    lo ∈ values_of t ∧ hi ∈ values_of t ∧
    ∀ y, y ∈ values_of t → lo ≤ y ≤ hi.
Proof.
  intros Hr Hv.
  destruct (inspect_node_report h a t Hr Hv)
    as (p & Hp & _ & _ & _ & _ & _ & _ & _ & _ & _ & _ & Hmin & Hmax).
  assert (Hroot : ∃ x, x ∈ values_of t).
  { inversion Hr; subst. destruct v as [x|]; [|by destruct Hv].
    exists x. simpl. by left. }
  destruct Hroot as (x & Hx).
  destruct (min_value p) as [|lo|] eqn:Elo; simpl in Hmin;
    [done| |by destruct (Hmin x)].
  destruct (max_value p) as [|hi|] eqn:Ehi; simpl in Hmax;
    [by destruct (Hmax x)| |done].
  destruct Hmin as [Hlo Hle], Hmax as [Hhi Hge].
  exists p, lo, hi. split_and!; try done.
  intros y Hy. split; [by apply Hle|by apply Hge].
Qed.

Lemma inspect_min_max_witness :
  let h := [mkNode (Some 3) (ORef 1) (ORef 2); mkNode (Some 7) ONull ONull;
            mkNode (Some (-2)) ONull ONull] in
  let t := Nd (Some 3) (Nd (Some 7) Nil Nil) (Nd (Some (-2)) Nil Nil) in
  ∃ p lo hi, inspect (AObj (ORef 0)) h = Ok (p, h) ∧
    min_value p = Fin lo ∧ max_value p = Fin hi ∧
    lo ∈ values_of t ∧ hi ∈ values_of t ∧
    ∀ y, y ∈ values_of t → lo ≤ y ≤ hi.
Proof.
  apply inspect_min_max.
  - repeat econstructor.
  - simpl. split_and!; done.
Defined.

(** X3: on a validated tree [inspect] reports as [height] and
    [max_leaf_depth] the number of levels less one, as [min_leaf_depth] the
    depth of the nearest leaf, and [is_height_balanced] is true exactly
    when the nearest leaf is less than two levels above the last level. *)
Theorem inspect_depths (h : store) (a : nat) (t : btree) :
  repr h (ORef a) t → valid t →
  ∃ p, inspect (AObj (ORef a)) h = Ok (p, h) ∧
    height p = Z.of_nat (levels t) - 1 ∧
    max_leaf_depth p = height p ∧
    min_leaf_depth p = Z.of_nat (shallow t) - 1 ∧
    (is_height_balanced p = true ↔ (levels t < shallow t + 2)%nat).
Proof.
  intros Hr Hv.
  destruct (inspect_node_report h a t Hr Hv)
    as (p & Hp & Hh & Hmax & Hmin & Hhb & _).
  exists p. split_and!; [done|done|congruence|done|].
  rewrite Hhb, Z.ltb_lt. lia.
Qed.

Lemma inspect_depths_witness :
  let h := [mkNode (Some 3) (ORef 1) (ORef 2); mkNode (Some 7) ONull ONull;
            mkNode (Some 5) (ORef 3) ONull; mkNode (Some 1) ONull ONull] in
  let t := Nd (Some 3) (Nd (Some 7) Nil Nil)
             (Nd (Some 5) (Nd (Some 1) Nil Nil) Nil) in
  ∃ p, inspect (AObj (ORef 0)) h = Ok (p, h) ∧
    height p = Z.of_nat (levels t) - 1 ∧
    max_leaf_depth p = height p ∧
    min_leaf_depth p = Z.of_nat (shallow t) - 1 ∧
    (is_height_balanced p = true ↔ (levels t < shallow t + 2)%nat).
Proof.
  apply inspect_depths.
  - repeat econstructor.
  - simpl. split_and!; done.
Defined.

(** X4: on a validated tree [_is_balanced] returns the number of levels
    when at every node the two subtrees differ by at most one level, and
    [-1] otherwise; [is_weight_balanced] of [inspect] is that test. *)
Theorem is_balanced_outcome (h : store) (a : nat) (t : btree) :
  repr h (ORef a) t → valid t →
  @_is_balanced _ (store_ops h) (fuel_of h) (ORef a) =
    Ok (if level_balanced t then Z.of_nat (levels t) else -1) ∧
  ∃ p, inspect (AObj (ORef a)) h = Ok (p, h) ∧
    is_weight_balanced p = level_balanced t.
Proof.
  intros Hr Hv. split.
  - rewrite (is_balanced_repr h _ _ t Hr).
    rewrite is_balanced_valid by (done || by eapply fuel_of_levels).
    by rewrite balanced_depth_level_balanced.
  - destruct (inspect_node_report h a t Hr Hv)
      as (p & Hp & _ & _ & _ & _ & Hwb & _).
    by exists p.
Qed.

Lemma is_balanced_outcome_witness :
  let h := [mkNode (Some 3) (ORef 1) ONull; mkNode (Some 7) (ORef 2) ONull;
            mkNode (Some 5) ONull ONull] in
  let t := Nd (Some 3) (Nd (Some 7) (Nd (Some 5) Nil Nil) Nil) Nil in
  @_is_balanced _ (store_ops h) (fuel_of h) (ORef 0) =
    Ok (if level_balanced t then Z.of_nat (levels t) else -1) ∧
  ∃ p, inspect (AObj (ORef 0)) h = Ok (p, h) ∧
    is_weight_balanced p = level_balanced t.
Proof.
  apply is_balanced_outcome.
  - repeat econstructor.
  - simpl. split_and!; done.
Defined.

(** X5: [inspect] reports [is_bst] true for every validated tree in which
    each node's value is greater than all values in its left subtree and
    less than all values in its right subtree. *)
Theorem inspect_search_tree (h : store) (a : nat) (t : btree) :
  repr h (ORef a) t → valid t → search_tree t →
  ∃ p, inspect (AObj (ORef a)) h = Ok (p, h) ∧ is_bst p = true.
Proof.
  intros Hr Hv Hs.
  destruct (inspect_node_report h a t Hr Hv)
    as (p & Hp & _ & _ & _ & _ & _ & Hbst & _).
  exists p. split; [done|]. rewrite Hbst.
  by apply search_tree_ties_deep_bst_ok, search_tree_ties_of.
Qed.

Lemma inspect_search_tree_witness :
  let h := [mkNode (Some 3) (ORef 1) (ORef 2); mkNode (Some 1) ONull ONull;
            mkNode (Some 5) (ORef 3) ONull; mkNode (Some 4) ONull ONull] in
  ∃ p, inspect (AObj (ORef 0)) h = Ok (p, h) ∧ is_bst p = true.
Proof.
  apply (inspect_search_tree _ _
           (Nd (Some 3) (Nd (Some 1) Nil Nil)
              (Nd (Some 5) (Nd (Some 4) Nil Nil) Nil))).
  - repeat econstructor.
  - simpl. split_and!; done.
  - simpl. split_and!; try done; intros ? [= <-]; split_and!; try done;
      intros ? [= <-]; lia.
Defined.

(** X6: when [inspect] reports a validated tree as a min heap, every
    parent's value is at most its children's and [min_value] is the value
    at the root; for a max heap, at least and [max_value]. *)
Theorem inspect_heap_root (h : store) (a : nat) (x : Z) (l r : btree) :
  repr h (ORef a) (Nd (Some x) l r) → valid l → valid r →
  ∃ p, inspect (AObj (ORef a)) h = Ok (p, h) ∧
    (is_min_heap p = true →
       deep asc_ok (Nd (Some x) l r) = true ∧ min_value p = Fin x) ∧
    (is_max_heap p = true →
       deep desc_ok (Nd (Some x) l r) = true ∧ max_value p = Fin x).
Proof.
  intros Hr Hl Hrv.
  assert (Hv : valid (Nd (Some x) l r)) by (simpl; by split_and!).
  destruct (inspect_node_report h a _ Hr Hv)
    as (p & Hp & _ & _ & _ & _ & _ & _ & Hasc & Hdesc & _ & _ & Hmin & Hmax).
  assert (Hx : x ∈ values_of (Nd (Some x) l r)) by (simpl; by left).
  exists p. split_and!; [done| |].
  - intros Hheap. specialize (Hasc Hheap). split; [done|].
    pose proof (deep_asc_root _ Hv Hasc x eq_refl) as Hroot.
    destruct (min_value p) as [|lo|]; simpl in Hmin; [done| |by destruct (Hmin x)].
    destruct Hmin as [Hlo Hle]. f_equal.
    specialize (Hroot lo Hlo). specialize (Hle x Hx). lia.
  - intros Hheap. specialize (Hdesc Hheap). split; [done|].
    pose proof (deep_desc_root _ Hv Hdesc x eq_refl) as Hroot.
    destruct (max_value p) as [|hi|]; simpl in Hmax; [by destruct (Hmax x)| |done].
    destruct Hmax as [Hhi Hge]. f_equal.
    specialize (Hroot hi Hhi). specialize (Hge x Hx). lia.
Qed.

Lemma inspect_heap_root_witness :
  let h := [mkNode (Some 1) (ORef 1) (ORef 2); mkNode (Some 4) ONull ONull;
            mkNode (Some 2) ONull ONull] in
  ∃ p, inspect (AObj (ORef 0)) h = Ok (p, h) ∧
    (is_min_heap p = true →
       deep asc_ok (Nd (Some 1) (Nd (Some 4) Nil Nil) (Nd (Some 2) Nil Nil)) = true ∧
       min_value p = Fin 1) ∧
    (is_max_heap p = true →
       deep desc_ok (Nd (Some 1) (Nd (Some 4) Nil Nil) (Nd (Some 2) Nil Nil)) = true ∧
       max_value p = Fin 1).
Proof.
  apply inspect_heap_root.
  - repeat econstructor.
  - done.
  - done.
Defined.

(* ------------------------------------------------------------------ *)
(** ** Insertion and the values of a tree *)

Lemma insert_at_values gl v : ∀ t k, valid t →
  values_of (insert_at gl k t v) ≡ₚ v :: values_of t.
Proof.
  induction t as [| |[x|] l IHl r IHr]; intros k; cbn [insert_at]; try done.
  - intros (_ & Hl & Hr). destruct (gl k x); cbn [values_of];
      change (option_list (Some x)) with [x]; cbn [app].
    + rewrite (IHl (S k) Hl). cbn [app]. apply perm_swap.
    + rewrite (IHr (S k) Hr). rewrite <- Permutation_middle. apply perm_swap.
  - by intros [? _].
Qed.

Lemma values_of_length t : valid t → length (values_of t) = count_nodes t.
Proof.
  induction t as [| |[x|] l IHl r IHr]; simpl; try done.
  - intros (_ & Hl & Hr). rewrite length_app, IHl, IHr by done. done.
  - by intros [? _].
Qed.

Lemma count_nodes_bound t : (count_nodes t < 2 ^ levels t)%nat.
Proof.
  induction t as [| |v l IHl r IHr]; simpl; try lia.
  assert (2 ^ levels l ≤ 2 ^ Nat.max (levels l) (levels r))%nat
    by (apply Nat.pow_le_mono_r; lia).
  assert (2 ^ levels r ≤ 2 ^ Nat.max (levels l) (levels r))%nat
    by (apply Nat.pow_le_mono_r; lia).
  lia.
Qed.

Lemma all_values_values_of P t : all_values P t ↔ Forall P (values_of t).
Proof.
  induction t as [| |v l IHl r IHr]; simpl.
  - split; [constructor|done].
  - split; [constructor|done].
  - rewrite !Forall_app, IHl, IHr. destruct v as [x|]; simpl.
    + rewrite Forall_singleton. split.
      * intros (Hx & ? & ?). split_and!; try done. by apply Hx.
      * intros (Hx & ? & ?). split_and!; try done. by intros ? [= <-].
    + split; [intros (_ & ? & ?)|intros (_ & ? & ?)]; split_and!; try done.
Qed.

Lemma insert_at_root gl k t v :
  valid t → t ≠ Nil → root_value (insert_at gl k t v) = root_value t.
Proof.
  destruct t as [| |[x|] l r]; simpl; try done.
  - intros _ _. by destruct (gl k x).
  - by intros [? _].
Qed.

(** [_bst_insert] of a value the tree does not hold keeps a strict search
    tree a strict search tree. *)
Lemma bst_insert_tree_strict t v :
  valid t → search_tree t → v ∉ values_of t → search_tree (bst_insert_tree t v).
Proof.
  unfold bst_insert_tree.
  pose proof (insert_at_bst_step v) as Hk.
  induction t as [| |[x|] l IHl r IHr]; simpl; try done.
  intros (_ & Hvl & Hvr) (Hx & Hl & Hr) Hnew.
  rewrite not_elem_of_cons, not_elem_of_app in Hnew.
  destruct Hnew as (Hvx & Hnl & Hnr).
  destruct (Hx x eq_refl) as [Hlt Hgt].
  destruct (Z.ltb_spec v x); simpl; rewrite Hk.
  - split_and!; [|by apply IHl|done].
    intros ? [= <-]. split; [|done]. by apply insert_at_all_values.
  - split_and!; [|done|by apply IHr].
    intros ? [= <-]. split; [done|]. apply insert_at_all_values; [done|].
    split; [done|lia].
Qed.

Lemma levels_pow (n : nat) : Z.of_nat (2 ^ n) = 2 ^ Z.of_nat n.
Proof. by rewrite Nat2Z.inj_pow. Qed.

(** A tree of at most [height] levels cannot hold [count height] values. *)
Lemma count_exceeds_levels t (height : Z) :
  0 ≤ height → valid t → Z.of_nat (levels t) ≤ height →
  Z.of_nat (length (values_of t)) < count height.
Proof.
  intros Hh Hv Hl. rewrite values_of_length by done.
  pose proof (count_nodes_bound t) as Hb.
  apply Nat2Z.inj_lt in Hb. rewrite levels_pow in Hb.
  assert (2 ^ Z.of_nat (levels t) ≤ 2 ^ height) by (apply Z.pow_le_mono_r; lia).
  unfold count. rewrite Z.pow_add_r by lia.
  assert (0 < 2 ^ height) by (apply Z.pow_pos_nonneg; lia). lia.
Qed.

(* ------------------------------------------------------------------ *)
(** ** The loops of [bst] and [tree] *)

(** The loop of [bst] from a strict search tree: it inserts a prefix
    [used] of the remaining values and stops at the first new leaf at depth
    [height], or uses them all. *)
Lemma bst_insert_all_grow root height : ∀ rest h t fp,
  shaped h root t fp → t ≠ Nil → search_tree t → NoDup (values_of t ++ rest) →
  Z.of_nat (levels t) - 1 ≤ height →
  (rest ≠ [] → Z.of_nat (levels t) ≤ height) →
  ∃ h' t' fp' used unused,
    bst_insert_all root height rest h = Ok h' ∧
    shaped h' root t' fp' ∧ search_tree t' ∧
    rest = used ++ unused ∧ values_of t' ≡ₚ values_of t ++ used ∧
    root_value t' = root_value t ∧
    (levels t ≤ levels t')%nat ∧ Z.of_nat (levels t') - 1 ≤ height ∧
    (Z.of_nat (levels t') - 1 = height ∨
     (unused = [] ∧ (Z.of_nat (levels t) ≤ height → Z.of_nat (levels t') ≤ height))).
Proof.
  induction rest as [|v rest IH]; intros h t fp Hs Hne Hst Hnd Hl Hl'.
  - exists h, t, fp, [], []. split_and!; rewrite ?app_nil_r; try done. by right.
  - cbn [bst_insert_all].
    destruct (bst_insert_spec h root t fp v Hs Hne) as (h' & fp' & -> & Hs').
    cbn [bind].
    pose proof (shaped_valid _ _ _ _ Hs) as Hv.
    specialize (Hl' ltac:(done)).
    destruct (insert_stop_rule (λ _ x, v <? x) 0 t v height Hv Hl') as [Hle Hlt].
    pose proof (insert_at_levels (λ _ x, v <? x) v t 0 Hv) as Hlev.
    pose proof (insert_at_values (λ _ x, v <? x) v t 0 Hv) as Hvals.
    fold (bst_insert_tree t v) in Hle, Hlt, Hlev, Hvals.
    assert (Hnew : v ∉ values_of t).
    { apply NoDup_app in Hnd as (_ & Hnd & _). intros Hin.
      apply (Hnd v Hin). by left. }
    pose proof (bst_insert_tree_strict t v Hv Hst Hnew) as Hst'.
    assert (Hroot : root_value (bst_insert_tree t v) = root_value t)
      by by apply insert_at_root.
    destruct (_ =? height) eqn:Hd.
    + apply Z.eqb_eq in Hd.
      exists h', (bst_insert_tree t v), fp', [v], rest.
      split_and!; try done.
      * rewrite Hvals. by rewrite <- Permutation_cons_append.
      * lia.
      * left. lia.
    + destruct (IH h' (bst_insert_tree t v) fp' Hs' (insert_at_not_nil _ _ _ _) Hst')
        as (h'' & t' & fp'' & used & unused & Heq & Hs'' & Hst'' & Hrest & Hperm &
            Hroot' & Hmono & Hbound & Hend).
      * rewrite Hvals. cbn [app]. by rewrite Permutation_middle.
      * done.
      * intros _. by apply Hlt.
      * exists h'', t', fp'', (v :: used), unused.
        split_and!; try done.
        -- by rewrite Hrest.
        -- rewrite Hperm, Hvals. cbn [app]. by rewrite Permutation_middle.
        -- congruence.
        -- lia.
        -- destruct Hend as [Hend|[-> Hend]]; [by left|right].
           split; [done|]. intros _. apply Hend. by apply Hlt.
Qed.

Lemma random_insert_all_grow coin root height : ∀ rest k h t fp,
  shaped h root t fp → t ≠ Nil →
  Z.of_nat (levels t) - 1 ≤ height →
  (rest ≠ [] → Z.of_nat (levels t) ≤ height) →
  ∃ h' t' fp' used unused,
    random_insert_all coin root height rest k h = Ok h' ∧
    shaped h' root t' fp' ∧
    rest = used ++ unused ∧ values_of t' ≡ₚ values_of t ++ used ∧
    root_value t' = root_value t ∧
    (levels t ≤ levels t')%nat ∧ Z.of_nat (levels t') - 1 ≤ height ∧
    (Z.of_nat (levels t') - 1 = height ∨
     (unused = [] ∧ (Z.of_nat (levels t) ≤ height → Z.of_nat (levels t') ≤ height))).
Proof.
  induction rest as [|v rest IH]; intros k h t fp Hs Hne Hl Hl'.
  - exists h, t, fp, [], []. split_and!; rewrite ?app_nil_r; try done. by right.
  - cbn [random_insert_all].
    destruct (random_insert_spec coin h root t fp v k Hs Hne)
      as (h' & fp' & k' & -> & Hs').
    cbn [bind].
    pose proof (shaped_valid _ _ _ _ Hs) as Hv.
    specialize (Hl' ltac:(done)).
    destruct (insert_stop_rule (λ j _, coin j) k t v height Hv Hl') as [Hle Hlt].
    pose proof (insert_at_levels (λ j _, coin j) v t k Hv) as Hlev.
    pose proof (insert_at_values (λ j _, coin j) v t k Hv) as Hvals.
    assert (Hroot : root_value (insert_at (λ j _, coin j) k t v) = root_value t)
      by by apply insert_at_root.
    destruct (_ =? height) eqn:Hd.
    + apply Z.eqb_eq in Hd.
      exists h', (insert_at (λ j _, coin j) k t v), fp', [v], rest.
      split_and!; try done.
      * rewrite Hvals. by rewrite <- Permutation_cons_append.
      * lia.
      * left. lia.
    + destruct (IH k' h' (insert_at (λ j _, coin j) k t v) fp' Hs'
                  (insert_at_not_nil _ _ _ _))
        as (h'' & t' & fp'' & used & unused & Heq & Hs'' & Hrest & Hperm &
            Hroot' & Hmono & Hbound & Hend).
      * done.
      * intros _. by apply Hlt.
      * exists h'', t', fp'', (v :: used), unused.
        split_and!; try done.
        -- by rewrite Hrest.
        -- rewrite Hperm, Hvals. cbn [app]. by rewrite Permutation_middle.
        -- congruence.
        -- lia.
        -- destruct Hend as [Hend|[-> Hend]]; [by left|right].
           split; [done|]. intros _. apply Hend. by apply Hlt.
Qed.

(** With [count height] values to insert, the loop cannot use them all:
    it stops at a leaf of depth [height]. *)
Lemma grown_height (height : Z) v0 rest t' used unused :
  0 ≤ height → Z.of_nat (length (v0 :: rest)) = count height →
  valid t' → rest = used ++ unused → values_of t' ≡ₚ [v0] ++ used →
  (1 ≤ levels t')%nat →
  Z.of_nat (levels t') - 1 ≤ height →
  (Z.of_nat (levels t') - 1 = height ∨
   (unused = [] ∧ (Z.of_nat 1 ≤ height → Z.of_nat (levels t') ≤ height))) →
  Z.of_nat (levels t') - 1 = height.
Proof.
  intros Hh Hlen Hv Hrest Hperm Hpos Hbound [Hend|[-> Hend]]; [done|].
  rewrite app_nil_r in Hrest. subst used.
  destruct (decide (height = 0)) as [->|Hz]; [lia|].
  specialize (Hend ltac:(lia)).
  pose proof (count_exceeds_levels t' height Hh Hv Hend) as Hlt.
  rewrite Hperm in Hlt. simpl in Hlt, Hlen. lia.
Qed.

Lemma levels_le_count_nodes t : (levels t ≤ count_nodes t)%nat.
Proof. induction t as [| |v l IHl r IHr]; simpl; lia. Qed.

(** The tree of [bst(height)]: a strict search tree of exactly
    [height + 1] levels that holds a prefix of the sample. *)
Lemma bst_grow_spec sampled height h :
  0 ≤ height → is_sample (count height) sampled →
  ∃ a h' t fp used unused,
    bst sampled height h = Ok (ORef a, h') ∧
    shaped h' (ORef a) t fp ∧ search_tree t ∧
    sampled = used ++ unused ∧ values_of t ≡ₚ used ∧
    root_value t = head sampled ∧
    Z.of_nat (levels t) - 1 = height.
Proof.
  intros Hh Hs. destruct (sample_cons _ _ Hh Hs) as (v0 & rest & -> & Hrest).
  destruct Hs as (Hlen & Hnd & Hrange).
  unfold bst, _generate_values. destruct (Z.ltb_spec height 0); [lia|].
  cbn [bind _new_node].
  destruct (bst_insert_all_grow (ORef (length h)) height rest
              (h ++ [mkNode (Some v0) ONull ONull]) (Nd (Some v0) Nil Nil)
              {[length h]})
    as (h' & t' & fp' & used & unused & -> & Hs' & Hst & Hsplit & Hperm &
        Hroot & Hmono & Hbound & Hend).
  - apply shaped_new_leaf.
  - done.
  - simpl. split_and!; done.
  - done.
  - simpl. lia.
  - intros Hne. simpl. specialize (Hrest Hne). lia.
  - exists (length h), h', t', fp', (v0 :: used), unused.
    cbn [bind]. split_and!; try done.
    + by rewrite Hsplit.
    + eapply (grown_height height v0 rest t' used unused); try done.
      all: try by eapply shaped_valid.
      all: simpl in Hmono; lia.
Qed.

Lemma tree_grow_spec coin sampled height h :
  0 ≤ height → is_sample (count height) sampled →
  ∃ a h' t fp used unused,
    tree coin sampled height false h = Ok (ORef a, h') ∧
    shaped h' (ORef a) t fp ∧
    sampled = used ++ unused ∧ values_of t ≡ₚ used ∧
    root_value t = head sampled ∧
    Z.of_nat (levels t) - 1 = height.
Proof.
  intros Hh Hs. destruct (sample_cons _ _ Hh Hs) as (v0 & rest & -> & Hrest).
  destruct Hs as (Hlen & Hnd & Hrange).
  unfold tree, _generate_values. destruct (Z.ltb_spec height 0); [lia|].
  cbn [bind _new_node].
  destruct (random_insert_all_grow coin (ORef (length h)) height rest 0
              (h ++ [mkNode (Some v0) ONull ONull]) (Nd (Some v0) Nil Nil)
              {[length h]})
    as (h' & t' & fp' & used & unused & -> & Hs' & Hsplit & Hperm &
        Hroot & Hmono & Hbound & Hend).
  - apply shaped_new_leaf.
  - done.
  - simpl. lia.
  - intros Hne. simpl. specialize (Hrest Hne). lia.
  - exists (length h), h', t', fp', (v0 :: used), unused.
    cbn [bind]. split_and!; try done.
    + by rewrite Hsplit.
    + eapply (grown_height height v0 rest t' used unused); try done.
      all: try by eapply shaped_valid.
      all: simpl in Hmono; lia.
Qed.

(** X7: [bst(height)] and [tree(height)] always return a tree of exactly
    the requested height: with [2 ** (height + 1) - 1] values to insert,
    the loop cannot run out of values before a leaf lands at depth
    [height]. *)
Theorem generated_height_exact (coin : nat → bool) (sampled : list Z)
    (hgt : Z) (h : store) :
  0 ≤ hgt → is_sample (count hgt) sampled →
  (∃ root h' p, bst sampled hgt h = Ok (root, h') ∧
     inspect (AObj root) h' = Ok (p, h') ∧ height p = hgt) ∧
  (∃ root h' p, tree coin sampled hgt false h = Ok (root, h') ∧
     inspect (AObj root) h' = Ok (p, h') ∧ height p = hgt).
Proof.
  intros Hh Hs. split.
  - destruct (bst_grow_spec sampled hgt h Hh Hs)
      as (a & h' & t & fp & used & unused & Hb & Hsh & _ & _ & _ & _ & Hl).
    destruct (inspect_node_report h' a t (shaped_repr _ _ _ _ Hsh)
                (shaped_valid _ _ _ _ Hsh)) as (p & Hp & Hhp & _).
    exists (ORef a), h', p. split_and!; [done|done|lia].
  - destruct (tree_grow_spec coin sampled hgt h Hh Hs)
      as (a & h' & t & fp & used & unused & Hb & Hsh & _ & _ & _ & Hl).
    destruct (inspect_node_report h' a t (shaped_repr _ _ _ _ Hsh)
                (shaped_valid _ _ _ _ Hsh)) as (p & Hp & Hhp & _).
    exists (ORef a), h', p. split_and!; [done|done|lia].
Qed.

Lemma generated_height_exact_witness :
  (∃ root h' p, bst [1; 0; 2] 1 [] = Ok (root, h') ∧
     inspect (AObj root) h' = Ok (p, h') ∧ height p = 1) ∧
  (∃ root h' p, tree Nat.even [1; 0; 2] 1 false [] = Ok (root, h') ∧
     inspect (AObj root) h' = Ok (p, h') ∧ height p = 1).
Proof.
  apply generated_height_exact; [lia|].
  split_and!; [done|apply (bool_decide_unpack _); by vm_compute|].
  repeat constructor; done.
Defined.

(** X8: the tree of [bst(height)] is a strict search tree (the sampled
    values are distinct); it holds the sampled values up to the one whose
    insertion ended the loop, the first of them at the root. *)
Theorem bst_values (sampled : list Z) (hgt : Z) (h : store) :
  0 ≤ hgt → is_sample (count hgt) sampled →
  ∃ root h' t used unused,
    bst sampled hgt h = Ok (root, h') ∧ repr h' root t ∧ valid t ∧
    search_tree t ∧
    sampled = used ++ unused ∧ values_of t ≡ₚ used ∧
    root_value t = head sampled.
Proof.
  intros Hh Hs.
  destruct (bst_grow_spec sampled hgt h Hh Hs)
    as (a & h' & t & fp & used & unused & Hb & Hsh & Hst & Hsplit & Hperm & Hroot & _).
  exists (ORef a), h', t, used, unused.
  split_and!; try done; [by eapply shaped_repr|by eapply shaped_valid].
Qed.

Lemma bst_values_witness :
  ∃ root h' t used unused,
    bst [1; 0; 2] 1 [] = Ok (root, h') ∧ repr h' root t ∧ valid t ∧
    search_tree t ∧
    [1; 0; 2] = used ++ unused ∧ values_of t ≡ₚ used ∧
    root_value t = head [1; 0; 2].
Proof.
  apply bst_values; [lia|].
  split_and!; [done|apply (bool_decide_unpack _); by vm_compute|].
  repeat constructor; done.
Defined.

(** X9: the tree of [tree(height)] (not balanced) holds the sampled values
    up to the one whose insertion ended the loop, each once, the first of
    them at the root; [inspect] counts between [height + 1] and
    [2 ** (height + 1) - 1] nodes. *)
Theorem tree_values (coin : nat → bool) (sampled : list Z) (hgt : Z) (h : store) :
  0 ≤ hgt → is_sample (count hgt) sampled →
  ∃ root h' t used unused p,
    tree coin sampled hgt false h = Ok (root, h') ∧ repr h' root t ∧ valid t ∧
    sampled = used ++ unused ∧ values_of t ≡ₚ used ∧
    root_value t = head sampled ∧
    inspect (AObj root) h' = Ok (p, h') ∧
    node_count p = Z.of_nat (length used) ∧
    hgt + 1 ≤ node_count p ≤ count hgt.
Proof.
  intros Hh Hs.
  destruct (tree_grow_spec coin sampled hgt h Hh Hs)
    as (a & h' & t & fp & used & unused & Hb & Hsh & Hsplit & Hperm & Hroot & Hl).
  pose proof (shaped_valid _ _ _ _ Hsh) as Hv.
  destruct (inspect_node_report h' a t (shaped_repr _ _ _ _ Hsh) Hv)
    as (p & Hp & _ & _ & _ & _ & _ & _ & _ & _ & Hn & _).
  assert (Hlen : count_nodes t = length used).
  { by rewrite <- values_of_length, Hperm. }
  exists (ORef a), h', t, used, unused, p.
  split_and!; try done.
  - by eapply shaped_repr.
  - by rewrite Hn, Hlen.
  - rewrite Hn. pose proof (levels_le_count_nodes t). lia.
  - rewrite Hn, Hlen. destruct Hs as (Hcount & _).
    rewrite <- Hcount, Hsplit, length_app. lia.
Qed.

Lemma tree_values_witness :
  ∃ root h' t used unused p,
    tree Nat.even [1; 0; 2] 1 false [] = Ok (root, h') ∧ repr h' root t ∧ valid t ∧
    [1; 0; 2] = used ++ unused ∧ values_of t ≡ₚ used ∧
    root_value t = head [1; 0; 2] ∧
    inspect (AObj root) h' = Ok (p, h') ∧
    node_count p = Z.of_nat (length used) ∧
    1 + 1 ≤ node_count p ≤ count 1.
Proof.
  apply tree_values; [lia|].
  split_and!; [done|apply (bool_decide_unpack _); by vm_compute|].
  repeat constructor; done.
Defined.

(* ------------------------------------------------------------------ *)
(** ** The values of a list and of its tree *)

Lemma values_in_app v w : values_in (v ++ w) = values_in v ++ values_in w.
Proof. apply omap_app. Qed.

Lemma values_in_pad pad : Forall (λ x, x = None) pad → values_in pad = [].
Proof. induction 1 as [|x pad -> _ IH]; [done|]. exact IH. Qed.

Lemma values_in_trim l : values_in (trim l) = values_in l.
Proof.
  destruct (trim_pad l) as (pad & Hl & Hpad).
  rewrite Hl at 2. by rewrite values_in_app, (values_in_pad pad Hpad), app_nil_r.
Qed.

Lemma values_in_fmap_Some (a : list Z) : values_in (Some <$> a) = a.
Proof. unfold values_in. induction a as [|x a IH]; [done|]. cbn. by f_equal. Qed.

Lemma values_of_slots t :
  valid t →
  values_of t ≡ₚ values_in [root_value t] ++ flat_map values_of (slots t).
Proof.
  destruct t as [| |[x|] l r]; simpl; try done.
  - intros _. by rewrite !app_nil_r.
  - by intros [? _].
Qed.

(** The values of [n + 1] levels of a forest that has no more levels are
    the values of its trees. *)
Lemma level_values_values n : ∀ ts,
  Forall valid ts → (forest_levels ts ≤ S n)%nat →
  values_in (level_values n ts) ≡ₚ flat_map values_of ts.
Proof.
  assert (Hstep : ∀ ts, Forall valid ts →
    flat_map values_of ts ≡ₚ
    values_in (map root_value ts) ++ flat_map values_of (flat_map slots ts)).
  { induction 1 as [|t ts Ht _ IH]; [done|].
    cbn [flat_map map]. rewrite flat_map_app.
    change (root_value t :: map root_value ts)
      with ([root_value t] ++ map root_value ts).
    rewrite values_in_app, IH, (values_of_slots t Ht).
    rewrite <- !(assoc_L (++)). f_equiv.
    rewrite !(assoc_L (++)). f_equiv. apply Permutation_app_comm. }
  induction n as [|n IH]; intros ts Hv Hn; cbn [level_values].
  - rewrite app_nil_r, (Hstep ts Hv).
    assert (Hnil : flat_map values_of (flat_map slots ts) = []).
    { clear Hstep. induction Hv as [|t ts Ht _ IHts]; [done|].
      unfold forest_levels in Hn. cbn [max_list_with] in Hn.
      cbn [flat_map]. rewrite flat_map_app, IHts by (unfold forest_levels; lia).
      destruct t as [| |v l r]; [done|done|].
      destruct l, r; simpl in *; try done; lia. }
    by rewrite Hnil, app_nil_r.
  - rewrite values_in_app, (Hstep ts Hv). f_equiv.
    apply IH; [by apply valid_slots|]. rewrite forest_levels_slots. lia.
Qed.

Lemma flat_values t : valid t → values_in (flat t) ≡ₚ values_of t.
Proof.
  intros Hv. unfold flat. rewrite values_in_trim.
  rewrite level_values_values.
  - simpl. by rewrite app_nil_r.
  - by repeat constructor.
  - unfold forest_levels. simpl. lia.
Qed.

Lemma trim_length l : (length (trim l) ≤ length l)%nat.
Proof.
  destruct (trim_pad l) as (pad & Hl & _). rewrite Hl at 2.
  rewrite length_app. lia.
Qed.

Lemma flat_length t : (length (flat t) < 2 ^ levels t)%nat.
Proof.
  unfold flat. pose proof (trim_length (level_values (pred (levels t)) [t])) as Hle.
  rewrite level_values_length in Hle. simpl in Hle.
  pose proof (pow2_pos (levels t)).
  destruct (levels t) as [|n] eqn:Hn; simpl in *.
  - destruct t; simpl in *; try done; unfold trim; simpl; lia.
  - lia.
Qed.

Lemma subtree_ext n v w :
  (∀ i, at0 v i = at0 w i) → ∀ i, subtree n v i = subtree n w i.
Proof.
  intros Heq. induction n as [|n IH]; intros i; cbn [subtree]; [done|].
  rewrite Heq. destruct (at0 w i); [|done]. by rewrite !IH.
Qed.

Lemma tree_of_list_trim v : tree_of_list (trim v) = tree_of_list v.
Proof.
  unfold tree_of_list. pose proof (trim_length v).
  rewrite (subtree_fuel (length (trim v)) (length v) (trim v) 0) by lia.
  apply subtree_ext. intros i. apply at0_trim.
Qed.

Lemma well_formed_trim v : well_formed v → well_formed (trim v).
Proof.
  intros [Hroot Hno]. split.
  - intros Hne. rewrite at0_trim. apply Hroot. intros ->. by apply Hne.
  - intros i (Hi & Hx & Hp). rewrite !at0_trim in *. by apply (Hno i).
Qed.

(** The tree of a list that [_build_tree] accepts holds the values of the
    list. *)
Lemma tree_of_list_values v :
  well_formed v → values_of (tree_of_list v) ≡ₚ values_in v.
Proof.
  intros Hwf. rewrite <- tree_of_list_trim, <- (values_in_trim v).
  rewrite <- (flat_values (tree_of_list (trim v))) by apply subtree_valid.
  rewrite flat_tree_of_list; [done|by apply well_formed_trim|apply trim_is_trimmed].
Qed.

(* ------------------------------------------------------------------ *)
(** ** What [_build_tree] allocates *)

Lemma build_tree_body_length v nodes h k nodes' h' :
  build_tree_body v (nodes, h) k = Ok (nodes', h') →
  ∃ y, v !! k = Some y ∧ length h' = (length h + length (values_in [y]))%nat.
Proof.
  unfold build_tree_body.
  destruct (v !! k) as [[x|]|]; [|intros [= <- <-]; exists None; simpl; split; [done|lia]|done].
  destruct (nodes !! _) as [parent_node|]; [|done].
  destruct (obj_eqb parent_node ONull); [done|].
  cbn [_new_node]. intros Hok. exists (Some x). split; [done|].
  destruct (Nat.odd k);
    [unfold _add_left in Hok|unfold _add_right in Hok];
    destruct parent_node as [|ap|]; try done;
    destruct (_ !! ap); try done; cbn [bind] in Hok;
    injection Hok as <- <-;
    rewrite length_insert, length_app; simpl; lia.
Qed.

Lemma build_tree_loop_length v n : ∀ k nodes h nodes' h',
  for_each (build_tree_body v) (seq k n) (nodes, h) = Ok (nodes', h') →
  length h' = (length h + length (values_in (take n (drop k v))))%nat.
Proof.
  induction n as [|n IH]; intros k nodes h nodes' h'; cbn [seq for_each].
  - intros [= <- <-]. simpl. lia.
  - destruct (build_tree_body v (nodes, h) k) as [[nodes1 h1]|e|] eqn:Hbody;
      [|done|done].
    cbn [bind]. intros Hrest. apply IH in Hrest.
    apply build_tree_body_length in Hbody as (y & Hy & Hlen).
    rewrite (drop_S _ _ _ Hy). cbn [take].
    change (y :: take n (drop (S k) v)) with ([y] ++ take n (drop (S k) v)).
    rewrite values_in_app, length_app. lia.
Qed.

(** X10: a call of [_build_tree] that returns leaves every object that
    was in the store as it was, allocates one node for each value of the
    list (none for a [None]), and the tree under the root it returns holds
    exactly the values of the list. *)
Theorem build_tree_allocates (v : list (option Z)) (h : store)
    (root : obj) (h' : store) :
  _build_tree v h = Ok (root, h') →
  (∀ a n, h !! a = Some n → h' !! a = Some n) ∧
  length h' = (length h + length (values_in v))%nat ∧
  ∃ t, repr h' root t ∧ valid t ∧ values_of t ≡ₚ values_in v.
Proof.
  intros Hb.
  assert (Hwf : well_formed v).
  { pose proof (build_tree_spec v h) as Hspec. rewrite Hb in Hspec. tauto. }
  destruct (build_tree_repr v h Hwf) as (root' & h'' & Hb' & Hr & _ & Hpre).
  rewrite Hb in Hb'. injection Hb' as <- <-.
  split_and!; [done| |].
  - unfold _build_tree in Hb. destruct v as [|[x|] rest]; [|clear Hwf|done].
    + injection Hb as <- <-. simpl. lia.
    + cbn [_new_node] in Hb.
      destruct (for_each _ _ _) as [[nodes h2]|e|] eqn:Hloop; [|done|done].
      cbn [bind] in Hb. injection Hb as <- <-.
      replace (length (Some x :: rest) - 1)%nat with (length rest) in Hloop
        by (simpl; lia).
      apply build_tree_loop_length in Hloop.
      change (drop 1 (Some x :: rest)) with rest in Hloop.
      rewrite firstn_all, length_app in Hloop.
      change (values_in (Some x :: rest)) with (x :: values_in rest).
      simpl in *. lia.
  - exists (tree_of_list v). split_and!; [done|apply subtree_valid|].
    by apply tree_of_list_values.
Qed.

Lemma build_tree_allocates_witness :
  let v := [Some 1; None; Some 3] in
  let h := [mkNode (Some 8) ONull ONull] in
  let h' := [mkNode (Some 8) ONull ONull; mkNode (Some 1) ONull (ORef 2);
             mkNode (Some 3) ONull ONull] in
  (∀ a n, h !! a = Some n → h' !! a = Some n) ∧
  length h' = (length h + length (values_in v))%nat ∧
  ∃ t, repr h' (ORef 1) t ∧ valid t ∧ values_of t ≡ₚ values_in v.
Proof. apply build_tree_allocates. reflexivity. Defined.

(* ------------------------------------------------------------------ *)
(** ** The index [_build_tree] reports *)

Lemma build_tree_loop_first v h0 n : ∀ k nodes h e,
  (1 ≤ k)%nat → (k + n = length v)%nat → build_inv v h0 k nodes h →
  for_each (build_tree_body v) (seq k n) (nodes, h) = Raise e →
  ∃ i, (k ≤ i)%nat ∧ orphan v i ∧ (∀ j, (k ≤ j < i)%nat → ¬ orphan v j) ∧
       e = NodeMissing ((i + 1) / 2 - 1).
Proof.
  induction n as [|n IH]; intros k nodes h e Hk Hlen Hinv; cbn [seq for_each]; [done|].
  pose proof (build_tree_body_spec v h0 k nodes h ltac:(lia) Hinv) as Hbody.
  destruct (build_tree_body v (nodes, h) k) as [[nodes1 h1]|e1|]; [| |done].
  - cbn [bind]. destruct Hbody as [Hinv1 Hno]. intros Hloop.
    destruct (IH (S k) nodes1 h1 e ltac:(lia) ltac:(lia) Hinv1 Hloop)
      as (i & Hi & Ho & Hfirst & ->).
    exists i. split_and!; [lia|done| |done].
    intros j Hj. destruct (decide (j = k)) as [->|]; [done|]. apply Hfirst. lia.
  - cbn [bind]. destruct Hbody as [Ho ->]. intros [= <-].
    exists k. split_and!; [lia|done| |done]. intros j Hj. lia.
Qed.

(** X11: when [_build_tree] raises, the index in the message is [0] for a
    list that starts with [None], and otherwise the parent position of the
    first position, in list order, that holds a value while its parent
    position holds [None]. *)
Theorem build_tree_first_orphan (v : list (option Z)) (h : store) (e : exn) :
  _build_tree v h = Raise e →
  (v !! 0%nat = Some None ∧ e = NodeMissing 0) ∨
  (∃ i, orphan v i ∧ (∀ j, (j < i)%nat → ¬ orphan v j) ∧
        e = NodeMissing ((i + 1) / 2 - 1)).
Proof.
  unfold _build_tree. destruct v as [|[x|] rest]; [done| |intros [= <-]; by left].
  cbn [_new_node].
  destruct (for_each _ _ _) as [[nodes h2]|e1|] eqn:Hloop; [done| |done].
  cbn [bind]. intros [= <-]. right.
  destruct (build_tree_loop_first (Some x :: rest) h (length (Some x :: rest) - 1)
              1 _ _ e1 ltac:(lia) ltac:(simpl; lia)
              (build_inv_init _ _ x rest eq_refl) Hloop)
    as (i & Hi & Ho & Hfirst & ->).
  exists i. split_and!; [done| |done].
  intros j Hj Hor. apply (Hfirst j); [|done]. destruct Hor as [Hj1 _]. lia.
Qed.

Lemma build_tree_first_orphan_witness :
  ([Some 1; None; None; Some 4; None; Some 6] !! 0%nat = Some None ∧
   NodeMissing 1 = NodeMissing 0) ∨
  (∃ i, orphan [Some 1; None; None; Some 4; None; Some 6] i ∧
        (∀ j, (j < i)%nat → ¬ orphan [Some 1; None; None; Some 4; None; Some 6] j) ∧
        NodeMissing 1 = NodeMissing ((i + 1) / 2 - 1)).
Proof. apply (build_tree_first_orphan _ []). reflexivity. Defined.

(* ------------------------------------------------------------------ *)
(** ** Lists of the balanced generators *)

Lemma build_then_list v h :
  well_formed v → trimmed v →
  ∃ root h', _build_tree v h = Ok (root, h') ∧ _build_list root h' = Ok v.
Proof.
  intros Hwf Htr.
  destruct (build_tree_repr v h Hwf) as (root & h' & Hb & Hr & _ & _).
  exists root, h'. split; [done|].
  rewrite (build_list_store h' root _ Hr (subtree_valid _ _ _)).
  by rewrite flat_tree_of_list.
Qed.

Lemma fmap_Some_sentinel_free (a : list Z) : sentinel_free (Some <$> a).
Proof.
  intros i Hi. rewrite at0_fmap_Some. rewrite length_fmap in Hi.
  destruct (lookup_lt_is_Some_2 a i Hi) as [x ->]. done.
Qed.

Lemma fmap_Some_trimmed (a : list Z) : trimmed (Some <$> a).
Proof.
  unfold trimmed. rewrite fmap_last. by destruct (last a).
Qed.

Lemma fmap_opp_opp (a : list Z) : Z.opp <$> (Z.opp <$> a) = a.
Proof.
  rewrite <- list_fmap_compose. rewrite <- (list_fmap_id a) at 2.
  apply list_fmap_ext. intros i x _. simpl. lia.
Qed.

(** X12: the trees of [tree(height, balanced=True)] and of [heap(height)]
    convert back to the list they were built from: the sample in order,
    and a permutation of the sample in heap order (for [max], the order
    reversed). *)
Theorem balanced_generators_list_back (heapify : list Z → list Z)
    (coin : nat → bool) (sampled : list Z) (hgt : Z) (h : store) :
  heapify_contract heapify → 0 ≤ hgt →
  (∃ root h', tree coin sampled hgt true h = Ok (root, h') ∧
     _build_list root h' = Ok (Some <$> sampled)) ∧
  (∃ root h' a, heap heapify sampled hgt false h = Ok (root, h') ∧
     _build_list root h' = Ok (Some <$> a) ∧ a ≡ₚ sampled ∧ heap_ordered a) ∧
  (∃ root h' a, heap heapify sampled hgt true h = Ok (root, h') ∧
     _build_list root h' = Ok (Some <$> a) ∧ a ≡ₚ sampled ∧ heap_ordered_max a).
Proof.
  intros Hheap Hh.
  assert (Hlist : ∀ a : list Z, ∃ root h',
            _build_tree (Some <$> a) h = Ok (root, h') ∧
            _build_list root h' = Ok (Some <$> a)).
  { intros a. apply build_then_list; [|apply fmap_Some_trimmed].
    apply sentinel_free_well_formed, fmap_Some_sentinel_free. }
  unfold tree, heap, _generate_values. destruct (Z.ltb_spec hgt 0); [lia|].
  cbn [bind]. split_and!.
  - apply Hlist.
  - destruct (Hlist (heapify sampled)) as (root & h' & Hb & Hl).
    destruct (Hheap sampled) as [Hord Hperm].
    by exists root, h', (heapify sampled).
  - destruct (Hlist (Z.opp <$> heapify (Z.opp <$> sampled))) as (root & h' & Hb & Hl).
    destruct (Hheap (Z.opp <$> sampled)) as [Hord Hperm].
    exists root, h', (Z.opp <$> heapify (Z.opp <$> sampled)).
    split_and!; [done|done| |by apply heap_ordered_opp].
    by rewrite Hperm, fmap_opp_opp.
Qed.

Lemma balanced_generators_list_back_witness :
  (∃ root h', tree Nat.even [2; 0; 1] 1 true [] = Ok (root, h') ∧
     _build_list root h' = Ok (Some <$> [2; 0; 1])) ∧
  (∃ root h' a, heap (merge_sort Z.le) [2; 0; 1] 1 false [] = Ok (root, h') ∧
     _build_list root h' = Ok (Some <$> a) ∧ a ≡ₚ [2; 0; 1] ∧ heap_ordered a) ∧
  (∃ root h' a, heap (merge_sort Z.le) [2; 0; 1] 1 true [] = Ok (root, h') ∧
     _build_list root h' = Ok (Some <$> a) ∧ a ≡ₚ [2; 0; 1] ∧ heap_ordered_max a).
Proof.
  apply balanced_generators_list_back; [apply merge_sort_contract|lia].
Defined.

(* ------------------------------------------------------------------ *)
(** ** The layout of the list of a tree *)

(** X13: on a validated tree [_build_list] returns a list that
    [_build_tree] accepts, without trailing [None]; the value of the node
    a path leads to is at the position the path leads to (the root at 0,
    the children of position [i] at [2 i + 1] and [2 i + 2]) and [None] is
    at the positions where the tree has no node; the list holds exactly
    the values of the tree and is shorter than [2 ** levels]. *)
Theorem build_list_layout (h : store) (root : obj) (t : btree) :
  repr h root t → valid t →
  ∃ l, _build_list root h = Ok l ∧
    well_formed l ∧ trimmed l ∧
    (∀ p, at0 l (pos_from 0 p) = root_value (tsub t p)) ∧
    values_in l ≡ₚ values_of t ∧
    (length l < 2 ^ levels t)%nat.
Proof.
  intros Hr Hv. exists (flat t).
  split_and!.
  - by apply build_list_store.
  - destruct t as [| |w l r] eqn:Ht; [|done|by apply flat_well_formed].
    assert (flat Nil = []) as -> by reflexivity.
    split; [done|]. intros i (_ & Hx & _). by destruct i.
  - apply trim_is_trimmed.
  - intros p. by apply flat_at.
  - by apply flat_values.
  - apply flat_length.
Qed.

Lemma build_list_layout_witness :
  let h := [mkNode (Some 3) ONull (ORef 1); mkNode (Some 9) ONull ONull] in
  let t := Nd (Some 3) Nil (Nd (Some 9) Nil Nil) in
  ∃ l, _build_list (ORef 0) h = Ok l ∧
    well_formed l ∧ trimmed l ∧
    (∀ p, at0 l (pos_from 0 p) = root_value (tsub t p)) ∧
    values_in l ≡ₚ values_of t ∧
    (length l < 2 ^ levels t)%nat.
Proof.
  apply build_list_layout.
  - repeat econstructor.
  - simpl. split_and!; done.
Defined.

(* ------------------------------------------------------------------ *)
(** ** One insertion *)

(** The place where the descent hangs the new leaf. *)
Lemma insert_at_path gl v : ∀ t k, valid t →
  ∃ p, length p = insert_depth gl k t ∧ tsub t p = Nil ∧
       tsub (insert_at gl k t v) p = Nd (Some v) Nil Nil.
Proof.
  induction t as [| |[x|] l IHl r IHr]; intros k; cbn [insert_at insert_depth].
  - intros _. by exists [].
  - done.
  - intros (_ & Hl & Hr). destruct (gl k x).
    + destruct (IHl (S k) Hl) as (p & Hlen & Hold & Hnew).
      exists (false :: p). simpl. by rewrite Hlen.
    + destruct (IHr (S k) Hr) as (p & Hlen & Hold & Hnew).
      exists (true :: p). simpl. by rewrite Hlen.
  - by intros [? _].
Qed.

Lemma insert_depth_pos gl k t : valid t → t ≠ Nil → (1 ≤ insert_depth gl k t)%nat.
Proof.
  destruct t as [| |[x|] l r]; simpl; try done; [lia|by intros [? _]].
Qed.

(** X14: [_bst_insert] on a tree that owns its nodes allocates one node
    and changes no object outside the tree; the depth it returns is the
    length of the path to the new leaf, which hangs where the tree had no
    node; the tree holds the old values and the new one, and has as many
    levels as before or one more than the depth. *)
Theorem bst_insert_effect (h : store) (root : obj) (t : btree) (fp : gset nat) (v : Z) :
  shaped h root t fp → t ≠ Nil →
  ∃ d h' t' p,
    _bst_insert root v h = Ok (Z.of_nat d, h') ∧
    shaped h' root t' ({[length h]} ∪ fp) ∧ frame h h' fp ∧
    length p = d ∧ tsub t p = Nil ∧ tsub t' p = Nd (Some v) Nil Nil ∧
    (1 ≤ d ≤ levels t)%nat ∧ levels t' = Nat.max (levels t) (S d) ∧
    values_of t' ≡ₚ v :: values_of t.
Proof.
  intros Hs Hne. pose proof (shaped_valid _ _ _ _ Hs) as Hv.
  destruct (bst_insert_loop_spec v t (fuel_of h) root fp 1 h Hs Hne)
    as (h' & fp' & Heq & Hs' & -> & Hframe).
  { pose proof (fuel_of_levels _ _ _ (shaped_repr _ _ _ _ Hs)). lia. }
  destruct (insert_at_path (λ _ x, v <? x) v t 0 Hv) as (p & Hlen & Hold & Hnew).
  exists (insert_depth (λ _ x, v <? x) 0 t), h', (insert_at (λ _ x, v <? x) 0 t v), p.
  split_and!; try done.
  - unfold _bst_insert. rewrite Heq. apply ok_pair_eq. lia.
  - by apply insert_depth_pos.
  - apply insert_depth_le.
  - by apply insert_at_levels.
  - by apply insert_at_values.
Qed.

Lemma bst_insert_effect_witness :
  let h := [mkNode (Some 5) ONull ONull] in
  let t := Nd (Some 5) Nil Nil in
  ∃ d h' t' p,
    _bst_insert (ORef 0) 2 h = Ok (Z.of_nat d, h') ∧
    shaped h' (ORef 0) t' ({[length h]} ∪ {[0%nat]}) ∧ frame h h' {[0%nat]} ∧
    length p = d ∧ tsub t p = Nil ∧ tsub t' p = Nd (Some 2) Nil Nil ∧
    (1 ≤ d ≤ levels t)%nat ∧ levels t' = Nat.max (levels t) (S d) ∧
    values_of t' ≡ₚ 2 :: values_of t.
Proof.
  apply bst_insert_effect; [|done]. apply (shaped_new_leaf [] 5).
Defined.

(** X15: [_random_insert] on a tree that owns its nodes allocates one
    node and changes no object outside the tree; it draws one random
    number for each level it descends, and the depth it returns is the
    length of the path to the new leaf; the tree holds the old values and
    the new one. *)
Theorem random_insert_effect (coin : nat → bool) (h : store) (root : obj)
    (t : btree) (fp : gset nat) (v : Z) (k : nat) :
  shaped h root t fp → t ≠ Nil →
  ∃ d h' t' p,
    _random_insert coin root v k h = Ok (Z.of_nat d, (k + d)%nat, h') ∧
    shaped h' root t' ({[length h]} ∪ fp) ∧ frame h h' fp ∧
    length p = d ∧ tsub t p = Nil ∧ tsub t' p = Nd (Some v) Nil Nil ∧
    (1 ≤ d ≤ levels t)%nat ∧ levels t' = Nat.max (levels t) (S d) ∧
    values_of t' ≡ₚ v :: values_of t.
Proof.
  intros Hs Hne. pose proof (shaped_valid _ _ _ _ Hs) as Hv.
  destruct (random_insert_loop_spec coin v t (fuel_of h) root fp 1 k h Hs Hne)
    as (h' & fp' & Heq & Hs' & -> & Hframe).
  { pose proof (fuel_of_levels _ _ _ (shaped_repr _ _ _ _ Hs)). lia. }
  destruct (insert_at_path (λ j _, coin j) v t k Hv) as (p & Hlen & Hold & Hnew).
  exists (insert_depth (λ j _, coin j) k t), h',
    (insert_at (λ j _, coin j) k t v), p.
  split_and!; try done.
  - unfold _random_insert. rewrite Heq. apply ok_triple_eq; lia.
  - by apply insert_depth_pos.
  - apply insert_depth_le.
  - by apply insert_at_levels.
  - by apply insert_at_values.
Qed.

Lemma random_insert_effect_witness :
  let h := [mkNode (Some 5) ONull ONull] in
  let t := Nd (Some 5) Nil Nil in
  ∃ d h' t' p,
    _random_insert Nat.even (ORef 0) 2 0 h = Ok (Z.of_nat d, (0 + d)%nat, h') ∧
    shaped h' (ORef 0) t' ({[length h]} ∪ {[0%nat]}) ∧ frame h h' {[0%nat]} ∧
    length p = d ∧ tsub t p = Nil ∧ tsub t' p = Nd (Some 2) Nil Nil ∧
    (1 ≤ d ≤ levels t)%nat ∧ levels t' = Nat.max (levels t) (S d) ∧
    values_of t' ≡ₚ 2 :: values_of t.
Proof.
  apply random_insert_effect; [|done]. apply (shaped_new_leaf [] 5).
Defined.

(* ------------------------------------------------------------------ *)
(** ** Heights below zero *)



(* ------------------------------------------------------------------ *)
(** ** Strings *)

Lemma append_cons c s1 s2 :
  (String.String c s1 +:+ s2)%string = String.String c (s1 +:+ s2).
Proof. reflexivity. Qed.

Lemma append_nil_l s : ("" +:+ s)%string = s.
Proof. reflexivity. Qed.

Lemma append_nil_r s : (s +:+ "")%string = s.
Proof.
  induction s as [|c s IH]; [done|]. by rewrite append_cons, IH.
Qed.

Lemma len_app s1 s2 : len (s1 +:+ s2) = len s1 + len s2.
Proof.
  unfold len. induction s1 as [|c s1 IH]; [done|].
  rewrite append_cons. cbn [String.length]. lia.
Qed.

Lemma len_times c n : len (times c n) = Z.max 0 n.
Proof.
  unfold len, times.
  assert (String.length (copies c (Z.to_nat n)) = Z.to_nat n) as ->; [|lia].
  induction (Z.to_nat n) as [|m IH]; simpl; [done|]. by rewrite IH.
Qed.

Lemma join_cons s parts : join (s :: parts) = (s +:+ join parts)%string.
Proof.
  unfold join. destruct parts as [|s' parts]; [|done].
  cbn [String.concat]. by rewrite append_nil_r.
Qed.

Lemma substring_prefix s q :
  String.substring 0 (String.length s) (s +:+ q) = s.
Proof.
  induction s as [|c s IH]; [by destruct q|].
  rewrite append_cons. cbn [String.length String.substring]. by rewrite IH.
Qed.

Lemma substring_middle p s q :
  String.substring (String.length p) (String.length s) (p +:+ s +:+ q) = s.
Proof.
  induction p as [|c p IH]; [exact (substring_prefix s q)|].
  rewrite append_cons. cbn [String.length String.substring]. exact IH.
Qed.

Lemma pretty_N_go_longer x : ∀ s,
  (0 < x)%N → (String.length s < String.length (pretty_N_go x s))%nat.
Proof.
  induction (N.lt_wf_0 x) as [x _ IH]; intros s Hx.
  rewrite pretty_N_go_step by done.
  destruct (decide (x `div` 10 = 0)%N) as [->|Hd].
  - rewrite pretty_N_go_0. simpl. lia.
  - assert (x `div` 10 < x)%N as Hlt by (apply N.div_lt; lia).
    assert (0 < x `div` 10)%N as Hpos by by apply N.neq_0_lt_0.
    pose proof (IH _ Hlt (String.String (pretty_N_char (x `mod` 10)) s) Hpos) as Hlen.
    cbn [String.length] in Hlen. lia.
Qed.

(** A value is never printed as the empty string. *)
Lemma str_len_pos v : 1 ≤ len (str v).
Proof.
  unfold len. destruct v as [[|x|x]|]; [simpl; lia| | |simpl; lia].
  - unfold str, pretty, pretty_Z, pretty, pretty_positive, pretty, pretty_N.
    destruct (decide _); [done|].
    pose proof (pretty_N_go_longer (N.pos x) "" ltac:(lia)). simpl in *. lia.
  - unfold str, pretty, pretty_Z. rewrite append_cons. cbn [String.length]. lia.
Qed.

(* ------------------------------------------------------------------ *)
(** ** The block [_build_str] draws *)

Lemma append_assoc s1 s2 s3 :
  ((s1 +:+ s2) +:+ s3)%string = (s1 +:+ s2 +:+ s3)%string.
Proof.
  induction s1 as [|c s1 IH]; [done|]. by rewrite !append_cons, IH.
Qed.

Lemma join_nil : join [] = ""%string.
Proof. done. Qed.

Lemma len_line w (lines : list string) i :
  0 ≤ w → Forall (λ s, len s = w) lines →
  len (default (times " " w) (lines !! i)) = w.
Proof.
  intros Hw Hlines. destruct (lines !! i) as [s|] eqn:Hs; simpl.
  - by eapply list.Forall_forall in Hlines; [|by eapply list_elem_of_lookup_2].
  - rewrite len_times. lia.
Qed.

(** The body of [_build_str] on two blocks: the block of the node. *)
Lemma build_str_node_block v wl lf lt ll wr rf rt rl :
  0 ≤ wl → Forall (λ s, len s = wl) ll → (0 < wl → 0 ≤ lf ∧ lf ≤ lt ∧ lt < wl) →
  0 ≤ wr → Forall (λ s, len s = wr) rl → (0 < wr → 0 ≤ rf ∧ rf ≤ rt ∧ rt < wr) →
  let vf := if 0 <? wl then wl + 1 else 0 in
  let w := vf + len (str v) + (if 0 <? wr then wr + 1 else 0) in
  ∃ pre post rest,
    build_str_node v (wl, lf, lt, ll) (wr, rf, rt, rl) =
      (w, vf, vf + len (str v) - 1, (pre +:+ str v +:+ post)%string :: rest) ∧
    len pre = vf ∧
    length rest = S (Nat.max (length ll) (length rl)) ∧
    Forall (λ s, len s = w) ((pre +:+ str v +:+ post)%string :: rest).
Proof.
  intros Hwl Hll Hl Hwr Hrl Hr vf w.
  pose proof (str_len_pos v) as Hv.
  set (la := - Z.quot (- (lf + lt)) 2 + 1).
  set (ra := Z.quot (rf + rt) 2).
  assert (Hla : 0 < wl → 1 ≤ la ≤ wl).
  { intros Hpos. specialize (Hl Hpos). unfold la.
    rewrite Z.quot_opp_l by lia. pose proof (Z.quot_div_nonneg (lf + lt) 2).
    Z.to_euclidean_division_equations. lia. }
  assert (Hra : 0 < wr → 0 ≤ ra ≤ wr - 1).
  { intros Hpos. specialize (Hr Hpos). unfold ra.
    Z.to_euclidean_division_equations. lia. }
  set (pre := if 0 <? wl then (times " " (la + 1) +:+ times "_" (wl - la))%string
              else ""%string).
  set (post := if 0 <? wr then (times "_" ra +:+ times " " (wr - ra + 1))%string
               else ""%string).
  set (mid2 := if 0 <? wl
               then ((times " " la +:+ "/") +:+ times " " (wl - la))%string
               else ""%string).
  set (end2 := if 0 <? wr
               then ((times " " ra +:+ "\") +:+ times " " (wr - ra))%string
               else ""%string).
  set (gap_len := if 0 <? wr
                  then (if 0 <? wl then len (str v) + 1 else len (str v)) + 1
                  else (if 0 <? wl then len (str v) + 1 else len (str v))).
  set (below := map (λ i, (default (times " " wl) (ll !! i) +:+ times " " gap_len) +:+
                          default (times " " wr) (rl !! i))%string
                    (seq 0 (Nat.max (length ll) (length rl)))).
  set (line2 := (mid2 +:+ times " " (len (str v)) +:+ end2)%string).
  assert (Hpre : len pre = vf).
  { unfold pre, vf. destruct (Z.ltb_spec 0 wl) as [Hpos|]; [|done].
    specialize (Hla Hpos). rewrite len_app, !len_times. lia. }
  assert (Hpost : len post = if 0 <? wr then wr + 1 else 0).
  { unfold post. destruct (Z.ltb_spec 0 wr) as [Hpos|]; [|done].
    specialize (Hra Hpos). rewrite len_app, !len_times. lia. }
  assert (Hline1 : len (pre +:+ str v +:+ post) = w).
  { rewrite !len_app, Hpre, Hpost. unfold w. lia. }
  assert (Hline2 : len line2 = w).
  { unfold line2, mid2, end2, w, vf. rewrite !len_app, len_times.
    destruct (Z.ltb_spec 0 wl) as [Hlpos|]; destruct (Z.ltb_spec 0 wr) as [Hrpos|];
      try specialize (Hla Hlpos); try specialize (Hra Hrpos);
      rewrite ?len_app, ?len_times; change (len "/") with 1;
      change (len "\") with 1; change (len "") with 0; lia. }
  assert (Hbelow : Forall (λ s, len s = w) below).
  { unfold below. apply Forall_map, list.Forall_forall. intros i _. cbv beta.
    rewrite !len_app, !len_line, len_times by done. unfold w, vf, gap_len.
    destruct (Z.ltb_spec 0 wl), (Z.ltb_spec 0 wr); lia. }
  exists pre, post, (line2 :: below). split_and!.
  - unfold build_str_node, w, vf, pre, post, line2, mid2, end2, below, gap_len.
    fold la. fold ra.
    destruct (Z.ltb_spec 0 wl) as [Hlpos|]; destruct (Z.ltb_spec 0 wr) as [Hrpos|];
      cbn [app]; rewrite ?join_cons, ?join_nil, ?append_nil_r, ?append_assoc;
      rewrite ?len_app, ?len_times;
      try specialize (Hla Hlpos); try specialize (Hra Hrpos);
      match goal with
      | |- (?a, ?b, ?c, ?d) = _ => apply (f_equal (λ x, (x, b, c, d))); lia
      end.
  - done.
  - unfold below. cbn [length]. by rewrite length_map, length_seq.
  - repeat constructor; done.
Qed.

Lemma render_block t :
  valid t →
  ∃ vf vt lines,
    render t = (width t, vf, vt, lines) ∧
    0 ≤ width t ∧ (t ≠ Nil → 0 < width t) ∧
    Forall (λ s, len s = width t) lines ∧
    length lines = (2 * levels t)%nat ∧
    (0 < width t → 0 ≤ vf ∧ vf ≤ vt ∧ vt < width t) ∧
    (∀ v l r, t = Nd v l r →
       vf = (if is_null l then 0 else width l + 1) ∧
       vt = vf + len (str v) - 1 ∧
       ∃ pre post rest,
         lines = (pre +:+ str v +:+ post)%string :: rest ∧ len pre = vf).
Proof.
  induction t as [| |v l IHl r IHr]; [|done|].
  - intros _. exists 0, 0, []. simpl. split_and!; try done; lia.
  - intros (Hv & Hl & Hr).
    destruct (IHl Hl) as (lf & lt & ll & El & Hwl & Hlpos & Hll & Hlen_l & Hlb & _).
    destruct (IHr Hr) as (rf & rt & rl & Er & Hwr & Hrpos & Hrl & Hlen_r & Hrb & _).
    destruct (build_str_node_block v (width l) lf lt ll (width r) rf rt rl
                Hwl Hll Hlb Hwr Hrl Hrb)
      as (pre & post & rest & Eq & Hpre & Hrest & Hall).
    assert (Hnl : (0 <? width l) = negb (is_null l)).
    { destruct l; [done|done|]. simpl. apply Z.ltb_lt. by apply Hlpos. }
    assert (Hnr : (0 <? width r) = negb (is_null r)).
    { destruct r; [done|done|]. simpl. apply Z.ltb_lt. by apply Hrpos. }
    pose proof (str_len_pos v) as Hpos.
    assert (Hw : (if 0 <? width l then width l + 1 else 0) + len (str v) +
                 (if 0 <? width r then width r + 1 else 0) = width (Nd v l r)).
    { cbn [width]. rewrite Hnl, Hnr. by destruct (is_null l), (is_null r). }
    rewrite Hw in Eq, Hall.
    eexists _, _, _. split_and!.
    + cbn [render]. rewrite El, Er. exact Eq.
    + rewrite <- Hw. destruct (0 <? width l), (0 <? width r); lia.
    + intros _. rewrite <- Hw. destruct (0 <? width l), (0 <? width r); lia.
    + done.
    + cbn [length levels]. rewrite Hrest, Hlen_l, Hlen_r. lia.
    + intros _. rewrite <- Hw. destruct (0 <? width l), (0 <? width r); lia.
    + intros v' l' r' [= <- <- <-]. split_and!.
      * rewrite Hnl. by destruct (is_null l).
      * done.
      * by exists pre, post, rest.
Qed.

(** With one unit of fuel per level [_build_str] returns, and returns
    what the closed form says. *)
Lemma build_str_valid fuel : ∀ t,
  valid t → (levels t < fuel)%nat → _build_str fuel t = Ok (render t).
Proof.
  induction fuel as [|fuel IH]; intros t Hv Hl; [lia|].
  destruct t as [| |v l r]; [done|done|].
  destruct Hv as (_ & Hvl & Hvr). simpl in Hl.
  cbn [_build_str is_null btree_ops _value_of _left_of _right_of bind].
  rewrite (IH l), (IH r) by (done || lia). done.
Qed.

Lemma build_str_repr h fuel : ∀ o t, repr h o t →
  @_build_str _ (store_ops h) fuel o = _build_str fuel t.
Proof.
  induction fuel as [|fuel IH]; intros o t Hr; [done|].
  apply agree_eq. cbn [_build_str].
  rewrite (repr_is_null _ _ _ Hr). destruct (is_null t); [done|].
  eapply (agree_bind eq); [by apply repr_value_of|]. intros ? v ->.
  eapply agree_bind; [by apply repr_left_of|]. intros ol l Hl.
  rewrite (IH _ _ Hl).
  eapply (agree_bind eq); [by destruct (_build_str fuel l)|]. intros ? dl ->.
  eapply agree_bind; [by apply repr_right_of|]. intros or r Hr'.
  rewrite (IH _ _ Hr').
  eapply (agree_bind eq); [by destruct (_build_str fuel r)|]. intros ? dr ->.
  done.
Qed.

Lemma build_str_store h o t :
  repr h o t → valid t →
  @_build_str _ (store_ops h) (fuel_of h) o = Ok (render t).
Proof.
  intros Hr Hv. rewrite (build_str_repr h _ o t Hr).
  apply build_str_valid; [done|by eapply fuel_of_levels].
Qed.

(** X17: on a validated tree [_build_str] returns a block of as many
    lines as twice the number of levels, all of the width it returns; the
    width is that of the root's value and, for each child, of the child's
    block and one column more; the value of the root is written on the
    first line, from column [val_from] to column [val_to]. *)
Theorem build_str_block (h : store) (o : obj) (t : btree) :
  repr h o t → valid t →
  ∃ vf vt lines,
    @_build_str _ (store_ops h) (fuel_of h) o = Ok (width t, vf, vt, lines) ∧
    length lines = (2 * levels t)%nat ∧
    Forall (λ s, len s = width t) lines ∧
    (∀ v l r, t = Nd v l r →
       vf = (if is_null l then 0 else width l + 1) ∧
       vt = vf + len (str v) - 1 ∧ vt < width t ∧
       ∃ line rest, lines = line :: rest ∧
         String.substring (Z.to_nat vf) (Z.to_nat (len (str v))) line = str v).
Proof.
  intros Hr Hv.
  destruct (render_block t Hv)
    as (vf & vt & lines & Eq & Hw & Hpos & Hall & Hlen & Hb & Hroot).
  exists vf, vt, lines. split_and!; [|done|done|].
  - rewrite (build_str_store h o t Hr Hv). by rewrite Eq.
  - intros v l r ->. destruct (Hroot v l r eq_refl) as (Hvf & Hvt & pre & post & rest & -> & Hpre).
    destruct (Hb (Hpos ltac:(done))) as (_ & _ & Hlt).
    split_and!; [done|done|done|].
    exists (pre +:+ str v +:+ post)%string, rest. split; [done|].
    rewrite <- Hpre. unfold len. rewrite !Nat2Z.id. apply substring_middle.
Qed.

Lemma build_str_block_witness :
  let h := [mkNode (Some 10) (ORef 1) ONull; mkNode (Some 222) ONull ONull] in
  let t := Nd (Some 10) (Nd (Some 222) Nil Nil) Nil in
  ∃ vf vt lines,
    @_build_str _ (store_ops h) (fuel_of h) (ORef 0) = Ok (width t, vf, vt, lines) ∧
    length lines = (2 * levels t)%nat ∧
    Forall (λ s, len s = width t) lines ∧
    (∀ v l r, t = Nd v l r →
       vf = (if is_null l then 0 else width l + 1) ∧
       vt = vf + len (str v) - 1 ∧ vt < width t ∧
       ∃ line rest, lines = line :: rest ∧
         String.substring (Z.to_nat vf) (Z.to_nat (len (str v))) line = str v).
Proof.
  apply build_str_block.
  - repeat econstructor.
  - simpl. split_and!; done.
Defined.

(* ------------------------------------------------------------------ *)
(** ** The entry points *)

Lemma validate_tree_valid h root t :
  repr h root t → valid t → _validate_tree root h = Ok (tt, h).
Proof.
  intros Hr Hv. rewrite (validate_tree_store h root t Hr).
  apply first_offender_valid in Hv as ->. done.
Qed.

Lemma validate_tree_invalid h root t :
  repr h root t → ¬ valid t →
  ∃ e, (e = InvalidNode ∨ e = NullNodeValue) ∧ _validate_tree root h = Raise e.
Proof.
  intros Hr Hv. rewrite (validate_tree_store h root t Hr).
  destruct (first_offender t) as [o|] eqn:Hf.
  - apply first_offender_offending in Hf.
    destruct o as [| |[x|] l r]; try done; simpl; eauto.
  - by apply first_offender_valid in Hf.
Qed.

Lemma pprint_node h a t :
  repr h (ORef a) t → valid t →
  pprint (AObj (ORef a)) h =
  Ok (Some (newline +:+ String.concat newline (render t).2), h).
Proof.
  intros Hr Hv. unfold pprint.
  rewrite (validate_tree_valid h _ t Hr Hv). cbn [bind].
  rewrite (build_str_store h _ t Hr Hv). cbn [bind].
  by destruct (render t) as [[[w vf] vt] lines].
Qed.

(** X18: for a node whose object graph unfolds to a tree, [inspect],
    [convert] and [pprint] return exactly when every node holds a value
    and every child is a node or [None], and then leave the store as it
    is; otherwise the three raise the [ValueError] of [_validate_tree]. *)
Theorem node_entry_points (h : store) (a : nat) (t : btree) :
  repr h (ORef a) t →
  (valid t →
     ∃ p l out,
       inspect (AObj (ORef a)) h = Ok (p, h) ∧
       convert (AObj (ORef a)) h = Ok (AList l, h) ∧
       pprint (AObj (ORef a)) h = Ok (Some out, h)) ∧
  (¬ valid t →
     ∃ e, (e = InvalidNode ∨ e = NullNodeValue) ∧
       _validate_tree (ORef a) h = Raise e ∧
       inspect (AObj (ORef a)) h = Raise e ∧
       convert (AObj (ORef a)) h = Raise e ∧
       pprint (AObj (ORef a)) h = Raise e).
Proof.
  intros Hr. split.
  - intros Hv. eexists _, (flat t), _. split_and!.
    + by apply inspect_node.
    + unfold convert. rewrite (validate_tree_valid h _ t Hr Hv). cbn [bind].
      by rewrite (build_list_store h _ t Hr Hv).
    + by apply pprint_node.
  - intros Hv. destruct (validate_tree_invalid h _ t Hr Hv) as (e & He & Hval).
    exists e. unfold inspect, convert, pprint. rewrite Hval. done.
Qed.

Lemma node_entry_points_witness :
  let h := [mkNode (Some 3) ONull (ORef 1); mkNode None ONull ONull] in
  let t := Nd (Some 3) Nil (Nd None Nil Nil) in
  (valid t →
     ∃ p l out,
       inspect (AObj (ORef 0)) h = Ok (p, h) ∧
       convert (AObj (ORef 0)) h = Ok (AList l, h) ∧
       pprint (AObj (ORef 0)) h = Ok (Some out, h)) ∧
  (¬ valid t →
     ∃ e, (e = InvalidNode ∨ e = NullNodeValue) ∧
       _validate_tree (ORef 0) h = Raise e ∧
       inspect (AObj (ORef 0)) h = Raise e ∧
       convert (AObj (ORef 0)) h = Raise e ∧
       pprint (AObj (ORef 0)) h = Raise e).
Proof. apply node_entry_points. repeat econstructor. Defined.

(** X19: a non-empty list that [_build_tree] accepts and the tree built
    from it are interchangeable: the tree passes [_validate_tree], and
    [inspect] and [pprint] give for the list what they give for the
    tree. *)
Theorem list_and_tree_agree (v : list (option Z)) (h : store) :
  well_formed v → v ≠ [] →
  ∃ root h' p out,
    _build_tree v h = Ok (root, h') ∧
    _validate_tree root h' = Ok (tt, h') ∧
    inspect (AList v) h = Ok (p, h') ∧
    inspect (AObj root) h' = Ok (p, h') ∧
    pprint (AList v) h = Ok (Some out, h') ∧
    pprint (AObj root) h' = Ok (Some out, h').
Proof.
  intros Hwf Hne.
  destruct (build_tree_repr v h Hwf) as (root & h' & Hb & Hr & Hroot & _).
  specialize (Hroot Hne). subst root.
  pose proof (subtree_valid (length v) v 0) as Hv. fold (tree_of_list v) in Hv.
  pose proof (inspect_node h' _ _ Hr Hv) as Hi.
  pose proof (pprint_node h' _ _ Hr Hv) as Hp.
  pose proof (validate_tree_valid h' _ _ Hr Hv) as Hval.
  eexists _, h', _, _. split_and!; [exact Hb|exact Hval| |exact Hi| |exact Hp].
  - rewrite <- Hi. unfold inspect. rewrite Hb, Hval. done.
  - rewrite <- Hp. unfold pprint. destruct v as [|x v']; [done|].
    rewrite Hb, Hval. done.
Qed.

Lemma list_and_tree_agree_witness :
  ∃ root h' p out,
    _build_tree [Some 1; Some 2; None; None; Some 5] [] = Ok (root, h') ∧
    _validate_tree root h' = Ok (tt, h') ∧
    inspect (AList [Some 1; Some 2; None; None; Some 5]) [] = Ok (p, h') ∧
    inspect (AObj root) h' = Ok (p, h') ∧
    pprint (AList [Some 1; Some 2; None; None; Some 5]) [] = Ok (Some out, h') ∧
    pprint (AObj root) h' = Ok (Some out, h').
Proof.
  apply list_and_tree_agree; [|done]. split; [done|].
  intros i (Hi & Hx & Hp).
  do 5 (destruct i as [|i]; [by (done || lia)|]).
  by apply Hx.
Defined.

(** X20: what the entry points do with an argument that is no tree: a
    list [_build_tree] rejects makes the three raise its error; an object
    that is neither a list, a node nor [None] makes them raise 'Expecting a
    list or a node'; [None] makes [inspect] raise that error too, while
    [convert] returns the empty list and [pprint] prints nothing, as it
    does for the empty list. *)
Theorem entry_points_reject (v : list (option Z)) (h : store) (e : exn) :
  _build_tree v h = Raise e →
  (inspect (AList v) h = Raise e ∧
   convert (AList v) h = Raise e ∧
   pprint (AList v) h = Raise e) ∧
  (inspect (AObj OOther) h = Raise ExpectingListOrNode ∧
   convert (AObj OOther) h = Raise ExpectingListOrNode ∧
   pprint (AObj OOther) h = Raise ExpectingListOrNode) ∧
  (inspect (AObj ONull) h = Raise ExpectingListOrNode ∧
   convert (AObj ONull) h = Ok (AList [], h) ∧
   pprint (AObj ONull) h = Ok (None, h) ∧
   pprint (AList []) h = Ok (None, h)).
Proof.
  intros Hb. split_and!; try done.
  - unfold inspect. by rewrite Hb.
  - unfold convert. by rewrite Hb.
  - unfold pprint. destruct v as [|x v']; [done|]. by rewrite Hb.
Qed.

Lemma entry_points_reject_witness :
  (inspect (AList [Some 1; None; None; Some 4]) [] = Raise (NodeMissing 1) ∧
   convert (AList [Some 1; None; None; Some 4]) [] = Raise (NodeMissing 1) ∧
   pprint (AList [Some 1; None; None; Some 4]) [] = Raise (NodeMissing 1)) ∧
  (inspect (AObj OOther) [] = Raise ExpectingListOrNode ∧
   convert (AObj OOther) [] = Raise ExpectingListOrNode ∧
   pprint (AObj OOther) [] = Raise ExpectingListOrNode) ∧
  (inspect (AObj ONull) [] = Raise ExpectingListOrNode ∧
   convert (AObj ONull) [] = Ok (AList [], []) ∧
   pprint (AObj ONull) [] = Ok (None, []) ∧
   pprint (AList []) [] = Ok (None, [])).
Proof. apply entry_points_reject. reflexivity. Defined.

(* ------------------------------------------------------------------ *)
(** ** The trees of the balanced generators *)

Lemma perfect_count_nodes d : ∀ t, perfect d t → count_nodes t = (2 ^ d - 1)%nat.
Proof.
  induction d as [|d IH]; intros t; destruct t as [| |[x|] l r]; simpl; try done.
  intros [Hl Hr]. rewrite (IH l Hl), (IH r Hr). pose proof (pow2_pos d). lia.
Qed.

Lemma perfect_count_leaves d : ∀ t, perfect (S d) t → count_leaves t = (2 ^ d)%nat.
Proof.
  induction d as [|d IH]; intros t; destruct t as [| |[x|] l r]; try done.
  - intros [Hl Hr]. by destruct l, r.
  - intros [Hl Hr]. cbn [count_leaves].
    rewrite (IH l Hl), (IH r Hr).
    destruct l as [| |[lx|] ll lr]; try done.
    destruct r as [| |[rx|] rl rr]; try done.
    rewrite Nat.pow_succ_r'. lia.
Qed.

Lemma perfect_shallow d : ∀ t, perfect d t → shallow t = d.
Proof.
  induction d as [|d IH]; intros t; destruct t as [| |[x|] l r]; try done.
  intros [Hl Hr]. cbn [shallow]. rewrite (IH l Hl), (IH r Hr).
  destruct l, r; try done; destruct d; try done; lia.
Qed.

(** A sample of [range(n)] of size [n] holds every integer of [range(n)]. *)
Lemma sample_covers n l x : is_sample n l → 0 ≤ x < n → x ∈ l.
Proof.
  intros (Hlen & Hnd & Hrange) Hx.
  destruct (decide (x ∈ l)) as [|Hnot]; [done|exfalso].
  assert (Hsub : l ⊆+ seqZ 0 x ++ seqZ (x + 1) (n - x - 1)).
  { apply NoDup_submseteq; [done|]. intros y Hy.
    assert (y ≠ x) by (by intros ->).
    eapply list.Forall_forall in Hrange; [|exact Hy]. cbv beta in Hrange.
    apply elem_of_app. rewrite !elem_of_seqZ. lia. }
  apply submseteq_length in Hsub. rewrite length_app, !length_seqZ in Hsub. lia.
Qed.

(** What [inspect] reports for the tree of a list of [2 ** (k + 1) - 1]
    values. *)
Lemma full_list_report (a : list Z) (k : nat) (h : store) :
  length a = (2 ^ S k - 1)%nat →
  ∃ root h' p t,
    _build_tree (Some <$> a) h = Ok (root, h') ∧
    inspect (AObj root) h' = Ok (p, h') ∧
    repr h' root t ∧ t = tree_of_list (Some <$> a) ∧ values_of t ≡ₚ a ∧
    node_count p = 2 ^ (Z.of_nat k + 1) - 1 ∧
    leaf_count p = 2 ^ Z.of_nat k ∧
    min_leaf_depth p = Z.of_nat k ∧
    max_leaf_depth p = Z.of_nat k ∧
    least_of (λ y, y ∈ a) (min_value p) ∧
    greatest_of (λ y, y ∈ a) (max_value p).
Proof.
  intros Hlen. pose proof (full_fmap_Some (S k) a Hlen) as Hfull.
  pose proof (tree_of_full_list _ _ Hfull) as Hperf.
  destruct (build_full_list k (Some <$> a) h Hfull)
    as (r & h' & p0 & Hb & Hr & _).
  pose proof (perfect_valid _ _ Hperf) as Hv.
  destruct (inspect_node_report h' r _ Hr Hv)
    as (p & Hp & _ & Hmax & Hmin & _ & _ & _ & _ & _ & Hn & Hlf & Hlo & Hhi).
  assert (Hvals : values_of (tree_of_list (Some <$> a)) ≡ₚ a).
  { rewrite tree_of_list_values by by apply (full_well_formed (S k)).
    by rewrite values_in_fmap_Some. }
  exists (ORef r), h', p, (tree_of_list (Some <$> a)).
  split_and!; try done.
  - rewrite Hn, (perfect_count_nodes _ _ Hperf).
    pose proof (pow2_pos (S k)) as Hpow.
    rewrite Nat2Z.inj_sub by lia. rewrite (levels_pow (S k)).
    f_equal. f_equal. lia.
  - by rewrite Hlf, (perfect_count_leaves _ _ Hperf), levels_pow.
  - rewrite Hmin, (perfect_shallow _ _ Hperf). lia.
  - rewrite Hmax, (perfect_levels _ _ Hperf). lia.
  - eapply least_of_iff; [|exact Hlo]. intros y. cbv beta. by rewrite Hvals.
  - eapply greatest_of_iff; [|exact Hhi]. intros y. cbv beta. by rewrite Hvals.
Qed.

Lemma sample_extremes (height : Z) (sampled a : list Z) (lo hi : ext) :
  0 ≤ height → is_sample (count height) sampled → a ≡ₚ sampled →
  least_of (λ y, y ∈ a) lo → greatest_of (λ y, y ∈ a) hi →
  lo = Fin 0 ∧ hi = Fin (count height - 1).
Proof.
  intros Hh Hs Hperm Hlo Hhi.
  assert (Hpos : 1 ≤ count height).
  { unfold count. rewrite Z.pow_add_r by lia.
    assert (0 < 2 ^ height) by (apply Z.pow_pos_nonneg; lia). lia. }
  assert (Hrange : ∀ y, y ∈ a → 0 ≤ y < count height).
  { intros y Hy. rewrite Hperm in Hy. destruct Hs as (_ & _ & Hr).
    by eapply list.Forall_forall in Hr. }
  assert (H0 : 0 ∈ a) by (rewrite Hperm; eapply sample_covers; [done|lia]).
  assert (Hn : count height - 1 ∈ a)
    by (rewrite Hperm; eapply sample_covers; [done|lia]).
  split.
  - destruct lo as [|lo|]; simpl in Hlo; [done| |by destruct (Hlo 0)].
    destruct Hlo as [Hin Hle]. f_equal.
    specialize (Hrange lo Hin). specialize (Hle 0 H0). lia.
  - destruct hi as [|hi|]; simpl in Hhi; [by destruct (Hhi 0)| |done].
    destruct Hhi as [Hin Hge]. f_equal.
    specialize (Hrange hi Hin). specialize (Hge _ Hn). lia.
Qed.

(** X21: the trees of [tree(height, balanced=True)] and of [heap(height)]
    are full down to the last level: [inspect] counts
    [2 ** (height + 1) - 1] nodes and [2 ** height] leaves, all of them at
    depth [height]; since the sample holds every integer of [range(count)],
    [min_value] is [0] and [max_value] is [count - 1]. *)
Theorem balanced_generators_report (heapify : list Z → list Z)
    (coin : nat → bool) (sampled : list Z) (hgt : Z) (b : bool) (h : store) :
  heapify_contract heapify → 0 ≤ hgt → is_sample (count hgt) sampled →
  (∃ root h' p,
     tree coin sampled hgt true h = Ok (root, h') ∧
     inspect (AObj root) h' = Ok (p, h') ∧
     node_count p = count hgt ∧ leaf_count p = 2 ^ hgt ∧
     min_leaf_depth p = hgt ∧ max_leaf_depth p = hgt ∧
     min_value p = Fin 0 ∧ max_value p = Fin (count hgt - 1)) ∧
  (∃ root h' p,
     heap heapify sampled hgt b h = Ok (root, h') ∧
     inspect (AObj root) h' = Ok (p, h') ∧
     node_count p = count hgt ∧ leaf_count p = 2 ^ hgt ∧
     min_leaf_depth p = hgt ∧ max_leaf_depth p = hgt ∧
     min_value p = Fin 0 ∧ max_value p = Fin (count hgt - 1)).
Proof.
  intros Hheap Hh Hs.
  assert (Hreport : ∀ a : list Z, a ≡ₚ sampled →
    ∃ root h' p,
      _build_tree (Some <$> a) h = Ok (root, h') ∧
      inspect (AObj root) h' = Ok (p, h') ∧
      node_count p = count hgt ∧ leaf_count p = 2 ^ hgt ∧
      min_leaf_depth p = hgt ∧ max_leaf_depth p = hgt ∧
      min_value p = Fin 0 ∧ max_value p = Fin (count hgt - 1)).
  { intros a Hperm.
    assert (Hlen : length a = (2 ^ S (Z.to_nat hgt) - 1)%nat).
    { rewrite Hperm. apply count_nat; [done|]. by destruct Hs. }
    destruct (full_list_report a (Z.to_nat hgt) h Hlen)
      as (root & h' & p & t & Hb & Hp & _ & _ & _ & Hn & Hl & Hmin & Hmax & Hlo & Hhi).
    destruct (sample_extremes hgt sampled a _ _ Hh Hs Hperm Hlo Hhi) as [Elo Ehi].
    rewrite Z2Nat.id in Hn, Hl, Hmin, Hmax by done.
    exists root, h', p. by split_and!. }
  unfold tree, heap, _generate_values.
  destruct (Z.ltb_spec hgt 0); [lia|]. cbn [bind].
  split; [by apply Hreport|].
  destruct b.
  - apply Hreport. destruct (Hheap (Z.opp <$> sampled)) as [_ Hperm].
    by rewrite Hperm, fmap_opp_opp.
  - apply Hreport. by destruct (Hheap sampled).
Qed.

Lemma balanced_generators_report_witness :
  (∃ root h' p,
     tree Nat.even [2; 0; 1] 1 true [] = Ok (root, h') ∧
     inspect (AObj root) h' = Ok (p, h') ∧
     node_count p = count 1 ∧ leaf_count p = 2 ^ 1 ∧
     min_leaf_depth p = 1 ∧ max_leaf_depth p = 1 ∧
     min_value p = Fin 0 ∧ max_value p = Fin (count 1 - 1)) ∧
  (∃ root h' p,
     heap (merge_sort Z.le) [2; 0; 1] 1 true [] = Ok (root, h') ∧
     inspect (AObj root) h' = Ok (p, h') ∧
     node_count p = count 1 ∧ leaf_count p = 2 ^ 1 ∧
     min_leaf_depth p = 1 ∧ max_leaf_depth p = 1 ∧
     min_value p = Fin 0 ∧ max_value p = Fin (count 1 - 1)).
Proof.
  apply balanced_generators_report.
  - apply merge_sort_contract.
  - lia.
  - split_and!; [done|apply (bool_decide_unpack _); by vm_compute|].
    repeat constructor; done.
Defined.

(** X22: [heap(height)] puts the least sampled value, [0], at the root,
    and [heap(height, max=True)] the greatest, [count - 1]. *)
Theorem heap_root (heapify : list Z → list Z) (sampled : list Z)
    (hgt : Z) (h : store) :
  heapify_contract heapify → 0 ≤ hgt → is_sample (count hgt) sampled →
  (∃ root h' t, heap heapify sampled hgt false h = Ok (root, h') ∧
     repr h' root t ∧ root_value t = Some 0) ∧
  (∃ root h' t, heap heapify sampled hgt true h = Ok (root, h') ∧
     repr h' root t ∧ root_value t = Some (count hgt - 1)).
Proof.
  intros Hheap Hh Hs.
  assert (Hlen : ∀ a : list Z, a ≡ₚ sampled →
            length a = (2 ^ S (Z.to_nat hgt) - 1)%nat).
  { intros a Hperm. rewrite Hperm. apply count_nat; [done|]. by destruct Hs. }
  unfold heap, _generate_values. destruct (Z.ltb_spec hgt 0); [lia|]. cbn [bind].
  split.
  - destruct (Hheap sampled) as [Hord Hperm].
    destruct (full_list_report _ _ h (Hlen _ Hperm))
      as (root & h' & p & t & Hb & Hp & Hr & Ht & Hvals & _ & _ & _ & _ & Hlo & Hhi).
    destruct (sample_extremes hgt sampled _ _ _ Hh Hs Hperm Hlo Hhi) as [Elo _].
    exists root, h', t. split_and!; [done|done|].
    pose proof (subtree_asc_ok _ Hord (length (Some <$> heapify sampled)) 0) as Hasc.
    fold (tree_of_list (Some <$> heapify sampled)) in Hasc. rewrite <- Ht in Hasc.
    assert (Hv : valid t) by (subst t; apply subtree_valid).
    rewrite Elo in Hlo. destruct Hlo as [H0 _].
    destruct t as [| |[x|] l r]; [by inversion Hr; subst; rewrite <- Hvals in H0;
      apply elem_of_nil in H0| by destruct Hv| |by destruct Hv as [? _]].
    simpl. f_equal.
    pose proof (deep_asc_root _ Hv Hasc x eq_refl 0) as Hle.
    rewrite Hvals in Hle. specialize (Hle H0).
    assert (Hx : x ∈ heapify sampled) by (rewrite <- Hvals; simpl; by left).
    rewrite Hperm in Hx. destruct Hs as (_ & _ & Hrange).
    eapply list.Forall_forall in Hrange; [|exact Hx]. cbv beta in Hrange. lia.
  - destruct (Hheap (Z.opp <$> sampled)) as [Hord Hperm].
    assert (Hperm' : Z.opp <$> heapify (Z.opp <$> sampled) ≡ₚ sampled)
      by by rewrite Hperm, fmap_opp_opp.
    destruct (full_list_report _ _ h (Hlen _ Hperm'))
      as (root & h' & p & t & Hb & Hp & Hr & Ht & Hvals & _ & _ & _ & _ & Hlo & Hhi).
    destruct (sample_extremes hgt sampled _ _ _ Hh Hs Hperm' Hlo Hhi) as [_ Ehi].
    exists root, h', t. split_and!; [done|done|].
    pose proof (subtree_desc_ok _ (heap_ordered_opp _ Hord)
                  (length (Some <$> (Z.opp <$> heapify (Z.opp <$> sampled)))) 0) as Hdesc.
    fold (tree_of_list (Some <$> (Z.opp <$> heapify (Z.opp <$> sampled)))) in Hdesc.
    rewrite <- Ht in Hdesc.
    assert (Hv : valid t) by (subst t; apply subtree_valid).
    rewrite Ehi in Hhi. destruct Hhi as [Hn _].
    destruct t as [| |[x|] l r]; [by inversion Hr; subst; rewrite <- Hvals in Hn;
      apply elem_of_nil in Hn| by destruct Hv| |by destruct Hv as [? _]].
    simpl. f_equal.
    pose proof (deep_desc_root _ Hv Hdesc x eq_refl (count hgt - 1)) as Hle.
    rewrite Hvals in Hle. specialize (Hle Hn).
    assert (Hx : x ∈ Z.opp <$> heapify (Z.opp <$> sampled))
      by (rewrite <- Hvals; simpl; by left).
    rewrite Hperm' in Hx. destruct Hs as (_ & _ & Hrange).
    eapply list.Forall_forall in Hrange; [|exact Hx]. cbv beta in Hrange. lia.
Qed.

Lemma heap_root_witness :
  (∃ root h' t, heap (merge_sort Z.le) [2; 0; 1] 1 false [] = Ok (root, h') ∧
     repr h' root t ∧ root_value t = Some 0) ∧
  (∃ root h' t, heap (merge_sort Z.le) [2; 0; 1] 1 true [] = Ok (root, h') ∧
     repr h' root t ∧ root_value t = Some (count 1 - 1)).
Proof.
  apply heap_root; [apply merge_sort_contract|lia|].
  split_and!; [done|apply (bool_decide_unpack _); by vm_compute|].
  repeat constructor; done.
Defined.
